(** * Two-pass chunked watershed (dask_test): a shallow embedding

    The repository holds two notebooks, [dask_image_watershed.ipynb]
    (first-pass labels shared directly across the halo) and
    [dask_image_watershed_v2.ipynb] (a sentinel "boundary basin" shared
    across the halo).  Both are embedded here for 2-dimensional arrays
    ([ndim = 2] in the notebooks).

    The notebooks call three library functions that are not part of the
    repository: [skimage.morphology.watershed], [da.overlap.overlap] and
    [da.overlap.trim_overlap].  They are modelled from the specification
    (LocalWatershed, HaloExchange, Compositor); everything else follows
    the notebooks' code.

    Elevations are floating-point numbers in the notebooks; the pipeline
    only ever compares them, so they are integers here, as labels are. *)

From stdpp Require Import base tactics option list numbers gmap.
From Stdlib Require Import ZArith Lia.
From Stdlib Require QArith.

Local Open Scope nat_scope.

(** ** Outcomes of fallible steps *)

Inductive error := EmptyMarkers | InvalidGeometry.

Inductive result (A : Type) := Ok (x : A) | Err (e : error).
Arguments Ok {A} x.
Arguments Err {A} e.

Definition rbind {A B} (m : result A) (k : A -> result B) : result B :=
  match m with
  | Ok x => k x
  | Err e => Err e
  end.

Notation "'let*' x ':=' m 'in' k" := (rbind m (fun x => k))
  (at level 10, x name, m at level 100, k at level 200).

Fixpoint rmapM {A B} (f : A -> result B) (l : list A) : result (list B) :=
  match l with
  | [] => Ok []
  | x :: l' => let* y := f x in let* ys := rmapM f l' in Ok (y :: ys)
  end.

(** ** numpy arrays: a shape and the raveled (row-major) buffer *)

Record ndarray (A : Type) := NdArray {
  nrows : nat;
  ncols : nat;
  data : list A
}.
Arguments NdArray {A} nrows ncols data.
Arguments nrows {A} _.
Arguments ncols {A} _.
Arguments data {A} _.

Definition shape {A} (a : ndarray A) : nat * nat := (nrows a, ncols a).

(** The buffer has one entry per cell. *)
Definition wf {A} (a : ndarray A) : Prop :=
  length (data a) = nrows a * ncols a.

(** [a[i, j]]; [d] stands for the IndexError of an index out of range,
    which no definition below relies on. *)
Definition get {A} (d : A) (a : ndarray A) (i j : nat) : A :=
  if (i <? nrows a) && (j <? ncols a)
  then default d (data a !! (i * ncols a + j))
  else d.

(** [a[i, j] = v] *)
Definition set {A} (a : ndarray A) (i j : nat) (v : A) : ndarray A :=
  if (i <? nrows a) && (j <? ncols a)
  then NdArray (nrows a) (ncols a) (<[i * ncols a + j := v]> (data a))
  else a.

(** The array of shape [(r, c)] whose cell [(i, j)] is [f i j]. *)
Definition tabulate {A} (r c : nat) (f : nat -> nat -> A) : ndarray A :=
  NdArray r c ((fun k => f (k / c) (k mod c)) <$> seq 0 (r * c)).

Definition zeros_like (a : ndarray Z) : ndarray Z :=
  NdArray (nrows a) (ncols a) (replicate (length (data a)) 0%Z).

(** An elementwise operation. *)
Definition amap {A B} (f : A -> B) (a : ndarray A) : ndarray B :=
  NdArray (nrows a) (ncols a) (f <$> data a).

(** Elementwise comparison with a scalar: [a == v] and [a > 0]. *)
Definition eq_scalar (a : ndarray Z) (v : Z) : ndarray bool :=
  amap (fun x => Z.eqb x v) a.

Definition gt_zero (a : ndarray Z) : ndarray bool :=
  amap (fun x => Z.ltb 0 x) a.

(** Boolean-mask indexing.  [a[m]] is the 1-d array of the cells of [a]
    where [m] holds, in raveled order; [a[m] = vals] writes the entries of
    [vals] to those cells in the same order; [a[m] = v] writes a scalar. *)
Fixpoint select {A} (m : list bool) (xs : list A) : list A :=
  match m, xs with
  | b :: m', x :: xs' => if b then x :: select m' xs' else select m' xs'
  | _, _ => []
  end.

Fixpoint put {A} (m : list bool) (out vals : list A) : list A :=
  match m, out with
  | b :: m', o :: out' =>
      if b then
        match vals with
        | v :: vals' => v :: put m' out' vals'
        | [] => o :: put m' out' []
        end
      else o :: put m' out' vals
  | _, _ => out
  end.

Fixpoint put_scalar {A} (m : list bool) (out : list A) (v : A) : list A :=
  match m, out with
  | b :: m', o :: out' => (if b then v else o) :: put_scalar m' out' v
  | _, _ => out
  end.


(** [ws_markers.max()]; numpy raises on an empty array, which has no
    maximum: [0] stands for that case. *)
Definition array_max (a : ndarray Z) : Z :=
  match data a with
  | [] => 0%Z
  | x :: l => foldl Z.max x l
  end.

(** [a[m]], [a[m] = vals] and [a[m] = v] on arrays. *)
Definition getitem_mask {A} (a : ndarray A) (m : ndarray bool) : list A :=
  select (data m) (data a).

Definition setitem_mask {A} (a : ndarray A) (m : ndarray bool) (vals : list A) : ndarray A :=
  NdArray (nrows a) (ncols a) (put (data m) (data a) vals).

Definition setitem_mask_scalar {A} (a : ndarray A) (m : ndarray bool) (v : A) : ndarray A :=
  NdArray (nrows a) (ncols a) (put_scalar (data m) (data a) v).

(** ** The halo ring of a chunk

    [r = np.array(range(0, n)); (r[:depth], r[-depth:])]: the first and the
    last [depth] indices of an axis of length [n].  For [depth = 0] the two
    slices have different lengths and numpy rejects the index; the
    notebooks use [depth = 1], and the statements below ask [1 <= depth]. *)
Definition edge_indices (n depth : nat) : list nat :=
  take depth (seq 0 n) ++ drop (n - depth) (seq 0 n).

Definition axis_len {A} (a : ndarray A) (axis : nat) : nat :=
  match axis with
  | 0 => nrows a
  | _ => ncols a
  end.

(** [a[tuple(idx)] = src[tuple(idx)]] where [idx] is [slice(None)] on every
    axis but [axis], and the index list [ix] on [axis]. *)
Definition assign_axis (axis : nat) (ix : list nat) (src : nat -> nat -> Z)
    (a : ndarray Z) : ndarray Z :=
  tabulate (nrows a) (ncols a) (fun i j =>
    if bool_decide ((match axis with 0 => i | _ => j end) ∈ ix)
    then src i j
    else get 0%Z a i j).

(** Index [i] of an axis of length [n] lies within [depth] of an end. *)
Definition in_ring (n depth i : nat) : bool := (i <? depth) || (n - depth <=? i).

(** Cell [(i, j)] lies on the ring of width [depth] around the array. *)
Definition on_ring {A} (a : ndarray A) (depth i j : nat) : bool :=
  in_ring (nrows a) depth i || in_ring (ncols a) depth j.

Definition ndim : nat := 2.

(** ** dask arrays: chunk sizes along each axis and the grid of blocks *)

Record darray (A : Type) := DArray {
  rchunks : list nat;
  cchunks : list nat;
  grid : ndarray (ndarray A)
}.
Arguments DArray {A} rchunks cchunks grid.
Arguments rchunks {A} _.
Arguments cchunks {A} _.
Arguments grid {A} _.

Definition empty_block {A} : ndarray A := NdArray 0 0 [].

Definition get_block {A} (g : darray A) (bi bj : nat) : ndarray A :=
  get empty_block (grid g) bi bj.

(** A block for every pair of chunks, of the shape the chunk sizes give. *)
Definition dwf {A} (g : darray A) : Prop :=
  wf (grid g)
  /\ nrows (grid g) = length (rchunks g)
  /\ ncols (grid g) = length (cchunks g)
  /\ forall bi bj, bi < length (rchunks g) -> bj < length (cchunks g) ->
       wf (get_block g bi bj)
       /\ nrows (get_block g bi bj) = nth bi (rchunks g) 0
       /\ ncols (get_block g bi bj) = nth bj (cchunks g) 0.

(** The chunked array [g] has the chunk sizes [rch] and [cch]. *)
Definition chunked {A} (rch cch : list nat) (g : darray A) : Prop :=
  dwf g /\ rchunks g = rch /\ cchunks g = cch.

(** First global index of chunk [b] along an axis with chunk sizes [ch]. *)
Definition offset (ch : list nat) (b : nat) : nat := sum_list (take b ch).

(** The chunk holding global index [i], and the index inside that chunk. *)
Fixpoint locate (ch : list nat) (i : nat) : nat * nat :=
  match ch with
  | [] => (0, i)
  | c :: ch' =>
      if i <? c then (0, i)
      else let '(b, a) := locate ch' (i - c) in (S b, a)
  end.

(** Chunk sizes of an axis of length [n] cut every [cl] cells; the last
    chunk is the remainder ([chunk_len = 400] on a [200] axis gives the
    single chunk [200]). *)
Definition chunk_sizes (n cl : nat) : list nat :=
  replicate (n / cl) cl ++ (if n mod cl =? 0 then [] else [n mod cl]).

(** [da.from_array(x, chunks=chunks)] *)
Definition from_array {A} (d : A) (x : ndarray A) (chunks : nat * nat) : darray A :=
  let rch := chunk_sizes (nrows x) (fst chunks) in
  let cch := chunk_sizes (ncols x) (snd chunks) in
  DArray rch cch
    (tabulate (length rch) (length cch) (fun bi bj =>
       tabulate (nth bi rch 0) (nth bj cch 0) (fun a b =>
         get d x (offset rch bi + a) (offset cch bj + b)))).

(** [x.compute()]: the blocks put side by side. *)
Definition compute {A} (d : A) (g : darray A) : ndarray A :=
  tabulate (sum_list (rchunks g)) (sum_list (cchunks g)) (fun i j =>
    let '(bi, a) := locate (rchunks g) i in
    let '(bj, b) := locate (cchunks g) j in
    get d (get_block g bi bj) a b).

(** *** Halo exchange and trimming *)

Inductive boundary := Nearest | Constant (v : Z).

(** The halo depth may not exceed half of any chunk extent. *)
Definition geometry_ok {A} (g : darray A) (depth : nat) : bool :=
  forallb (fun n => 2 * depth <=? n) (rchunks g ++ cchunks g).

(** Modelled from the spec: dask's [da.overlap.overlap] is a library
    function, absent from the repository.  The domain padded by [depth]
    cells on every side, read at [(p, q)]: inside the domain the cell
    itself; outside it the nearest cell of the domain ([Nearest]) or the
    fixed value ([Constant v]). *)
Definition pad_source (pol : boundary) (depth : nat) (G : ndarray Z) (p q : nat) : Z :=
  match pol with
  | Nearest =>
      get 0%Z G (Nat.min (p - depth) (nrows G - 1)) (Nat.min (q - depth) (ncols G - 1))
  | Constant v =>
      if (depth <=? p) && (p <? nrows G + depth) && (depth <=? q) && (q <? ncols G + depth)
      then get 0%Z G (p - depth) (q - depth)
      else v
  end.

(** Modelled from the spec: [da.overlap.overlap(x, depth, boundary)], a
    dask library function absent from the repository (HaloExchange,
    sections 4.1 and 4.2).  Every chunk is enlarged by [depth] cells on every
    side; the halo is an exact copy of the cells across the face, and
    follows the boundary policy at a domain edge.  Fails with
    [InvalidGeometry] when [depth] exceeds half the smallest chunk extent. *)
Definition overlap (g : darray Z) (depth : nat) (pol : boundary) : result (darray Z) :=
  if geometry_ok g depth then
    let G := compute 0%Z g in
    let rch := rchunks g in
    let cch := cchunks g in
    Ok (DArray ((fun n => n + 2 * depth) <$> rch) ((fun n => n + 2 * depth) <$> cch)
          (tabulate (length rch) (length cch) (fun bi bj =>
             tabulate (nth bi rch 0 + 2 * depth) (nth bj cch 0 + 2 * depth) (fun a b =>
               pad_source pol depth G (offset rch bi + a) (offset cch bj + b)))))
  else Err InvalidGeometry.

Definition trim_block {A} (d : A) (depth : nat) (b : ndarray A) : ndarray A :=
  tabulate (nrows b - 2 * depth) (ncols b - 2 * depth) (fun i j =>
    get d b (i + depth) (j + depth)).

(** Modelled from the spec: [da.overlap.trim_overlap(x, depth)], a dask
    library function absent from the repository (section 4.6): it strips
    the halo ring of every chunk symmetrically. *)
Definition trim_overlap {A} (d : A) (g : darray A) (depth : nat) : darray A :=
  DArray ((fun n => n - 2 * depth) <$> rchunks g) ((fun n => n - 2 * depth) <$> cchunks g)
    (amap (trim_block d depth) (grid g)).

(** *** Per-chunk tasks

    The scheduler is an external collaborator: all the pipeline asks of it
    is to run a function on every block.  [sequential] runs the tasks in
    raveled block order; [scheduled sched] runs them in the order [sched]
    gives to the task numbers, stores each result in its slot and stops at
    the first task that fails. *)
Definition executor : Type :=
  forall X Y : Type, (X -> result Y) -> list X -> result (list Y).

Definition sequential : executor := fun X Y f inputs => rmapM f inputs.

Fixpoint run_tasks {X Y} (f : X -> result Y) (inputs : list X) (order : list nat)
    (slots : list (option Y)) : result (list (option Y)) :=
  match order with
  | [] => Ok slots
  | k :: rest =>
      match inputs !! k with
      | Some x => let* y := f x in run_tasks f inputs rest (<[k := Some y]> slots)
      | None => run_tasks f inputs rest slots
      end
  end.

Definition scheduled (sched : list nat -> list nat) : executor := fun X Y f inputs =>
  let* slots := run_tasks f inputs (sched (seq 0 (length inputs)))
                  (replicate (length inputs) None) in
  Ok (omap id slots).

(** [x.map_blocks(f, y, z)]: the result keeps the chunks of [x]. *)
Definition map_blocks {X Y} (exec : executor) (f : ndarray X -> result (ndarray Y))
    (x : darray X) : result (darray Y) :=
  let* bs := exec _ _ f (data (grid x)) in
  Ok (DArray (rchunks x) (cchunks x) (NdArray (nrows (grid x)) (ncols (grid x)) bs)).

Definition map_blocks2 {X1 X2 Y} (exec : executor)
    (f : ndarray X1 -> ndarray X2 -> result (ndarray Y))
    (x : darray X1) (y : darray X2) : result (darray Y) :=
  let* bs := exec _ _ (fun p => f (fst p) (snd p))
               (zip (data (grid x)) (data (grid y))) in
  Ok (DArray (rchunks x) (cchunks x) (NdArray (nrows (grid x)) (ncols (grid x)) bs)).

Definition map_blocks3 {X1 X2 X3 Y} (exec : executor)
    (f : ndarray X1 -> ndarray X2 -> ndarray X3 -> result (ndarray Y))
    (x : darray X1) (y : darray X2) (z : darray X3) : result (darray Y) :=
  let* bs := exec _ _ (fun p => f (fst (fst p)) (snd (fst p)) (snd p))
               (zip (zip (data (grid x)) (data (grid y))) (data (grid z))) in
  Ok (DArray (rchunks x) (cchunks x) (NdArray (nrows (grid x)) (ncols (grid x)) bs)).

(** ** LocalWatershed

    [skimage.morphology.watershed] is a library function, absent from the
    repository; the flood below follows section 4.3 of the specification.
    Where that section is silent, the flood takes the face-sharing cells
    as neighbours, visits them in the order of their raveled offsets and
    inserts the seeds in raveled order; every unlabelled (and mask-true)
    neighbour of a popped cell is eligible, the queue order alone decides
    who floods first. *)

(** A frontier cell with its priority key [(elevation, insertion order)]. *)
Record entry := Entry {
  e_value : Z;
  e_order : nat;
  e_row : nat;
  e_col : nat
}.

Definition entry_leb (x y : entry) : bool :=
  (e_value x <? e_value y)%Z
  || ((e_value x =? e_value y)%Z && (e_order x <=? e_order y)).

(** Modelled from the spec: the queue of the flood, which is part of the
    absent [watershed].  The entry of least key (the first-inserted one
    among equal elevations) and the rest of the queue. *)
Fixpoint pop_min (q : list entry) : option (entry * list entry) :=
  match q with
  | [] => None
  | x :: q' =>
      match pop_min q' with
      | None => Some (x, [])
      | Some (y, r) => if entry_leb x y then Some (x, q') else Some (y, x :: r)
      end
  end.

Record flood_state := FloodState {
  fs_out : ndarray Z;
  fs_queue : list entry;
  fs_next : nat
}.

(** Modelled from the spec: the neighbourhood of the absent [watershed].
    The cells sharing a face with [(i, j)] in an array of shape [(R, C)]:
    row above, column before, column after, row below. *)
Definition neighbours (R C i j : nat) : list (nat * nat) :=
  (if 0 <? i then [(i - 1, j)] else [])
  ++ (if 0 <? j then [(i, j - 1)] else [])
  ++ (if j + 1 <? C then [(i, j + 1)] else [])
  ++ (if i + 1 <? R then [(i + 1, j)] else []).

Definition mask_ok (mask : option (ndarray bool)) (i j : nat) : bool :=
  match mask with
  | None => true
  | Some m => get false m i j
  end.

(** Modelled from the spec: one neighbour of a popped cell, in the absent
    [watershed].  An unlabelled, mask-true neighbour takes the label of
    the popped cell and joins the queue; a labelled cell is never
    overwritten. *)
Definition visit (elev : ndarray Z) (mask : option (ndarray bool)) (lbl : Z)
    (st : flood_state) (n : nat * nat) : flood_state :=
  let '(i, j) := n in
  if (get 0%Z (fs_out st) i j =? 0)%Z && mask_ok mask i j then
    FloodState (set (fs_out st) i j lbl)
               (fs_queue st ++ [Entry (get 0%Z elev i j) (fs_next st) i j])
               (S (fs_next st))
  else st.

Definition flood_step (elev : ndarray Z) (mask : option (ndarray bool))
    (st : flood_state) : option flood_state :=
  match pop_min (fs_queue st) with
  | None => None
  | Some (e, q') =>
      let out := fs_out st in
      Some (foldl (visit elev mask (get 0%Z out (e_row e) (e_col e)))
                  (FloodState out q' (fs_next st))
                  (neighbours (nrows out) (ncols out) (e_row e) (e_col e)))
  end.

Fixpoint flood (fuel : nat) (elev : ndarray Z) (mask : option (ndarray bool))
    (st : flood_state) : flood_state :=
  match fuel with
  | 0 => st
  | S fuel' =>
      match flood_step elev mask st with
      | None => st
      | Some st' => flood fuel' elev mask st'
      end
  end.

(** The cells of an array of shape [(R, C)] in raveled order. *)
Definition cells (R C : nat) : list (nat * nat) :=
  (fun k => (k / C, k mod C)) <$> seq 0 (R * C).

(** Every cell with a nonzero marker, in raveled order. *)
Definition seed_cells (markers : ndarray Z) : list (nat * nat) :=
  filter (fun p => get 0%Z markers (fst p) (snd p) <> 0%Z)
         (cells (nrows markers) (ncols markers)).

Definition seeds (elev markers : ndarray Z) : list entry :=
  imap (fun n p => Entry (get 0%Z elev (fst p) (snd p)) n (fst p) (snd p))
       (seed_cells markers).

(** Modelled from the spec: [watershed(elevation, markers, mask)], the
    scikit-image function absent from the repository, as the priority
    flood of section 4.3.  The queue is seeded with every cell
    whose marker is nonzero; the cell of lowest elevation (first inserted
    among equals) is popped, and each of its unlabelled (and mask-true)
    neighbours takes its label and is pushed.  Fails with [EmptyMarkers]
    when no marker is nonzero.  A pop removes an entry and a push labels an
    unlabelled cell, so the number of seeds plus the number of cells is
    enough fuel to empty the queue (see [watershed_drains]). *)
Definition watershed (elev markers : ndarray Z) (mask : option (ndarray bool))
    : result (ndarray Z) :=
  match seeds elev markers with
  | [] => Err EmptyMarkers
  | q =>
      Ok (fs_out (flood (length q + nrows markers * ncols markers) elev mask
                    (FloodState markers q (length q))))
  end.

(** What the flood keeps true of its state, for the marker image [m]: the
    label image keeps the shape; a marked cell keeps its marker; every
    label is [0] or a marker; every queued cell lies in the image and is
    labelled. *)
Definition flood_inv (m : ndarray Z) (st : flood_state) : Prop :=
  wf (fs_out st)
  /\ shape (fs_out st) = shape m
  /\ (forall k x, data m !! k = Some x -> x <> 0%Z -> data (fs_out st) !! k = Some x)
  /\ (forall v, v ∈ data (fs_out st) -> v = 0%Z \/ v ∈ data m)
  /\ (forall e, e ∈ fs_queue st ->
        e_row e < nrows m /\ e_col e < ncols m
        /\ get 0%Z (fs_out st) (e_row e) (e_col e) <> 0%Z).

(** Every cell of [a] satisfies [P]. *)
Definition all_cells (P : Z -> Prop) (a : ndarray Z) : Prop :=
  forall v, v ∈ data a -> P v.

(** A MarkerMap: every cell is [0] (no seed) or a positive label. *)
Definition marker_map (a : ndarray Z) : Prop := all_cells (fun v => (0 <= v)%Z) a.

(** The queue length plus the number of unlabelled cells. *)
Definition flood_measure (st : flood_state) : nat :=
  length (fs_queue st) + length (filter (fun v => v = 0%Z) (data (fs_out st))).

(** ** DirectSharing: [dask_image_watershed.ipynb] *)

Module DirectSharing.

(** [overlap = np.zeros_like(chunk)], then for every axis [i]
    [overlap[tuple(idx)] = chunk[tuple(idx)].copy()] with the first and the
    last [depth] indices on axis [i]: the ring of [chunk], zero inside. *)
Definition grab_overlap (chunk : ndarray Z) (depth : nat) : ndarray Z :=
  foldl (fun overlap i =>
           assign_axis i (edge_indices (axis_len chunk i) depth) (get 0%Z chunk) overlap)
        (zeros_like chunk) (seq 0 ndim).

(** [markers = grab_overlap(ws, depth)], then
    [markers[labels > 0] = labels[labels > 0]]. *)
Definition build_full_markers (labels ws : ndarray Z) (depth : nat) : ndarray Z :=
  let markers := grab_overlap ws depth in
  setitem_mask markers (gt_zero labels) (getitem_mask labels (gt_zero labels)).

(** The cells "Create Dask Arrays" and "Create Chunk-wise Marker Images",
    one definition for each dask array of the notebook, under its name.
    A dask array is a recipe, evaluated by [compute()]: a failure of a
    stage is a failure of every stage built on it. *)
Section Pipeline.
Variable exec : executor.
Variables hmax ws_markers : ndarray Z.
Variable chunks : nat * nat.
Variable depth : nat.

Definition hmax_op : result (darray Z) :=
  overlap (from_array 0%Z hmax chunks) depth Nearest.

Definition ws_markers_op : result (darray Z) :=
  overlap (from_array 0%Z ws_markers chunks) depth Nearest.

(** fp = first pass *)
Definition ws_fp : result (darray Z) :=
  let* x := hmax_op in
  let* y := ws_markers_op in
  map_blocks2 exec (fun x y => watershed x y None) x y.

Definition ws_neighbors : result (darray Z) :=
  let* fp := ws_fp in
  overlap (trim_overlap 0%Z fp depth) depth Nearest.

Definition full_labels_op : result (darray Z) :=
  let* m := ws_markers_op in
  let* nb := ws_neighbors in
  map_blocks2 exec (fun x y => Ok (build_full_markers x y depth)) m nb.

(** sp = second pass *)
Definition ws_sp_op : result (darray Z) :=
  let* x := hmax_op in
  let* fl := full_labels_op in
  map_blocks2 exec (fun x y => watershed x y None) x fl.

Definition ws_final : result (ndarray Z) :=
  let* sp := ws_sp_op in
  Ok (compute 0%Z (trim_overlap 0%Z sp depth)).
End Pipeline.

End DirectSharing.

(** ** SentinelBasinSharing: [dask_image_watershed_v2.ipynb] *)

Module SentinelBasinSharing.

(** [overlap = np.zeros_like(chunk)], then for every axis [i]
    [overlap[tuple(idx)] = label] with the first and the last [depth]
    indices on axis [i]: [label] on the ring, zero inside. *)
Definition mask_overlap (chunk : ndarray Z) (depth : nat) (label : Z) : ndarray Z :=
  foldl (fun overlap i =>
           assign_axis i (edge_indices (axis_len chunk i) depth) (fun _ _ => label) overlap)
        (zeros_like chunk) (seq 0 ndim).

(** [markers = mask_overlap(labels, depth, label)], then
    [markers[labels > 0] = labels[labels > 0]]. *)
Definition build_full_markers (labels : ndarray Z) (depth : nat) (label : Z) : ndarray Z :=
  let markers := mask_overlap labels depth label in
  setitem_mask markers (gt_zero labels) (getitem_mask labels (gt_zero labels)).

(** [out = chunk.copy(); out[out == label] = 0]: the value returned (the
    allocation is modelled in [Store] below). *)
Definition remove_label (chunk : ndarray Z) (label : Z) : ndarray Z :=
  let out := chunk in
  setitem_mask_scalar out (eq_scalar out label) 0%Z.

(** [out = fp_chunk.copy(); out[mask_chunk] = sp_chunk[mask_chunk]] *)
Definition compose (fp_chunk sp_chunk : ndarray Z) (mask_chunk : ndarray bool) : ndarray Z :=
  let out := fp_chunk in
  setitem_mask out mask_chunk (getitem_mask sp_chunk mask_chunk).

(** The cells "Create Dask Arrays", "Propagate Boundary Basin" and
    "Compose First and Second Passes Using Mask". *)
Section Pipeline.
Variable exec : executor.
Variables hmax ws_markers : ndarray Z.
Variable chunks : nat * nat.
Variable depth : nat.

Definition hmax_op : result (darray Z) :=
  overlap (from_array 0%Z hmax chunks) depth Nearest.

Definition boundary_label : Z := (array_max ws_markers + 1)%Z.

Definition ws_markers_op : result (darray Z) :=
  let* m := overlap (from_array 0%Z ws_markers chunks) depth (Constant boundary_label) in
  map_blocks exec (fun x => Ok (build_full_markers x depth boundary_label)) m.

Definition ws_fp : result (darray Z) :=
  let* x := hmax_op in
  let* y := ws_markers_op in
  map_blocks2 exec (fun x y => watershed x y None) x y.

Definition ws_markers_sp : result (darray Z) :=
  let* fp := ws_fp in
  let* m := map_blocks exec (fun x => Ok (remove_label x boundary_label)) fp in
  overlap (trim_overlap 0%Z m depth) depth Nearest.

Definition ws_mask : result (darray bool) :=
  let* fp := ws_fp in
  map_blocks exec (fun x => Ok (eq_scalar x boundary_label)) fp.

Definition ws_sp : result (darray Z) :=
  let* x := hmax_op in
  let* y := ws_markers_sp in
  let* z := ws_mask in
  map_blocks3 exec (fun x y z => watershed x y (Some z)) x y z.

Definition ws_final : result (ndarray Z) :=
  let* fp := ws_fp in
  let* sp := ws_sp in
  let* mask := ws_mask in
  let* fin := map_blocks3 exec (fun x y z => Ok (compose x y z)) fp sp mask in
  Ok (compute 0%Z (trim_overlap 0%Z fin depth)).
End Pipeline.

End SentinelBasinSharing.

(** The reference of the notebooks' validation cell:
    [ws = watershed(hmax, markers=ws_markers)] on the whole domain. *)
Definition ws (hmax ws_markers : ndarray Z) : result (ndarray Z) :=
  watershed hmax ws_markers None.

(** ** Words of the specification's properties *)

Definition elevation (hmax : ndarray Z) (p : nat * nat) : Z :=
  get 0%Z hmax (fst p) (snd p).

Definition in_domain (hmax : ndarray Z) (p : nat * nat) : Prop :=
  fst p < nrows hmax /\ snd p < ncols hmax.

(** Two cells that share a face. *)
Definition adjacent (p q : nat * nat) : Prop :=
  (fst p = fst q /\ (snd p = S (snd q) \/ snd q = S (snd p)))
  \/ (snd p = snd q /\ (fst p = S (fst q) \/ fst q = S (fst p))).

(** A path of face-adjacent cells of the domain, none of them above [lvl]. *)
Inductive level_path (hmax : ndarray Z) (lvl : Z) : nat * nat -> nat * nat -> Prop :=
  | level_path_end p :
      in_domain hmax p -> (elevation hmax p <= lvl)%Z -> level_path hmax lvl p p
  | level_path_step p q r :
      in_domain hmax p -> (elevation hmax p <= lvl)%Z -> adjacent p q ->
      level_path hmax lvl q r -> level_path hmax lvl p r.

(** The two cells are joined, through the un-chunked domain, by a path that
    crosses no cell higher than both of them. *)
Definition mutually_reachable (hmax : ndarray Z) (p q : nat * nat) : Prop :=
  level_path hmax (Z.max (elevation hmax p) (elevation hmax q)) p q.

(** The chunk a cell of the domain falls in. *)
Definition chunk_of (rch cch : list nat) (p : nat * nat) : nat * nat :=
  (fst (locate rch (fst p)), fst (locate cch (snd p))).

(** Boundary continuity as the specification words it: the label map [out]
    gives one label to any two cells of adjacent chunks that are mutually
    reachable. *)
Definition boundary_continuity (hmax : ndarray Z) (rch cch : list nat)
    (out : ndarray Z) : Prop :=
  forall p q,
    adjacent (chunk_of rch cch p) (chunk_of rch cch q) ->
    mutually_reachable hmax p q ->
    get 0%Z out (fst p) (snd p) = get 0%Z out (fst q) (snd q).

(** A schedule runs every task once: it permutes the task numbers. *)
Definition valid_schedule (sched : list nat -> list nat) : Prop :=
  forall l, sched l ≡ₚ l.

(** ** The helpers of the v2 notebook on a store of arrays

    [chunk.copy()] allocates; [out[...] = ...] mutates the array that [out]
    names.  Arrays live in a store, names are locations, and the helpers
    are programs that thread the store; a failing step (a name that is not
    an array of the expected dtype, a boolean index of another shape)
    leaves the store as it was when the step began. *)

Module Store.

Inductive value :=
  | VInt (a : ndarray Z)
  | VBool (a : ndarray bool).

Record prog (A : Type) := Prog { run : gmap nat value -> option A * gmap nat value }.
Arguments Prog {A} run.
Arguments run {A} _ _.

Definition ret {A} (x : A) : prog A := Prog (fun h => (Some x, h)).

Definition bind {A B} (m : prog A) (k : A -> prog B) : prog B :=
  Prog (fun h =>
    match run m h with
    | (Some x, h') => run (k x) h'
    | (None, h') => (None, h')
    end).

Notation "'do' x '<-' m ';' k" := (bind m (fun x => k))
  (at level 10, x name, m at level 100, k at level 200).

Definition raise {A} : prog A := Prog (fun h => (None, h)).

Definition alloc (v : value) : prog nat :=
  Prog (fun h => let l := fresh (dom h) in (Some l, <[l := v]> h)).

Definition load_int (l : nat) : prog (ndarray Z) :=
  Prog (fun h =>
    match h !! l with
    | Some (VInt a) => (Some a, h)
    | _ => (None, h)
    end).

Definition load_bool (l : nat) : prog (ndarray bool) :=
  Prog (fun h =>
    match h !! l with
    | Some (VBool a) => (Some a, h)
    | _ => (None, h)
    end).

Definition store (l : nat) (v : value) : prog unit :=
  Prog (fun h => (Some tt, <[l := v]> h)).

Definition same_shape {A B} (a : ndarray A) (b : ndarray B) : bool :=
  (nrows a =? nrows b) && (ncols a =? ncols b).

(** [x.copy()] *)
Definition copy (x : nat) : prog nat :=
  do a <- load_int x; alloc (VInt a).

(** [x == v], a new boolean array *)
Definition eq_op (x : nat) (v : Z) : prog nat :=
  do a <- load_int x; alloc (VBool (eq_scalar a v)).

(** [x[m]], a new 1-d array *)
Definition getitem (x m : nat) : prog nat :=
  do a <- load_int x;
  do mk <- load_bool m;
  if same_shape a mk then
    let sel := getitem_mask a mk in
    alloc (VInt (NdArray 1 (length sel) sel))
  else raise.

(** [x[m] = vals], in place *)
Definition setitem (x m vals : nat) : prog unit :=
  do a <- load_int x;
  do mk <- load_bool m;
  do v <- load_int vals;
  if same_shape a mk && (length (data v) =? length (filter (fun b => b = true) (data mk)))
  then store x (VInt (setitem_mask a mk (data v)))
  else raise.

(** [x[m] = v] for a scalar [v], in place *)
Definition setitem_scalar (x m : nat) (v : Z) : prog unit :=
  do a <- load_int x;
  do mk <- load_bool m;
  if same_shape a mk then store x (VInt (setitem_mask_scalar a mk v)) else raise.

Definition remove_label (chunk : nat) (label : Z) : prog nat :=
  do out <- copy chunk;
  do t <- eq_op out label;
  do _ <- setitem_scalar out t 0%Z;
  ret out.

Definition compose (fp_chunk sp_chunk mask_chunk : nat) : prog nat :=
  do out <- copy fp_chunk;
  do t <- getitem sp_chunk mask_chunk;
  do _ <- setitem out mask_chunk t;
  ret out.

End Store.

(** A step leaves the store alone, allocates, or writes to the array [x]
    names. *)
Definition touches (x : option nat) (h h' : gmap nat Store.value) : Prop :=
  h' = h
  \/ (exists v, h' = <[fresh (dom h) := v]> h)
  \/ (exists l v, x = Some l /\ h' = <[l := v]> h).

(** Every array of the store [h0] is in [h] with the same values. *)
Definition keeps (h0 h : gmap nat Store.value) : Prop :=
  forall l v, h0 !! l = Some v -> h !! l = Some v.

(** ** The cells around the pipeline

    [compute_mem_mb] sizes the arrays of the cell "Image Geometry
    Definitions"; the cell "Validation" compares the chunked result with
    the reference [ws]. *)

(** [count = reduce(mul, shape, 1)], then [count * 8 / (1024 ** 2)].
    Python's [/] rounds the quotient to the nearest double; the quotient is
    kept exact here (the double is exact too while [count * 8 < 2 ^ 53],
    the divisor being a power of two). *)
Definition compute_mem_mb (shape : list Z) : QArith_base.Q :=
  let count := foldl Z.mul 1%Z shape in
  QArith_base.Qdiv (QArith_base.inject_Z (count * 8)) (QArith_base.inject_Z (1024 ^ 2)).

(** [a.shape], as the list [compute_mem_mb] takes. *)
Definition shape_list {A} (a : ndarray A) : list Z :=
  [Z.of_nat (nrows a); Z.of_nat (ncols a)].

(** The sum of a list of rationals. *)
Definition qsum (l : list QArith_base.Q) : QArith_base.Q :=
  foldr QArith_base.Qplus (QArith_base.inject_Z 0) l.

(** numpy computes [ws_markers.max() + 1] on [int64] values, which wrap:
    the value of the integer [z] as a signed 64-bit integer. *)
Definition wrap_int64 (z : Z) : Z := ((z + 2 ^ 63) mod 2 ^ 64 - 2 ^ 63)%Z.

Module Validation.

(** [error = ~(ws == ws_final).compute()], for two arrays of one shape
    (the pipelines return an array of the shape of [ws]). *)
Definition error (ws ws_final : ndarray Z) : ndarray bool :=
  NdArray (nrows ws) (ncols ws)
    (zip_with (fun x y => negb (x =? y)%Z) (data ws) (data ws_final)).

(** [error_count = error.sum()] *)
Definition error_count (error : ndarray bool) : nat :=
  length (filter (fun b => b = true) (data error)).

End Validation.

(** ** Basic facts about arrays *)

Lemma divmod_cell (c i j : nat) : j < c -> (i * c + j) / c = i /\ (i * c + j) mod c = j.
Proof.
  intros Hj. split.
  - rewrite Nat.div_add_l by lia. rewrite Nat.div_small by lia. lia.
  - rewrite Nat.add_comm, Nat.Div0.mod_add. apply Nat.mod_small. lia.
Qed.

Lemma cell_lt (r c i j : nat) : i < r -> j < c -> i * c + j < r * c.
Proof. intros. nia. Qed.

Lemma tabulate_wf {A} r c (f : nat -> nat -> A) : wf (tabulate r c f).
Proof. unfold wf; simpl. by rewrite length_fmap, length_seq. Qed.

Lemma get_tabulate {A} (d : A) r c f i j :
  i < r -> j < c -> get d (tabulate r c f) i j = f i j.
Proof.
  intros Hi Hj. unfold get; simpl.
  assert (Hb : (i <? r) && (j <? c) = true).
  { apply andb_true_iff; split; apply Nat.ltb_lt; lia. }
  rewrite Hb, list_lookup_fmap, lookup_seq_lt by (by apply cell_lt).
  simpl. by destruct (divmod_cell c i j Hj) as [-> ->].
Qed.

Lemma get_out_of_range {A} (d : A) a i j :
  ~ (i < nrows a /\ j < ncols a) -> get d a i j = d.
Proof.
  intros Hn. unfold get.
  destruct (i <? nrows a) eqn:Hi; [|done].
  destruct (j <? ncols a) eqn:Hj; [|done].
  apply Nat.ltb_lt in Hi, Hj. tauto.
Qed.

Lemma tabulate_ext {A} r c (f g : nat -> nat -> A) :
  (forall i j, i < r -> j < c -> f i j = g i j) -> tabulate r c f = tabulate r c g.
Proof.
  intros Hfg. unfold tabulate. f_equal.
  apply list_eq; intros k. rewrite !list_lookup_fmap.
  destruct (decide (k < r * c)) as [Hk|Hk].
  - rewrite lookup_seq_lt by done. simpl. f_equal.
    assert (c <> 0) by (intros ->; lia).
    apply Hfg.
    + apply Nat.Div0.div_lt_upper_bound. lia.
    + by apply Nat.mod_upper_bound.
  - by rewrite lookup_seq_ge by lia.
Qed.

Lemma tabulate_get {A} (d : A) (a : ndarray A) :
  wf a -> tabulate (nrows a) (ncols a) (get d a) = a.
Proof.
  destruct a as [r c l]; unfold wf; simpl; intros Hl.
  unfold tabulate. f_equal.
  apply list_eq; intros k. rewrite list_lookup_fmap.
  destruct (decide (k < r * c)) as [Hk|Hk].
  - rewrite lookup_seq_lt by done. simpl.
    assert (c <> 0) by (intros ->; lia).
    assert (k / c < r) by (apply Nat.Div0.div_lt_upper_bound; lia).
    assert (k mod c < c) by (by apply Nat.mod_upper_bound).
    unfold get; simpl.
    assert (Hb : (k / c <? r) && (k mod c <? c) = true).
    { apply andb_true_iff; split; apply Nat.ltb_lt; lia. }
    rewrite Hb.
    replace (k / c * c + k mod c) with k by (rewrite (Nat.div_mod_eq k c) at 1; lia).
    destruct (lookup_lt_is_Some_2 l k) as [x Hx]; [lia|]. by rewrite Hx.
  - rewrite lookup_seq_ge by lia. simpl. symmetry. apply lookup_ge_None. lia.
Qed.

Lemma ndarray_ext {A} (d : A) (a b : ndarray A) :
  wf a -> wf b -> shape a = shape b ->
  (forall i j, i < nrows a -> j < ncols a -> get d a i j = get d b i j) -> a = b.
Proof.
  intros Ha Hb Hs Hget. injection Hs as Hr Hc.
  rewrite <- (tabulate_get d a Ha), <- (tabulate_get d b Hb), <- Hr, <- Hc.
  by apply tabulate_ext.
Qed.

(** ** Boolean-mask assignment, cell by cell *)

Lemma put_select_lookup {A} (m : list bool) (out xs : list A) (k : nat) :
  length m = length out -> length xs = length out ->
  put m out (select m xs) !! k = (if default false (m !! k) then xs !! k else out !! k).
Proof.
  revert out xs k.
  induction m as [|b m IH]; intros [|o out] [|x xs] k Hm Hx; simplify_eq/=;
    try (by destruct k).
  destruct b, k as [|k]; simpl; try done; by apply IH.
Qed.

Lemma put_length {A} (m : list bool) (out vals : list A) :
  length (put m out vals) = length out.
Proof.
  revert out vals. induction m as [|b m IH]; intros [|o out] vals; simpl; try done.
  destruct b; [destruct vals|]; simpl; by rewrite IH.
Qed.

Lemma put_scalar_lookup {A} (m : list bool) (out : list A) (v : A) (k : nat) :
  length m = length out ->
  put_scalar m out v !! k = (if default false (m !! k) then Some v else out !! k).
Proof.
  revert out k.
  induction m as [|b m IH]; intros [|o out] k Hm; simplify_eq/=; try (by destruct k).
  destruct k as [|k]; simpl; [by destruct b|by apply IH].
Qed.

Lemma put_scalar_length {A} (m : list bool) (out : list A) (v : A) :
  length (put_scalar m out v) = length out.
Proof.
  revert out. induction m as [|b m IH]; intros [|o out]; simpl; try done. by rewrite IH.
Qed.

Lemma in_range_true (r c i j : nat) : i < r -> j < c -> (i <? r) && (j <? c) = true.
Proof. intros. apply andb_true_iff; split; apply Nat.ltb_lt; lia. Qed.

Lemma get_in_range {A} (d : A) (a : ndarray A) i j :
  i < nrows a -> j < ncols a -> get d a i j = default d (data a !! (i * ncols a + j)).
Proof. intros Hi Hj. unfold get. by rewrite in_range_true. Qed.

Lemma get_data {A} (d : A) (a : ndarray A) i j :
  wf a -> i < nrows a -> j < ncols a -> data a !! (i * ncols a + j) = Some (get d a i j).
Proof.
  intros Hw Hi Hj. rewrite get_in_range by done.
  destruct (lookup_lt_is_Some_2 (data a) (i * ncols a + j)) as [x Hx].
  - rewrite Hw. by apply cell_lt.
  - by rewrite Hx.
Qed.

Lemma get_elem_of {A} (d : A) (a : ndarray A) i j :
  get d a i j = d \/ get d a i j ∈ data a.
Proof.
  unfold get. destruct ((i <? nrows a) && (j <? ncols a)); [|by left].
  destruct (data a !! (i * ncols a + j)) as [x|] eqn:Hx; [|by left].
  right. by eapply list_elem_of_lookup_2.
Qed.

Lemma amap_wf {A B} (f : A -> B) a : wf a -> wf (amap f a).
Proof. unfold wf; simpl. by rewrite length_fmap. Qed.

Lemma get_amap {A B} (d : A) (d' : B) (f : A -> B) a i j :
  wf a -> i < nrows a -> j < ncols a -> get d' (amap f a) i j = f (get d a i j).
Proof.
  intros Hw Hi Hj. rewrite (get_in_range d') by done. simpl.
  by rewrite list_lookup_fmap, (get_data d) by done.
Qed.

Lemma get_gt_zero (a : ndarray Z) i j :
  get false (gt_zero a) i j = (0 <? get 0%Z a i j)%Z.
Proof.
  unfold get, gt_zero; simpl.
  destruct ((i <? nrows a) && (j <? ncols a)); [|done].
  rewrite list_lookup_fmap. by destruct (data a !! _).
Qed.

Lemma get_eq_scalar (a : ndarray Z) (v : Z) i j :
  i < nrows a -> j < ncols a -> wf a ->
  get false (eq_scalar a v) i j = (get 0%Z a i j =? v)%Z.
Proof.
  intros Hi Hj Hw. unfold eq_scalar. by rewrite (get_amap 0%Z).
Qed.

Lemma get_setitem_mask (d : Z) (a b : ndarray Z) (m : ndarray bool) i j :
  wf a -> wf b -> wf m -> shape b = shape a -> shape m = shape a ->
  i < nrows a -> j < ncols a ->
  get d (setitem_mask a m (getitem_mask b m)) i j
  = if get false m i j then get d b i j else get d a i j.
Proof.
  intros Ha Hb Hm Hsb Hsm Hi Hj.
  injection Hsb as Hbr Hbc. injection Hsm as Hmr Hmc.
  rewrite (get_in_range d (setitem_mask _ _ _)) by done. simpl.
  unfold getitem_mask. rewrite put_select_lookup by (unfold wf in *; congruence).
  rewrite (get_in_range false m), (get_in_range d b), (get_in_range d a) by lia.
  rewrite Hmc, Hbc. by destruct (default false _).
Qed.

Lemma setitem_mask_wf {A} (a : ndarray A) m vals : wf a -> wf (setitem_mask a m vals).
Proof. unfold wf; simpl. by rewrite put_length. Qed.

Lemma get_setitem_mask_scalar (d : Z) (a : ndarray Z) (m : ndarray bool) (v : Z) i j :
  wf a -> wf m -> shape m = shape a -> i < nrows a -> j < ncols a ->
  get d (setitem_mask_scalar a m v) i j = if get false m i j then v else get d a i j.
Proof.
  intros Ha Hm Hsm Hi Hj. injection Hsm as Hmr Hmc.
  rewrite (get_in_range d (setitem_mask_scalar _ _ _)) by done. simpl.
  rewrite put_scalar_lookup by (unfold wf in *; congruence).
  rewrite (get_in_range false m), (get_in_range d a) by lia.
  rewrite Hmc. by destruct (default false _).
Qed.

(** ** The halo ring *)

Lemma elem_of_edge_indices (n depth i : nat) :
  i ∈ edge_indices n depth <-> i < n /\ in_ring n depth i = true.
Proof.
  unfold edge_indices, in_ring. rewrite elem_of_app, take_seq, drop_seq, !elem_of_seq.
  rewrite orb_true_iff, Nat.ltb_lt, Nat.leb_le. lia.
Qed.

Lemma zeros_like_wf a : wf a -> wf (zeros_like a).
Proof. unfold wf; simpl. by rewrite length_replicate. Qed.

Lemma get_zeros_like a i j : get 0%Z (zeros_like a) i j = 0%Z.
Proof.
  unfold get; simpl. destruct (_ && _); [|done].
  destruct (replicate _ _ !! _) as [x|] eqn:Hx; [|done].
  by apply lookup_replicate_1 in Hx as [-> _].
Qed.

Lemma get_assign_axis axis ix src a i j :
  i < nrows a -> j < ncols a ->
  get 0%Z (assign_axis axis ix src a) i j
  = if bool_decide ((match axis with 0 => i | _ => j end) ∈ ix) then src i j else get 0%Z a i j.
Proof. intros. unfold assign_axis. by rewrite get_tabulate. Qed.

Lemma bool_decide_edge n depth i :
  i < n -> bool_decide (i ∈ edge_indices n depth) = in_ring n depth i.
Proof.
  intros Hi. destruct (in_ring n depth i) eqn:Hr.
  - apply bool_decide_eq_true. by apply elem_of_edge_indices.
  - apply bool_decide_eq_false. rewrite elem_of_edge_indices. intros [_ ?]. congruence.
Qed.

Lemma get_ring_fill (chunk : ndarray Z) depth (src : nat -> nat -> Z) i j :
  i < nrows chunk -> j < ncols chunk ->
  get 0%Z (foldl (fun overlap ax =>
                    assign_axis ax (edge_indices (axis_len chunk ax) depth) src overlap)
                 (zeros_like chunk) (seq 0 ndim)) i j
  = if on_ring chunk depth i j then src i j else 0%Z.
Proof.
  intros Hi Hj. simpl. rewrite !get_assign_axis by done.
  rewrite get_zeros_like, !bool_decide_edge by done.
  unfold on_ring. by destruct (in_ring (nrows chunk) depth i), (in_ring (ncols chunk) depth j).
Qed.

(** ** The marker builders, cell by cell *)

Lemma ring_fill_shape (chunk : ndarray Z) depth (src : nat -> nat -> Z) :
  let r := foldl (fun overlap ax =>
                    assign_axis ax (edge_indices (axis_len chunk ax) depth) src overlap)
                 (zeros_like chunk) (seq 0 ndim) in
  wf r /\ shape r = shape chunk.
Proof. simpl. split; [apply tabulate_wf|done]. Qed.

Lemma gt_zero_wf a : wf a -> wf (gt_zero a).
Proof. apply amap_wf. Qed.

Lemma eq_scalar_wf a v : wf a -> wf (eq_scalar a v).
Proof. apply amap_wf. Qed.

Lemma direct_build_full_markers_shape labels ws depth :
  wf (DirectSharing.build_full_markers labels ws depth)
  /\ nrows (DirectSharing.build_full_markers labels ws depth) = nrows ws
  /\ ncols (DirectSharing.build_full_markers labels ws depth) = ncols ws.
Proof.
  unfold DirectSharing.build_full_markers, DirectSharing.grab_overlap.
  destruct (ring_fill_shape ws depth (get 0%Z ws)) as [Hw Hs].
  split; [by apply setitem_mask_wf|done].
Qed.

Lemma direct_get_build_full_markers labels ws depth i j :
  wf labels -> shape labels = shape ws -> i < nrows ws -> j < ncols ws ->
  get 0%Z (DirectSharing.build_full_markers labels ws depth) i j
  = if (0 <? get 0%Z labels i j)%Z then get 0%Z labels i j
    else if on_ring ws depth i j then get 0%Z ws i j else 0%Z.
Proof.
  intros Hl Hs Hi Hj.
  unfold DirectSharing.build_full_markers, DirectSharing.grab_overlap.
  destruct (ring_fill_shape ws depth (get 0%Z ws)) as [Hw _].
  rewrite get_setitem_mask; try done.
  - by rewrite get_gt_zero, get_ring_fill.
  - by apply gt_zero_wf.
Qed.

Lemma sentinel_build_full_markers_shape labels depth label :
  wf (SentinelBasinSharing.build_full_markers labels depth label)
  /\ nrows (SentinelBasinSharing.build_full_markers labels depth label) = nrows labels
  /\ ncols (SentinelBasinSharing.build_full_markers labels depth label) = ncols labels.
Proof.
  unfold SentinelBasinSharing.build_full_markers, SentinelBasinSharing.mask_overlap.
  destruct (ring_fill_shape labels depth (fun _ _ => label)) as [Hw Hs].
  split; [by apply setitem_mask_wf|done].
Qed.

Lemma sentinel_get_build_full_markers labels depth label i j :
  wf labels -> i < nrows labels -> j < ncols labels ->
  get 0%Z (SentinelBasinSharing.build_full_markers labels depth label) i j
  = if (0 <? get 0%Z labels i j)%Z then get 0%Z labels i j
    else if on_ring labels depth i j then label else 0%Z.
Proof.
  intros Hl Hi Hj.
  unfold SentinelBasinSharing.build_full_markers, SentinelBasinSharing.mask_overlap.
  destruct (ring_fill_shape labels depth (fun _ _ => label)) as [Hw Hsh].
  rewrite get_setitem_mask; try done.
  - by rewrite get_gt_zero, get_ring_fill.
  - by apply gt_zero_wf.
Qed.

Lemma remove_label_shape chunk label :
  wf chunk ->
  wf (SentinelBasinSharing.remove_label chunk label)
  /\ nrows (SentinelBasinSharing.remove_label chunk label) = nrows chunk
  /\ ncols (SentinelBasinSharing.remove_label chunk label) = ncols chunk.
Proof.
  intros Hw. split; [|done]. unfold wf; simpl. by rewrite put_scalar_length.
Qed.

Lemma get_remove_label chunk label i j :
  wf chunk -> i < nrows chunk -> j < ncols chunk ->
  get 0%Z (SentinelBasinSharing.remove_label chunk label) i j
  = if (get 0%Z chunk i j =? label)%Z then 0%Z else get 0%Z chunk i j.
Proof.
  intros Hw Hi Hj. unfold SentinelBasinSharing.remove_label.
  rewrite get_setitem_mask_scalar; try done.
  - by rewrite get_eq_scalar.
  - by apply eq_scalar_wf.
Qed.

Lemma compose_shape fp sp mask :
  wf fp ->
  wf (SentinelBasinSharing.compose fp sp mask)
  /\ nrows (SentinelBasinSharing.compose fp sp mask) = nrows fp
  /\ ncols (SentinelBasinSharing.compose fp sp mask) = ncols fp.
Proof. intros Hw. split; [by apply setitem_mask_wf|done]. Qed.

Lemma get_compose fp sp mask i j :
  wf fp -> wf sp -> wf mask -> shape sp = shape fp -> shape mask = shape fp ->
  i < nrows fp -> j < ncols fp ->
  get 0%Z (SentinelBasinSharing.compose fp sp mask) i j
  = if get false mask i j then get 0%Z sp i j else get 0%Z fp i j.
Proof. intros. unfold SentinelBasinSharing.compose. by apply get_setitem_mask. Qed.

(** ** Chunk geometry *)

Lemma offset_S ch c b : offset (c :: ch) (S b) = c + offset ch b.
Proof. done. Qed.

Lemma locate_offset ch bi a :
  bi < length ch -> a < nth bi ch 0 -> locate ch (offset ch bi + a) = (bi, a).
Proof.
  revert bi. induction ch as [|c ch IH]; intros bi Hbi Ha; simpl in *; [lia|].
  destruct bi as [|bi].
  - unfold offset; simpl. by rewrite (proj2 (Nat.ltb_lt a c)).
  - rewrite offset_S. rewrite (proj2 (Nat.ltb_ge (c + offset ch bi + a) c)) by lia.
    replace (c + offset ch bi + a - c) with (offset ch bi + a) by lia.
    rewrite IH by (done || lia). done.
Qed.

Lemma locate_spec ch i :
  i < sum_list ch ->
  fst (locate ch i) < length ch
  /\ snd (locate ch i) < nth (fst (locate ch i)) ch 0
  /\ offset ch (fst (locate ch i)) + snd (locate ch i) = i.
Proof.
  revert i. induction ch as [|c ch IH]; intros i Hi; simpl in *; [lia|].
  destruct (i <? c) eqn:Hc.
  - apply Nat.ltb_lt in Hc. simpl. unfold offset; simpl. lia.
  - apply Nat.ltb_ge in Hc. destruct (IH (i - c)) as (H1 & H2 & H3); [lia|].
    destruct (locate ch (i - c)) as [b a]; simpl in *.
    rewrite offset_S. lia.
Qed.

Lemma offset_lt ch bi a :
  bi < length ch -> a < nth bi ch 0 -> offset ch bi + a < sum_list ch.
Proof.
  revert bi. induction ch as [|c ch IH]; intros bi Hbi Ha; simpl in *; [lia|].
  destruct bi as [|bi]; [unfold offset; simpl; lia|].
  rewrite offset_S. specialize (IH bi). lia.
Qed.

Lemma sum_chunk_sizes n cl : sum_list (chunk_sizes n cl) = n.
Proof.
  unfold chunk_sizes. rewrite sum_list_with_app, sum_list_replicate.
  pose proof (Nat.div_mod_eq n cl).
  destruct (n mod cl =? 0) eqn:Hm.
  - apply Nat.eqb_eq in Hm. simpl. lia.
  - simpl. lia.
Qed.

Lemma nth_fmap_lt {A B} (f : A -> B) (l : list A) (i : nat) (d : A) (d' : B) :
  i < length l -> nth i (f <$> l) d' = f (nth i l d).
Proof.
  intros Hi. rewrite !nth_lookup, list_lookup_fmap.
  destruct (lookup_lt_is_Some_2 l i Hi) as [x ->]. done.
Qed.

(** ** Blocks of the dask operations *)

Lemma get_block_tabulate {A} rch cch (F : nat -> nat -> ndarray A) bi bj :
  bi < length rch -> bj < length cch ->
  get_block (DArray rch cch (tabulate (length rch) (length cch) F)) bi bj = F bi bj.
Proof. intros. unfold get_block; simpl. by rewrite get_tabulate. Qed.

Lemma dwf_tabulate {A} rch cch (F : nat -> nat -> ndarray A) :
  (forall bi bj, bi < length rch -> bj < length cch ->
     wf (F bi bj) /\ nrows (F bi bj) = nth bi rch 0 /\ ncols (F bi bj) = nth bj cch 0) ->
  dwf (DArray rch cch (tabulate (length rch) (length cch) F)).
Proof.
  intros HF. unfold dwf; simpl. split; [apply tabulate_wf|]. do 2 (split; [done|]).
  intros bi bj Hbi Hbj. rewrite get_block_tabulate by done. by apply HF.
Qed.

Lemma from_array_dwf {A} (d : A) x chunks : dwf (from_array d x chunks).
Proof.
  unfold from_array. apply dwf_tabulate. intros bi bj _ _.
  split; [apply tabulate_wf|done].
Qed.

Lemma get_compute {A} (d : A) (g : darray A) bi bj a b :
  bi < length (rchunks g) -> bj < length (cchunks g) ->
  a < nth bi (rchunks g) 0 -> b < nth bj (cchunks g) 0 ->
  get d (compute d g) (offset (rchunks g) bi + a) (offset (cchunks g) bj + b)
  = get d (get_block g bi bj) a b.
Proof.
  intros Hbi Hbj Ha Hb. unfold compute.
  rewrite get_tabulate by (by apply offset_lt).
  by rewrite !locate_offset.
Qed.

Lemma compute_shape {A} (d : A) (g : darray A) :
  wf (compute d g)
  /\ nrows (compute d g) = sum_list (rchunks g)
  /\ ncols (compute d g) = sum_list (cchunks g).
Proof. split; [apply tabulate_wf|done]. Qed.

Lemma get_from_array_block {A} (d : A) x chunks bi bj a b :
  let g := from_array d x chunks in
  bi < length (rchunks g) -> bj < length (cchunks g) ->
  a < nth bi (rchunks g) 0 -> b < nth bj (cchunks g) 0 ->
  get d (get_block g bi bj) a b = get d x (offset (rchunks g) bi + a) (offset (cchunks g) bj + b).
Proof.
  simpl. intros Hbi Hbj Ha Hb. unfold from_array.
  rewrite get_block_tabulate by done. by rewrite get_tabulate.
Qed.

Lemma compute_from_array {A} (d : A) x chunks :
  wf x -> compute d (from_array d x chunks) = x.
Proof.
  intros Hw. apply (ndarray_ext d); [apply tabulate_wf|done| |].
  - unfold shape; simpl. by rewrite !sum_chunk_sizes.
  - intros i j Hi Hj. simpl in Hi, Hj.
    set (g := from_array d x chunks).
    destruct (locate_spec (rchunks g) i Hi) as (H1 & H2 & H3).
    destruct (locate_spec (cchunks g) j Hj) as (H4 & H5 & H6).
    rewrite <- H3 at 1. rewrite <- H6 at 1.
    rewrite get_compute by done.
    unfold g. rewrite get_from_array_block by done. fold g. by rewrite H3, H6.
Qed.

Lemma pad_source_inside pol depth G p q :
  depth <= p -> p < nrows G + depth -> depth <= q -> q < ncols G + depth ->
  pad_source pol depth G p q = get 0%Z G (p - depth) (q - depth).
Proof.
  intros H1 H2 H3 H4. destruct pol as [|v]; simpl.
  - f_equal; lia.
  - rewrite (proj2 (Nat.leb_le depth p)), (proj2 (Nat.ltb_lt p _)),
      (proj2 (Nat.leb_le depth q)), (proj2 (Nat.ltb_lt q _)) by done. done.
Qed.

Section Overlap.
Context (g y : darray Z) (depth : nat) (pol : boundary).
Hypothesis Hov : overlap g depth pol = Ok y.

Lemma overlap_geometry : geometry_ok g depth = true.
Proof using Hov. unfold overlap in Hov. by destruct (geometry_ok g depth). Qed.

Lemma overlap_eq :
  y = DArray ((fun n => n + 2 * depth) <$> rchunks g) ((fun n => n + 2 * depth) <$> cchunks g)
        (tabulate (length (rchunks g)) (length (cchunks g)) (fun bi bj =>
           tabulate (nth bi (rchunks g) 0 + 2 * depth) (nth bj (cchunks g) 0 + 2 * depth)
             (fun a b => pad_source pol depth (compute 0%Z g)
                           (offset (rchunks g) bi + a) (offset (cchunks g) bj + b)))).
Proof using Hov. unfold overlap in Hov. destruct (geometry_ok g depth); congruence. Qed.

Lemma overlap_rchunks : rchunks y = (fun n => n + 2 * depth) <$> rchunks g.
Proof using Hov. by rewrite overlap_eq. Qed.

Lemma overlap_cchunks : cchunks y = (fun n => n + 2 * depth) <$> cchunks g.
Proof using Hov. by rewrite overlap_eq. Qed.

Lemma overlap_dwf : dwf y.
Proof using Hov.
  rewrite overlap_eq.
  rewrite <- (length_fmap (fun n => n + 2 * depth) (rchunks g)).
  rewrite <- (length_fmap (fun n => n + 2 * depth) (cchunks g)).
  apply dwf_tabulate. intros bi bj Hbi Hbj. rewrite length_fmap in Hbi, Hbj.
  split; [apply tabulate_wf|]. simpl.
  by rewrite !(nth_fmap_lt _ _ _ 0).
Qed.

Lemma get_overlap_block bi bj a b :
  bi < length (rchunks g) -> bj < length (cchunks g) ->
  a < nth bi (rchunks g) 0 + 2 * depth -> b < nth bj (cchunks g) 0 + 2 * depth ->
  get 0%Z (get_block y bi bj) a b
  = pad_source pol depth (compute 0%Z g) (offset (rchunks g) bi + a) (offset (cchunks g) bj + b).
Proof using Hov.
  intros Hbi Hbj Ha Hb. rewrite overlap_eq.
  unfold get_block; simpl. rewrite get_tabulate by done. by rewrite get_tabulate.
Qed.

(** A core cell of a padded block holds the cell of the domain it covers. *)
Lemma get_overlap_core bi bj a b :
  bi < length (rchunks g) -> bj < length (cchunks g) ->
  a < nth bi (rchunks g) 0 -> b < nth bj (cchunks g) 0 ->
  get 0%Z (get_block y bi bj) (a + depth) (b + depth)
  = get 0%Z (compute 0%Z g) (offset (rchunks g) bi + a) (offset (cchunks g) bj + b).
Proof using Hov.
  intros Hbi Hbj Ha Hb. rewrite get_overlap_block by lia.
  pose proof (offset_lt _ _ _ Hbi Ha). pose proof (offset_lt _ _ _ Hbj Hb).
  rewrite pad_source_inside by (simpl; lia). f_equal; lia.
Qed.
End Overlap.

Lemma overlap_ok g depth pol :
  geometry_ok g depth = true -> exists y, overlap g depth pol = Ok y.
Proof. intros Hg. unfold overlap. rewrite Hg. eauto. Qed.

Lemma trim_block_shape {A} (d : A) depth b :
  wf (trim_block d depth b)
  /\ nrows (trim_block d depth b) = nrows b - 2 * depth
  /\ ncols (trim_block d depth b) = ncols b - 2 * depth.
Proof. split; [apply tabulate_wf|done]. Qed.

Lemma get_trim_block {A} (d : A) depth b i j :
  i < nrows b - 2 * depth -> j < ncols b - 2 * depth ->
  get d (trim_block d depth b) i j = get d b (i + depth) (j + depth).
Proof. intros. unfold trim_block. by rewrite get_tabulate. Qed.

Lemma get_block_amap {A B} (f : ndarray A -> ndarray B) (g : darray A) rch cch bi bj :
  dwf g -> bi < length (rchunks g) -> bj < length (cchunks g) ->
  get_block (DArray rch cch (amap f (grid g))) bi bj = f (get_block g bi bj).
Proof.
  intros (Hw & Hr & Hc & _) Hbi Hbj. unfold get_block; simpl.
  apply get_amap; (done || lia).
Qed.

Lemma trim_overlap_rchunks {A} (d : A) (g : darray A) depth :
  rchunks (trim_overlap d g depth) = (fun n => n - 2 * depth) <$> rchunks g.
Proof. done. Qed.

Lemma trim_overlap_cchunks {A} (d : A) (g : darray A) depth :
  cchunks (trim_overlap d g depth) = (fun n => n - 2 * depth) <$> cchunks g.
Proof. done. Qed.

Lemma trim_overlap_dwf {A} (d : A) (g : darray A) depth :
  dwf g -> dwf (trim_overlap d g depth).
Proof.
  intros Hg. pose proof Hg as (Hw & Hr & Hc & Hb).
  unfold dwf, trim_overlap; simpl. rewrite !length_fmap.
  split; [by apply amap_wf|]. do 2 (split; [done|]).
  intros bi bj Hbi Hbj. rewrite get_block_amap by done.
  destruct (Hb bi bj Hbi Hbj) as (_ & H1 & H2).
  split; [apply tabulate_wf|]. simpl.
  by rewrite !(nth_fmap_lt _ _ _ 0), H1, H2.
Qed.

Lemma get_trim_overlap_block {A} (d : A) (g : darray A) depth bi bj a b :
  dwf g -> bi < length (rchunks g) -> bj < length (cchunks g) ->
  a < nth bi (rchunks g) 0 - 2 * depth -> b < nth bj (cchunks g) 0 - 2 * depth ->
  get d (get_block (trim_overlap d g depth) bi bj) a b
  = get d (get_block g bi bj) (a + depth) (b + depth).
Proof.
  intros Hg Hbi Hbj Ha Hb. unfold trim_overlap. rewrite get_block_amap by done.
  destruct Hg as (_ & _ & _ & Hblk). destruct (Hblk bi bj Hbi Hbj) as (_ & H1 & H2).
  apply get_trim_block; lia.
Qed.

Lemma fmap_sub_add (depth : nat) (l : list nat) :
  (fun n => n - 2 * depth) <$> ((fun n => n + 2 * depth) <$> l) = l.
Proof.
  rewrite <- list_fmap_compose. rewrite <- (list_fmap_id l) at 2.
  apply list_fmap_ext. intros _ n _. simpl. lia.
Qed.

Lemma darray_ext {A} (d : A) (g h : darray A) :
  dwf g -> dwf h -> rchunks g = rchunks h -> cchunks g = cchunks h ->
  (forall bi bj a b, bi < length (rchunks g) -> bj < length (cchunks g) ->
     a < nth bi (rchunks g) 0 -> b < nth bj (cchunks g) 0 ->
     get d (get_block g bi bj) a b = get d (get_block h bi bj) a b) ->
  g = h.
Proof.
  intros (Hgw & Hgr & Hgc & Hgb) (Hhw & Hhr & Hhc & Hhb) Hr Hc Hcell.
  destruct g as [rg cg gg], h as [rh ch gh]; simpl in *; subst rh ch.
  f_equal. apply (ndarray_ext empty_block); [done|done| |].
  - unfold shape. congruence.
  - intros bi bj Hbi Hbj. rewrite Hgr in Hbi. rewrite Hgc in Hbj.
    destruct (Hgb bi bj Hbi Hbj) as (Hw1 & Hr1 & Hc1).
    destruct (Hhb bi bj Hbi Hbj) as (Hw2 & Hr2 & Hc2).
    unfold get_block in *; simpl in *.
    apply (ndarray_ext d); [done|done|unfold shape; congruence|].
    intros a b Ha Hb. apply Hcell; (done || lia).
Qed.

(** ** Trimming after an exchange *)

(** C5 (Trim-after-exchange identity).  For every chunked array [x] and
    every halo depth within the geometry invariant, exchanging a halo of
    that depth (under either boundary policy) succeeds, and trimming it
    again gives back [x]: the same chunks, the same block shapes and the
    same value in every cell. *)
Theorem trim_after_exchange (x : darray Z) (depth : nat) (pol : boundary) :
  dwf x -> geometry_ok x depth = true ->
  exists y, overlap x depth pol = Ok y /\ trim_overlap 0%Z y depth = x.
Proof.
  intros Hx Hg. destruct (overlap_ok x depth pol Hg) as [y Hy].
  exists y. split; [done|].
  pose proof (overlap_dwf _ _ _ _ Hy) as Hyw.
  pose proof (overlap_rchunks _ _ _ _ Hy) as Hr.
  pose proof (overlap_cchunks _ _ _ _ Hy) as Hc.
  assert (Hr' : rchunks (trim_overlap 0%Z y depth) = rchunks x).
  { rewrite trim_overlap_rchunks, Hr. apply fmap_sub_add. }
  assert (Hc' : cchunks (trim_overlap 0%Z y depth) = cchunks x).
  { rewrite trim_overlap_cchunks, Hc. apply fmap_sub_add. }
  apply (darray_ext 0%Z); try done.
  - by apply trim_overlap_dwf.
  - rewrite Hr', Hc'. intros bi bj a b Hbi Hbj Ha Hb.
    rewrite get_trim_overlap_block; try done.
    + rewrite (get_overlap_core _ _ _ _ Hy) by done. by apply get_compute.
    + rewrite Hr, length_fmap. done.
    + rewrite Hc, length_fmap. done.
    + rewrite Hr, (nth_fmap_lt _ _ _ 0) by done. lia.
    + rewrite Hc, (nth_fmap_lt _ _ _ 0) by done. lia.
Qed.

Lemma trim_after_exchange_witness :
  let x := from_array 0%Z (NdArray 2 4 [1; 0; 0; 2; 0; 0; 3; 0]%Z) (2, 2) in
  exists y, overlap x 1 (Constant 9%Z) = Ok y /\ trim_overlap 0%Z y 1 = x.
Proof.
  apply trim_after_exchange; [apply from_array_dwf|reflexivity].
Defined.

(** ** Running a task on every block *)

Lemma rmapM_ok {A B} (f : A -> result B) (l : list A) (l' : list B) :
  rmapM f l = Ok l' ->
  length l' = length l
  /\ forall k x, l !! k = Some x -> exists y, f x = Ok y /\ l' !! k = Some y.
Proof.
  revert l'. induction l as [|x l IH]; intros l' Hm; simpl in Hm.
  - injection Hm as <-. split; [done|]. intros k x [=].
  - destruct (f x) as [y|e] eqn:Hfx; simpl in Hm; [|done].
    destruct (rmapM f l) as [ys|e] eqn:Hl; simpl in Hm; [|done].
    injection Hm as <-. destruct (IH ys eq_refl) as [Hlen Hk].
    split; [simpl; by rewrite Hlen|].
    intros [|k] x' Hx'; simpl in *; [|by apply Hk].
    injection Hx' as <-. eauto.
Qed.

Lemma rmapM_pure {A B} (f : A -> B) (l : list A) :
  rmapM (fun x => Ok (f x)) l = Ok (f <$> l).
Proof. induction l as [|x l IH]; simpl; [done|]. by rewrite IH. Qed.

Lemma rmapM_err {A B} (f : A -> result B) (l : list A) (e : error) :
  rmapM f l = Err e -> exists k x, l !! k = Some x /\ f x = Err e.
Proof.
  induction l as [|x l IH]; simpl; [done|].
  destruct (f x) as [y|e'] eqn:Hfx; simpl.
  - destruct (rmapM f l) as [ys|e'] eqn:Hl; simpl; [done|].
    intros [= ->]. destruct (IH eq_refl) as (k & x' & Hk & Hx').
    exists (S k), x'. done.
  - intros [= ->]. exists 0, x. done.
Qed.

Lemma rmapM_fails {A B} (f : A -> result B) (l : list A) (e0 : error) k x :
  (forall x e, f x = Err e -> e = e0) ->
  l !! k = Some x -> f x = Err e0 -> rmapM f l = Err e0.
Proof.
  intros Huniq. revert k. induction l as [|x' l IH]; intros k Hk Hfx; [done|].
  simpl. destruct (f x') as [y|e] eqn:Hfx'; simpl.
  - destruct k as [|k]; simpl in Hk; [congruence|].
    by rewrite (IH k).
  - by rewrite (Huniq _ _ Hfx').
Qed.

Lemma omap_id_Some {A} (l : list A) : omap id (Some <$> l) = l.
Proof. induction l as [|x l IH]; [done|]. cbn. by f_equal. Qed.

Lemma run_tasks_ok {X Y} (f : X -> result Y) inputs ys order slots :
  rmapM f inputs = Ok ys -> length slots = length inputs ->
  exists slots',
    run_tasks f inputs order slots = Ok slots'
    /\ length slots' = length inputs
    /\ forall k, slots' !! k
                 = if bool_decide (k ∈ order /\ k < length inputs)
                   then Some (ys !! k) else slots !! k.
Proof.
  intros Hm. destruct (rmapM_ok _ _ _ Hm) as [Hlen Hys].
  revert slots. induction order as [|k order IH]; intros slots Hsl; cbn [run_tasks].
  - exists slots. split; [done|]. split; [done|]. intros k.
    rewrite bool_decide_eq_false_2; [done|]. intros [H _]. by apply elem_of_nil in H.
  - destruct (inputs !! k) as [x|] eqn:Hx.
    + destruct (Hys k x Hx) as (y & Hfx & Hy). rewrite Hfx. cbn [rbind].
      destruct (IH (<[k := Some y]> slots)) as (slots' & Hrun & Hlen' & Hlook).
      { by rewrite length_insert. }
      exists slots'. split; [done|]. split; [done|]. intros k'.
      rewrite Hlook. apply lookup_lt_Some in Hx.
      destruct (decide (k' ∈ order /\ k' < length inputs)) as [Hin|Hin].
      * rewrite !bool_decide_eq_true_2; [done| |done]. split; [|tauto].
        apply elem_of_cons. tauto.
      * rewrite (bool_decide_eq_false_2 _ Hin).
        destruct (decide (k = k')) as [->|Hne].
        -- rewrite bool_decide_eq_true_2.
           ++ rewrite list_lookup_insert_eq by lia. by rewrite Hy.
           ++ split; [apply elem_of_cons; tauto|done].
        -- rewrite list_lookup_insert_ne by done.
           rewrite bool_decide_eq_false_2; [done|].
           intros [H1 H2]. apply elem_of_cons in H1 as [->|H1]; tauto.
    + destruct (IH slots Hsl) as (slots' & Hrun & Hlen' & Hlook).
      exists slots'. split; [done|]. split; [done|]. intros k'.
      rewrite Hlook. apply lookup_ge_None in Hx.
      destruct (decide (k' ∈ order /\ k' < length inputs)) as [Hin|Hin].
      * rewrite !bool_decide_eq_true_2; [done| |done]. split; [|tauto].
        apply elem_of_cons. tauto.
      * rewrite !bool_decide_eq_false_2; [done| |done].
        intros [H1 H2]. apply elem_of_cons in H1. destruct H1 as [->|H1]; [lia|tauto].
Qed.

Lemma run_tasks_fails {X Y} (f : X -> result Y) inputs order slots (e0 : error) k x :
  (forall x e, f x = Err e -> e = e0) ->
  k ∈ order -> inputs !! k = Some x -> f x = Err e0 ->
  run_tasks f inputs order slots = Err e0.
Proof.
  intros Huniq Hin Hx Hfx. revert slots.
  induction order as [|k' order IH]; intros slots; [by apply elem_of_nil in Hin|].
  simpl. destruct (inputs !! k') as [x'|] eqn:Hx'.
  - destruct (f x') as [y|e] eqn:Hfx'; simpl.
    + apply IH. apply elem_of_cons in Hin as [->|Hin]; [congruence|done].
    + by rewrite (Huniq _ _ Hfx').
  - apply IH. apply elem_of_cons in Hin as [->|Hin]; [congruence|done].
Qed.

(** The order in which the tasks run makes no difference, as long as every
    task runs once and all tasks fail the same way. *)
Lemma scheduled_sequential {X Y} (sched : list nat -> list nat) (f : X -> result Y)
    (inputs : list X) (e0 : error) :
  (forall l, sched l ≡ₚ l) ->
  (forall x e, f x = Err e -> e = e0) ->
  scheduled sched X Y f inputs = sequential X Y f inputs.
Proof.
  intros Hperm Huniq. unfold scheduled, sequential.
  set (n := length inputs). set (order := sched (seq 0 n)).
  assert (Hord : forall k, k ∈ order <-> k < n).
  { intros k. unfold order. rewrite (Hperm (seq 0 n)), elem_of_seq. lia. }
  destruct (rmapM f inputs) as [ys|e] eqn:Hm.
  - destruct (run_tasks_ok f inputs ys order (replicate n None) Hm)
      as (slots' & Hrun & Hlen & Hlook); [by rewrite length_replicate|].
    rewrite Hrun. simpl. f_equal.
    destruct (rmapM_ok _ _ _ Hm) as [Hlen' _].
    assert (slots' = Some <$> ys) as ->; [|apply omap_id_Some].
    apply list_eq. intros k. rewrite Hlook, list_lookup_fmap.
    destruct (decide (k < n)) as [Hk|Hk].
    + rewrite bool_decide_eq_true_2 by (split; [by apply Hord|done]).
      destruct (lookup_lt_is_Some_2 ys k) as [y ->]; [unfold n in *; lia|]. done.
    + rewrite bool_decide_eq_false_2 by tauto.
      rewrite (proj1 (lookup_replicate_None n None k)) by lia.
      rewrite (lookup_ge_None_2 ys) by (unfold n in *; lia). done.
  - destruct (rmapM_err _ _ _ Hm) as (k & x & Hk & Hfx).
    pose proof (Huniq _ _ Hfx) as ->.
    rewrite (run_tasks_fails f inputs order _ e0 k x); try done.
    apply Hord. by apply lookup_lt_Some in Hk.
Qed.

(** ** The flood *)

Lemma pop_min_None q : pop_min q = None -> q = [].
Proof.
  destruct q as [|x q]; [done|]. simpl.
  destruct (pop_min q) as [[y r]|]; [|done]. by destruct (entry_leb x y).
Qed.

Lemma pop_min_spec q e q' :
  pop_min q = Some (e, q') ->
  e ∈ q /\ (forall x, x ∈ q' -> x ∈ q) /\ length q = S (length q').
Proof.
  revert e q'. induction q as [|x q IH]; intros e q' H; simpl in H; [done|].
  destruct (pop_min q) as [[y r]|] eqn:Hq.
  - destruct (IH y r eq_refl) as (H1 & H2 & H3).
    destruct (entry_leb x y); injection H as <- <-.
    + split; [by left|]. split; [by right|done].
    + split; [by right|]. split; [|simpl; lia].
      intros z Hz. apply elem_of_cons in Hz as [->|Hz]; [by left|right; auto].
  - injection H as <- <-. apply pop_min_None in Hq as ->.
    split; [by left|]. split; [|done]. intros z Hz. by apply elem_of_nil in Hz.
Qed.

Lemma set_shape {A} (a : ndarray A) i j v : shape (set a i j v) = shape a.
Proof. unfold set. by destruct (_ && _). Qed.

Lemma set_wf {A} (a : ndarray A) i j v : wf a -> wf (set a i j v).
Proof.
  unfold set. destruct (_ && _); [|done]. unfold wf; simpl. by rewrite length_insert.
Qed.

Lemma data_set {A} (a : ndarray A) i j v :
  i < nrows a -> j < ncols a -> data (set a i j v) = <[i * ncols a + j := v]> (data a).
Proof. intros Hi Hj. unfold set. by rewrite in_range_true. Qed.

Lemma get_set_eq {A} (d : A) (a : ndarray A) i j v :
  wf a -> i < nrows a -> j < ncols a -> get d (set a i j v) i j = v.
Proof.
  intros Hw Hi Hj. unfold set. rewrite in_range_true by done.
  rewrite get_in_range by done. simpl.
  rewrite list_lookup_insert_eq; [done|]. rewrite Hw. by apply cell_lt.
Qed.

Lemma cell_inj (c i j i' j' : nat) :
  j < c -> j' < c -> i * c + j = i' * c + j' -> i = i' /\ j = j'.
Proof.
  intros Hj Hj' Heq.
  destruct (divmod_cell c i j Hj) as [H1 H2].
  destruct (divmod_cell c i' j' Hj') as [H3 H4].
  rewrite Heq in H1, H2. split; congruence.
Qed.

Lemma get_set_ne {A} (d : A) (a : ndarray A) i j i' j' v :
  (i', j') <> (i, j) -> get d (set a i j v) i' j' = get d a i' j'.
Proof.
  intros Hne. unfold set.
  destruct ((i <? nrows a) && (j <? ncols a)) eqn:Hin; [|done].
  apply andb_true_iff in Hin as [Hi Hj]. apply Nat.ltb_lt in Hi, Hj.
  unfold get; simpl.
  destruct ((i' <? nrows a) && (j' <? ncols a)) eqn:Hin'; [|done].
  apply andb_true_iff in Hin' as [Hi' Hj']. apply Nat.ltb_lt in Hi', Hj'.
  rewrite list_lookup_insert_ne; [done|].
  intros Heq. apply cell_inj in Heq as [-> ->]; done.
Qed.

Lemma elem_of_insert_inv {A} (l : list A) k x y : y ∈ <[k := x]> l -> y = x \/ y ∈ l.
Proof.
  intros Hy. apply list_elem_of_lookup in Hy as [i Hi].
  apply list_lookup_insert_Some in Hi as [(-> & -> & _)|[_ Hi]]; [by left|].
  right. by eapply list_elem_of_lookup_2.
Qed.

Lemma zeros_insert (l : list Z) k v :
  l !! k = Some 0%Z -> v <> 0%Z ->
  S (length (filter (fun x => x = 0%Z) (<[k := v]> l))) = length (filter (fun x => x = 0%Z) l).
Proof.
  intros Hk Hv. pose proof (lookup_lt_Some _ _ _ Hk) as Hlt.
  rewrite insert_take_drop by done.
  rewrite <- (take_drop_middle l k 0%Z Hk) at 3.
  rewrite !filter_app, !length_app.
  rewrite filter_cons_False by done. rewrite filter_cons_True by done. simpl. lia.
Qed.

Lemma neighbours_in_range R C i j n :
  i < R -> j < C -> n ∈ neighbours R C i j -> fst n < R /\ snd n < C.
Proof.
  intros Hi Hj. unfold neighbours. rewrite !elem_of_app.
  destruct (0 <? i) eqn:H1, (0 <? j) eqn:H2, (j + 1 <? C) eqn:H3, (i + 1 <? R) eqn:H4;
    rewrite ?list_elem_of_singleton, ?elem_of_nil;
    try apply Nat.ltb_lt in H1; try apply Nat.ltb_lt in H2;
    try apply Nat.ltb_lt in H3; try apply Nat.ltb_lt in H4;
    intros Hn; repeat (destruct Hn as [Hn|Hn]); try done;
    try (rewrite Hn; simpl; lia).
Qed.

Section Flood.
Context (m elev : ndarray Z) (mask : option (ndarray bool)).

Lemma visit_inv lbl st n :
  flood_inv m st -> lbl <> 0%Z -> (lbl = 0%Z \/ lbl ∈ data m) ->
  fst n < nrows m -> snd n < ncols m ->
  flood_inv m (visit elev mask lbl st n)
  /\ flood_measure (visit elev mask lbl st n) <= flood_measure st.
Proof.
  intros (Hw & Hs & Hkeep & Hval & Hq) Hl Hlv Hi Hj.
  destruct n as [i j]; simpl in Hi, Hj. unfold visit.
  destruct ((get 0%Z (fs_out st) i j =? 0)%Z && mask_ok mask i j) eqn:Hc;
    [|by split].
  apply andb_true_iff in Hc as [Hz _]. apply Z.eqb_eq in Hz.
  injection Hs as Hr Hcn.
  assert (Hk0 : data (fs_out st) !! (i * ncols (fs_out st) + j) = Some 0%Z).
  { rewrite <- Hz. apply get_data; (done || lia). }
  split; [split; [|split; [|split; [|split]]]|]; simpl.
  - by apply set_wf.
  - rewrite set_shape. unfold shape. congruence.
  - intros k x Hk Hx. rewrite data_set by lia.
    rewrite list_lookup_insert_ne; [by apply Hkeep|].
    intros <-. specialize (Hkeep _ _ Hk Hx). congruence.
  - intros v Hv. rewrite data_set in Hv by lia.
    apply elem_of_insert_inv in Hv as [->|Hv]; [done|by apply Hval].
  - intros e He. apply elem_of_app in He as [He|He].
    + destruct (Hq e He) as (H1 & H2 & H3). do 2 (split; [done|]).
      destruct (decide ((e_row e, e_col e) = (i, j))) as [Heq|Hne].
      * injection Heq as -> ->. rewrite get_set_eq by (done || lia). done.
      * by rewrite get_set_ne.
    + apply list_elem_of_singleton in He as ->. simpl.
      do 2 (split; [done|]). rewrite get_set_eq by (done || lia). done.
  - unfold flood_measure; simpl. rewrite length_app, data_set by lia. simpl.
    pose proof (zeros_insert _ _ lbl Hk0 Hl). lia.
Qed.

Lemma visit_all_inv lbl ns st :
  flood_inv m st -> lbl <> 0%Z -> (lbl = 0%Z \/ lbl ∈ data m) ->
  (forall n, n ∈ ns -> fst n < nrows m /\ snd n < ncols m) ->
  flood_inv m (foldl (visit elev mask lbl) st ns)
  /\ flood_measure (foldl (visit elev mask lbl) st ns) <= flood_measure st.
Proof.
  intros Hinv Hl Hlv. revert st Hinv.
  induction ns as [|n ns IH]; intros st Hinv Hns; simpl; [by split|].
  destruct (Hns n) as [Hi Hj]; [by left|].
  destruct (visit_inv lbl st n Hinv Hl Hlv Hi Hj) as [Hinv' Hle].
  destruct (IH _ Hinv') as [Hinv'' Hle']; [intros; apply Hns; by right|].
  split; [done|lia].
Qed.

Lemma flood_step_inv st st' :
  flood_inv m st -> flood_step elev mask st = Some st' ->
  flood_inv m st' /\ flood_measure st' < flood_measure st.
Proof.
  intros Hinv Hstep. unfold flood_step in Hstep.
  destruct (pop_min (fs_queue st)) as [[e q']|] eqn:Hpop; [|done].
  injection Hstep as <-.
  destruct (pop_min_spec _ _ _ Hpop) as (He & Hsub & Hlen).
  pose proof Hinv as (Hw & Hs & Hkeep & Hval & Hq).
  destruct (Hq e He) as (Hi & Hj & Hnz).
  injection Hs as Hr Hc.
  destruct (visit_all_inv (get 0%Z (fs_out st) (e_row e) (e_col e))
              (neighbours (nrows (fs_out st)) (ncols (fs_out st)) (e_row e) (e_col e))
              (FloodState (fs_out st) q' (fs_next st))) as [Hinv' Hle].
  - split; [done|]. split; [unfold shape; simpl; congruence|].
    do 2 (split; [done|]). intros e' He'. apply Hq. by apply Hsub.
  - done.
  - destruct (get_elem_of 0%Z (fs_out st) (e_row e) (e_col e)) as [->|Hin];
      [by left|by apply Hval].
  - intros n Hn. rewrite <- Hr, <- Hc. eapply neighbours_in_range; [| |done]; lia.
  - split; [done|]. unfold flood_measure in *; simpl in *. lia.
Qed.

Lemma flood_inv_preserved fuel st :
  flood_inv m st -> flood_inv m (flood fuel elev mask st).
Proof.
  revert st. induction fuel as [|fuel IH]; intros st Hinv; simpl; [done|].
  destruct (flood_step elev mask st) as [st'|] eqn:Hstep; [|done].
  apply IH. by eapply flood_step_inv.
Qed.

Lemma flood_drains fuel st :
  flood_inv m st -> flood_measure st <= fuel ->
  fs_queue (flood fuel elev mask st) = [].
Proof.
  revert st. induction fuel as [|fuel IH]; intros st Hinv Hfuel; simpl.
  - unfold flood_measure in Hfuel. destruct (fs_queue st); [done|simpl in Hfuel; lia].
  - destruct (flood_step elev mask st) as [st'|] eqn:Hstep.
    + destruct (flood_step_inv _ _ Hinv Hstep). apply IH; [done|lia].
    + unfold flood_step in Hstep.
      destruct (pop_min (fs_queue st)) as [[e q']|] eqn:Hpop; [done|].
      by apply pop_min_None.
Qed.
End Flood.

Lemma elem_of_cells R C p : p ∈ cells R C -> fst p < R /\ snd p < C.
Proof.
  unfold cells. intros Hp. apply list_elem_of_fmap in Hp as (k & -> & Hk).
  apply elem_of_seq in Hk. simpl.
  assert (C <> 0) by (intros ->; lia).
  split; [apply Nat.Div0.div_lt_upper_bound; lia|by apply Nat.mod_upper_bound].
Qed.

Lemma cell_in_cells R C i j : i < R -> j < C -> (i, j) ∈ cells R C.
Proof.
  intros Hi Hj. unfold cells. apply list_elem_of_fmap.
  exists (i * C + j). destruct (divmod_cell C i j Hj) as [-> ->].
  split; [done|]. apply elem_of_seq. pose proof (cell_lt R C i j Hi Hj). lia.
Qed.

Lemma seeds_inv elev m :
  wf m -> flood_inv m (FloodState m (seeds elev m) (length (seeds elev m))).
Proof.
  intros Hw. split; [done|]. split; [done|]. split; [done|]. split; [by right|].
  simpl. intros e He. unfold seeds in He.
  apply elem_of_lookup_imap in He as (n & p & -> & Hp). simpl.
  apply list_elem_of_lookup_2 in Hp. unfold seed_cells in Hp.
  apply list_elem_of_filter in Hp as [Hnz Hp].
  apply elem_of_cells in Hp as [? ?]. done.
Qed.

Lemma seeds_nil elev m : seeds elev m = [] <-> seed_cells m = [].
Proof.
  unfold seeds. split; intros H.
  - apply length_zero_iff_nil. apply (f_equal length) in H.
    by rewrite length_imap in H.
  - by rewrite H.
Qed.

(** The local watershed fails exactly when no marker is nonzero, and only
    with [EmptyMarkers]. *)
Lemma watershed_empty elev m mask :
  (forall i j, get 0%Z m i j = 0%Z) -> watershed elev m mask = Err EmptyMarkers.
Proof.
  intros Hz. unfold watershed.
  assert (seeds elev m = []) as ->; [|done].
  apply seeds_nil. unfold seed_cells.
  induction (cells (nrows m) (ncols m)) as [|p l IH]; [done|].
  rewrite filter_cons_False; [done|]. intros Hp. by apply Hp.
Qed.

Lemma watershed_seeded elev m mask i j :
  i < nrows m -> j < ncols m -> get 0%Z m i j <> 0%Z ->
  exists out, watershed elev m mask = Ok out.
Proof.
  intros Hi Hj Hnz. unfold watershed.
  destruct (seeds elev m) as [|e q] eqn:Hs; [|eauto].
  apply seeds_nil in Hs.
  assert ((i, j) ∈ seed_cells m) as Hin.
  { apply list_elem_of_filter. split; [done|by apply cell_in_cells]. }
  rewrite Hs in Hin. by apply elem_of_nil in Hin.
Qed.

Lemma watershed_err elev m mask e : watershed elev m mask = Err e -> e = EmptyMarkers.
Proof. unfold watershed. destruct (seeds elev m); congruence. Qed.

Lemma watershed_unfold elev m mask out :
  watershed elev m mask = Ok out ->
  out = fs_out (flood (length (seeds elev m) + nrows m * ncols m) elev mask
                  (FloodState m (seeds elev m) (length (seeds elev m)))).
Proof. unfold watershed. destruct (seeds elev m); congruence. Qed.

Lemma seeds_measure elev m :
  wf m ->
  flood_measure (FloodState m (seeds elev m) (length (seeds elev m)))
  <= length (seeds elev m) + nrows m * ncols m.
Proof.
  intros Hw. unfold flood_measure; cbn [fs_queue fs_out].
  pose proof (length_filter (fun v => v = 0%Z) (data m)) as H. rewrite Hw in H. lia.
Qed.

Lemma watershed_inv elev m mask out :
  wf m -> watershed elev m mask = Ok out ->
  exists st, out = fs_out st /\ flood_inv m st /\ fs_queue st = [].
Proof.
  intros Hw Hws. apply watershed_unfold in Hws.
  eexists. split; [exact Hws|].
  pose proof (seeds_inv elev m Hw) as Hinv. split.
  - by apply flood_inv_preserved.
  - eapply flood_drains; [done|]. by apply seeds_measure.
Qed.

(** The flood empties its queue: the fuel of [watershed] is enough. *)
Lemma watershed_drains elev m mask :
  wf m ->
  let q := seeds elev m in
  fs_queue (flood (length q + nrows m * ncols m) elev mask (FloodState m q (length q))) = [].
Proof.
  intros Hw q. eapply flood_drains; [by apply seeds_inv|]. by apply seeds_measure.
Qed.

Lemma watershed_shape elev m mask out :
  wf m -> watershed elev m mask = Ok out -> wf out /\ shape out = shape m.
Proof.
  intros Hw Hws. destruct (watershed_inv _ _ _ _ Hw Hws) as (st & -> & Hinv & _).
  destruct Hinv as (H1 & H2 & _). done.
Qed.

(** Every marked cell keeps its marker. *)
Lemma watershed_keeps_markers elev m mask out i j :
  wf m -> watershed elev m mask = Ok out ->
  get 0%Z m i j <> 0%Z -> get 0%Z out i j = get 0%Z m i j.
Proof.
  intros Hw Hws Hnz. destruct (watershed_inv _ _ _ _ Hw Hws) as (st & -> & Hinv & _).
  destruct Hinv as (H1 & H2 & Hkeep & _). injection H2 as Hr Hc.
  destruct (decide (i < nrows m /\ j < ncols m)) as [[Hi Hj]|Hout].
  - rewrite (get_in_range _ (fs_out st)) by lia.
    rewrite Hc. erewrite Hkeep; [done| |done]. by apply get_data.
  - rewrite (get_out_of_range _ m) in Hnz by done. done.
Qed.

(** Every label of the result is [0] or one of the markers. *)
Lemma watershed_values elev m mask out v :
  wf m -> watershed elev m mask = Ok out -> v ∈ data out -> v = 0%Z \/ v ∈ data m.
Proof.
  intros Hw Hws Hv. destruct (watershed_inv _ _ _ _ Hw Hws) as (st & -> & Hinv & _).
  destruct Hinv as (_ & _ & _ & Hval & _). by apply Hval.
Qed.

(** ** Blocks of [map_blocks] *)

Lemma rmapM_grid {X Y} (f : X -> result Y) (xs : ndarray X) (bs : list Y) (dx : X) (dy : Y) :
  wf xs -> rmapM f (data xs) = Ok bs ->
  wf (NdArray (nrows xs) (ncols xs) bs)
  /\ forall i j, i < nrows xs -> j < ncols xs ->
       f (get dx xs i j) = Ok (get dy (NdArray (nrows xs) (ncols xs) bs) i j).
Proof.
  intros Hw Hm. destruct (rmapM_ok _ _ _ Hm) as [Hlen Hk].
  split; [unfold wf in *; simpl; congruence|].
  intros i j Hi Hj.
  destruct (Hk _ _ (get_data dx xs i j Hw Hi Hj)) as (y & Hfx & Hy).
  rewrite Hfx. f_equal. rewrite get_in_range by done. simpl. by rewrite Hy.
Qed.

Lemma zip_grid {X1 X2} (a : ndarray X1) (b : ndarray X2) (d1 : X1) (d2 : X2) :
  wf a -> wf b -> shape b = shape a ->
  let ab := NdArray (nrows a) (ncols a) (zip (data a) (data b)) in
  wf ab /\ forall i j, i < nrows a -> j < ncols a ->
             get (d1, d2) ab i j = (get d1 a i j, get d2 b i j).
Proof.
  intros Ha Hb Hs. injection Hs as Hr Hc. simpl. split.
  - unfold wf in *; simpl. rewrite length_zip_with. lia.
  - intros i j Hi Hj. rewrite get_in_range by done. simpl.
    rewrite lookup_zip_with.
    rewrite (get_data d1 a i j) by done. simpl.
    rewrite <- Hc at 1. rewrite (get_data d2 b i j) by (done || lia). done.
Qed.

Section MapBlocks.
Context {X1 X2 X3 Y : Type} (rch cch : list nat).

Lemma map_blocks_seq (f : ndarray X1 -> result (ndarray Y)) x z :
  chunked rch cch x -> map_blocks sequential f x = Ok z ->
  rchunks z = rch /\ cchunks z = cch
  /\ wf (grid z) /\ nrows (grid z) = length rch /\ ncols (grid z) = length cch
  /\ forall bi bj, bi < length rch -> bj < length cch ->
       f (get_block x bi bj) = Ok (get_block z bi bj).
Proof.
  intros (Hx & <- & <-) Hm. unfold map_blocks, sequential in Hm.
  destruct (rmapM f (data (grid x))) as [bs|e] eqn:Hbs; [|done].
  injection Hm as <-. simpl.
  destruct Hx as (Hw & Hr & Hc & _).
  destruct (rmapM_grid f (grid x) bs empty_block empty_block Hw Hbs) as [Hwz Hblk].
  do 2 (split; [done|]). split; [done|]. do 2 (split; [done|]).
  intros bi bj Hbi Hbj. unfold get_block; simpl. apply Hblk; lia.
Qed.

Lemma map_blocks2_seq (f : ndarray X1 -> ndarray X2 -> result (ndarray Y)) x y z :
  chunked rch cch x -> chunked rch cch y -> map_blocks2 sequential f x y = Ok z ->
  rchunks z = rch /\ cchunks z = cch
  /\ wf (grid z) /\ nrows (grid z) = length rch /\ ncols (grid z) = length cch
  /\ forall bi bj, bi < length rch -> bj < length cch ->
       f (get_block x bi bj) (get_block y bi bj) = Ok (get_block z bi bj).
Proof.
  intros (Hx & <- & <-) (Hy & Hyr & Hyc) Hm. unfold map_blocks2, sequential in Hm.
  destruct (rmapM _ (zip _ _)) as [bs|e] eqn:Hbs; [|done].
  injection Hm as <-. simpl.
  destruct Hx as (Hw & Hr & Hc & _). destruct Hy as (Hwy & Hry & Hcy & _).
  destruct (zip_grid (grid x) (grid y) empty_block empty_block) as [Hwxy Hxy];
    [done|done|unfold shape; congruence|].
  destruct (rmapM_grid _ _ bs (empty_block, empty_block) empty_block Hwxy Hbs)
    as [Hwz Hblk].
  simpl in *. do 2 (split; [done|]). split; [done|]. do 2 (split; [done|]).
  intros bi bj Hbi Hbj. unfold get_block; simpl.
  rewrite <- Hblk by lia. by rewrite Hxy by lia.
Qed.

Lemma map_blocks3_seq (f : ndarray X1 -> ndarray X2 -> ndarray X3 -> result (ndarray Y))
    x y w z :
  chunked rch cch x -> chunked rch cch y -> chunked rch cch w ->
  map_blocks3 sequential f x y w = Ok z ->
  rchunks z = rch /\ cchunks z = cch
  /\ wf (grid z) /\ nrows (grid z) = length rch /\ ncols (grid z) = length cch
  /\ forall bi bj, bi < length rch -> bj < length cch ->
       f (get_block x bi bj) (get_block y bi bj) (get_block w bi bj)
       = Ok (get_block z bi bj).
Proof.
  intros (Hx & <- & <-) (Hy & Hyr & Hyc) (Hv & Hvr & Hvc) Hm.
  unfold map_blocks3, sequential in Hm.
  destruct (rmapM _ (zip _ _)) as [bs|e] eqn:Hbs; [|done].
  injection Hm as <-. simpl.
  destruct Hx as (Hw & Hr & Hc & _). destruct Hy as (Hwy & Hry & Hcy & _).
  destruct Hv as (Hwv & Hrv & Hcv & _).
  destruct (zip_grid (grid x) (grid y) empty_block empty_block) as [Hwxy Hxy];
    [done|done|unfold shape; congruence|].
  destruct (zip_grid _ (grid w) (empty_block, empty_block) empty_block Hwxy Hwv)
    as [Hwxyw Hxyw]; [unfold shape; simpl; congruence|].
  destruct (rmapM_grid _ _ bs (empty_block, empty_block, empty_block) empty_block
              Hwxyw Hbs) as [Hwz Hblk].
  simpl in *. do 2 (split; [done|]). split; [done|]. do 2 (split; [done|]).
  intros bi bj Hbi Hbj. unfold get_block; simpl.
  rewrite <- Hblk by lia. rewrite Hxyw by lia. simpl. by rewrite Hxy by lia.
Qed.

(** When the task gives every block the shape the chunks ask for, the
    result is a chunked array again. *)
Lemma chunked_intro (z : darray Y) :
  rchunks z = rch -> cchunks z = cch ->
  wf (grid z) -> nrows (grid z) = length rch -> ncols (grid z) = length cch ->
  (forall bi bj, bi < length rch -> bj < length cch ->
     wf (get_block z bi bj)
     /\ nrows (get_block z bi bj) = nth bi rch 0
     /\ ncols (get_block z bi bj) = nth bj cch 0) ->
  chunked rch cch z.
Proof.
  intros Hr Hc Hw Hnr Hnc Hblk. split; [|done].
  unfold dwf. rewrite Hr, Hc. done.
Qed.
End MapBlocks.

Lemma chunked_block {A} rch cch (g : darray A) bi bj :
  chunked rch cch g -> bi < length rch -> bj < length cch ->
  wf (get_block g bi bj)
  /\ nrows (get_block g bi bj) = nth bi rch 0
  /\ ncols (get_block g bi bj) = nth bj cch 0.
Proof. intros ((_ & _ & _ & Hb) & <- & <-) Hbi Hbj. by apply Hb. Qed.

Lemma overlap_chunked g y depth pol :
  overlap g depth pol = Ok y ->
  chunked ((fun n => n + 2 * depth) <$> rchunks g) ((fun n => n + 2 * depth) <$> cchunks g) y.
Proof.
  intros Hov. split; [by eapply overlap_dwf|].
  split; [by eapply overlap_rchunks|by eapply overlap_cchunks].
Qed.

Lemma trim_chunked {A} (d : A) rch cch (g : darray A) depth :
  chunked rch cch g ->
  chunked ((fun n => n - 2 * depth) <$> rch) ((fun n => n - 2 * depth) <$> cch)
          (trim_overlap d g depth).
Proof.
  intros (Hg & <- & <-). split; [by apply trim_overlap_dwf|done].
Qed.

Lemma watershed_blocks_chunked rch cch (X Z0 : darray Z) mk :
  chunked rch cch X ->
  rchunks Z0 = rch -> cchunks Z0 = cch -> wf (grid Z0) ->
  nrows (grid Z0) = length rch -> ncols (grid Z0) = length cch ->
  (forall bi bj, bi < length rch -> bj < length cch ->
     exists e, watershed e (get_block X bi bj) (mk bi bj) = Ok (get_block Z0 bi bj)) ->
  chunked rch cch Z0.
Proof.
  intros HX Hr Hc Hw Hnr Hnc Hblk. apply chunked_intro; try done.
  intros bi bj Hbi Hbj. destruct (Hblk bi bj Hbi Hbj) as [e He].
  destruct (chunked_block _ _ X bi bj HX Hbi Hbj) as (Hwb & Hrb & Hcb).
  destruct (watershed_shape _ _ _ _ Hwb He) as [Hwo Hso].
  injection Hso as Hro Hco. split; [done|]. split; congruence.
Qed.

(** ** The stages of the DirectSharing pipeline *)

Section DirectStages.
Context (hmax ws_markers : ndarray Z) (chunks : nat * nat) (depth : nat).
Hypothesis Hwf_hmax : wf hmax.
Hypothesis Hwf_markers : wf ws_markers.
Hypothesis Hshape : shape hmax = shape ws_markers.

Let rch := chunk_sizes (nrows ws_markers) (fst chunks).
Let cch := chunk_sizes (ncols ws_markers) (snd chunks).
Let prch := (fun n => n + 2 * depth) <$> rch.
Let pcch := (fun n => n + 2 * depth) <$> cch.

Lemma direct_stages out :
  DirectSharing.ws_final sequential hmax ws_markers chunks depth = Ok out ->
  exists H M FP NB FL SP,
    overlap (from_array 0%Z hmax chunks) depth Nearest = Ok H
    /\ overlap (from_array 0%Z ws_markers chunks) depth Nearest = Ok M
    /\ map_blocks2 sequential (fun x y => watershed x y None) H M = Ok FP
    /\ overlap (trim_overlap 0%Z FP depth) depth Nearest = Ok NB
    /\ map_blocks2 sequential
         (fun x y => Ok (DirectSharing.build_full_markers x y depth)) M NB = Ok FL
    /\ map_blocks2 sequential (fun x y => watershed x y None) H FL = Ok SP
    /\ out = compute 0%Z (trim_overlap 0%Z SP depth).
Proof.
  unfold DirectSharing.ws_final, DirectSharing.ws_sp_op, DirectSharing.full_labels_op,
    DirectSharing.ws_neighbors, DirectSharing.ws_fp, DirectSharing.hmax_op,
    DirectSharing.ws_markers_op.
  destruct (overlap (from_array 0%Z hmax chunks) depth Nearest) as [H|] eqn:HH; [|done].
  destruct (overlap (from_array 0%Z ws_markers chunks) depth Nearest) as [M|] eqn:HM;
    [|done].
  cbn [rbind].
  destruct (map_blocks2 sequential (fun x y => watershed x y None) H M) as [FP|] eqn:HFP;
    [|done].
  cbn [rbind].
  destruct (overlap (trim_overlap 0%Z FP depth) depth Nearest) as [NB|] eqn:HNB; [|done].
  cbn [rbind].
  destruct (map_blocks2 sequential _ M NB) as [FL|] eqn:HFL; [|done].
  cbn [rbind].
  destruct (map_blocks2 sequential _ H FL) as [SP|] eqn:HSP; [|done].
  cbn [rbind]. intros [= <-]. by exists H, M, FP, NB, FL, SP.
Qed.

Lemma fmap_pad_length (l : list nat) : length ((fun n => n + 2 * depth) <$> l) = length l.
Proof. apply length_fmap. Qed.

Lemma pad_nth (l : list nat) k :
  k < length l -> nth k ((fun n => n + 2 * depth) <$> l) 0 = nth k l 0 + 2 * depth.
Proof. intros. by rewrite (nth_fmap_lt _ _ _ 0). Qed.

Lemma direct_hmax_chunked H :
  overlap (from_array 0%Z hmax chunks) depth Nearest = Ok H -> chunked prch pcch H.
Proof using Hshape.
  intros HH. apply overlap_chunked in HH.
  unfold prch, pcch, rch, cch. injection Hshape as Hr Hc.
  rewrite <- Hr, <- Hc. exact HH.
Qed.

Lemma direct_markers_chunked M :
  overlap (from_array 0%Z ws_markers chunks) depth Nearest = Ok M -> chunked prch pcch M.
Proof. intros HM. by apply overlap_chunked in HM. Qed.

Section Run.
Context (H M FP NB FL SP : darray Z).
Hypothesis HH : overlap (from_array 0%Z hmax chunks) depth Nearest = Ok H.
Hypothesis HM : overlap (from_array 0%Z ws_markers chunks) depth Nearest = Ok M.
Hypothesis HFP : map_blocks2 sequential (fun x y => watershed x y None) H M = Ok FP.
Hypothesis HNB : overlap (trim_overlap 0%Z FP depth) depth Nearest = Ok NB.
Hypothesis HFL : map_blocks2 sequential
       (fun x y => Ok (DirectSharing.build_full_markers x y depth)) M NB = Ok FL.
Hypothesis HSP : map_blocks2 sequential (fun x y => watershed x y None) H FL = Ok SP.

Lemma direct_fp_chunked : chunked prch pcch FP.
Proof using HH HM HFP Hshape.
  pose proof (direct_hmax_chunked _ HH) as HcH.
  pose proof (direct_markers_chunked _ HM) as HcM.
  destruct (map_blocks2_seq _ _ _ _ _ _ HcH HcM HFP) as (Hr & Hc & Hw & Hnr & Hnc & Hblk).
  apply (watershed_blocks_chunked prch pcch M FP (fun _ _ => None)); try done.
  intros bi bj Hbi Hbj. eexists. by apply Hblk.
Qed.

Lemma direct_trimmed_fp_chunked : chunked rch cch (trim_overlap 0%Z FP depth).
Proof using HH HM HFP Hshape.
  pose proof (trim_chunked 0%Z _ _ _ depth direct_fp_chunked) as Ht.
  unfold prch, pcch in Ht. by rewrite !fmap_sub_add in Ht.
Qed.

Lemma direct_nb_chunked : chunked prch pcch NB.
Proof using HH HM HFP HNB Hshape.
  pose proof (overlap_chunked _ _ _ _ HNB) as Hc.
  destruct direct_trimmed_fp_chunked as (_ & Hr & Hc').
  by rewrite Hr, Hc' in Hc.
Qed.

Lemma direct_fl_blocks bi bj :
  bi < length rch -> bj < length cch ->
  get_block FL bi bj
  = DirectSharing.build_full_markers (get_block M bi bj) (get_block NB bi bj) depth.
Proof using HH HM HFP HNB HFL Hshape.
  intros Hbi Hbj.
  pose proof (direct_markers_chunked _ HM) as HcM.
  destruct (map_blocks2_seq _ _ _ _ _ _ HcM direct_nb_chunked HFL)
    as (_ & _ & _ & _ & _ & Hblk).
  specialize (Hblk bi bj). unfold prch, pcch in Hblk. rewrite !length_fmap in Hblk.
  specialize (Hblk Hbi Hbj). congruence.
Qed.

Lemma direct_fl_chunked : chunked prch pcch FL.
Proof using HH HM HFP HNB HFL Hshape.
  pose proof (direct_markers_chunked _ HM) as HcM.
  destruct (map_blocks2_seq _ _ _ _ _ _ HcM direct_nb_chunked HFL)
    as (Hr & Hc & Hw & Hnr & Hnc & _).
  apply chunked_intro; try done. intros bi bj Hbi Hbj.
  unfold prch, pcch in Hbi, Hbj. rewrite length_fmap in Hbi, Hbj.
  rewrite direct_fl_blocks by done.
  destruct (direct_build_full_markers_shape (get_block M bi bj) (get_block NB bi bj) depth)
    as (Hwb & Hrb & Hcb).
  destruct (chunked_block _ _ NB bi bj direct_nb_chunked) as (_ & H1 & H2);
    [unfold prch; by rewrite length_fmap|unfold pcch; by rewrite length_fmap|].
  split; [done|]. split; congruence.
Qed.

Lemma direct_sp_chunked : chunked prch pcch SP.
Proof using HH HM HFP HNB HFL HSP Hshape.
  pose proof (direct_hmax_chunked _ HH) as HcH.
  destruct (map_blocks2_seq _ _ _ _ _ _ HcH direct_fl_chunked HSP)
    as (Hr & Hc & Hw & Hnr & Hnc & Hblk).
  apply (watershed_blocks_chunked prch pcch FL SP (fun _ _ => None)); try done.
  - apply direct_fl_chunked.
  - intros bi bj Hbi Hbj. eexists. by apply Hblk.
Qed.

Lemma direct_sp_blocks bi bj :
  bi < length rch -> bj < length cch ->
  watershed (get_block H bi bj) (get_block FL bi bj) None = Ok (get_block SP bi bj).
Proof using HH HM HFP HNB HFL HSP Hshape.
  intros Hbi Hbj.
  pose proof (direct_hmax_chunked _ HH) as HcH.
  destruct (map_blocks2_seq _ _ _ _ _ _ HcH direct_fl_chunked HSP)
    as (_ & _ & _ & _ & _ & Hblk).
  apply Hblk; [unfold prch|unfold pcch]; by rewrite length_fmap.
Qed.

(** A core cell of the padded marker image is the marker of the
    domain cell it covers. *)
Lemma direct_markers_core bi bj a b :
  bi < length rch -> bj < length cch -> a < nth bi rch 0 -> b < nth bj cch 0 ->
  get 0%Z (get_block M bi bj) (a + depth) (b + depth)
  = get 0%Z ws_markers (offset rch bi + a) (offset cch bj + b).
Proof using HM Hwf_markers.
  intros Hbi Hbj Ha Hb.
  rewrite (get_overlap_core _ _ _ _ HM) by done.
  by rewrite compute_from_array.
Qed.

(** The reassembled output, read through the chunk it falls in. *)
Lemma direct_final_cell bi bj a b :
  bi < length rch -> bj < length cch -> a < nth bi rch 0 -> b < nth bj cch 0 ->
  get 0%Z (compute 0%Z (trim_overlap 0%Z SP depth)) (offset rch bi + a) (offset cch bj + b)
  = get 0%Z (get_block SP bi bj) (a + depth) (b + depth).
Proof using HH HM HFP HNB HFL HSP Hshape.
  intros Hbi Hbj Ha Hb.
  pose proof direct_sp_chunked as HcS.
  pose proof (trim_chunked 0%Z _ _ _ depth HcS) as (Htw & Htr & Htc).
  unfold prch, pcch in Htr, Htc. rewrite fmap_sub_add in Htr, Htc.
  rewrite <- Htr at 1. rewrite <- Htc at 1.
  rewrite get_compute by (rewrite ?Htr, ?Htc; done).
  destruct HcS as (HSw & HSr & HSc).
  apply get_trim_overlap_block; try done.
  - rewrite HSr. unfold prch. by rewrite length_fmap.
  - rewrite HSc. unfold pcch. by rewrite length_fmap.
  - rewrite HSr. unfold prch. rewrite pad_nth by done. lia.
  - rewrite HSc. unfold pcch. rewrite pad_nth by done. lia.
Qed.

Lemma direct_seed_kept_block bi bj a b :
  bi < length rch -> bj < length cch -> a < nth bi rch 0 -> b < nth bj cch 0 ->
  (0 < get 0%Z ws_markers (offset rch bi + a) (offset cch bj + b))%Z ->
  get 0%Z (get_block SP bi bj) (a + depth) (b + depth)
  = get 0%Z ws_markers (offset rch bi + a) (offset cch bj + b).
Proof using HH HM HFP HNB HFL HSP Hshape Hwf_markers.
  intros Hbi Hbj Ha Hb Hpos.
  pose proof (direct_markers_core bi bj a b Hbi Hbj Ha Hb) as Hcore.
  assert (Hbi' : bi < length prch) by (unfold prch; by rewrite length_fmap).
  assert (Hbj' : bj < length pcch) by (unfold pcch; by rewrite length_fmap).
  destruct (chunked_block _ _ M bi bj (direct_markers_chunked _ HM) Hbi' Hbj')
    as (HwM & HrM & HcM).
  destruct (chunked_block _ _ NB bi bj direct_nb_chunked Hbi' Hbj')
    as (HwN & HrN & HcN).
  destruct (chunked_block _ _ FL bi bj direct_fl_chunked Hbi' Hbj')
    as (HwF & HrF & HcF).
  unfold prch in HrM, HrN. unfold pcch in HcM, HcN. rewrite pad_nth in HrM, HrN, HcM, HcN by done.
  assert (Hfl : get 0%Z (get_block FL bi bj) (a + depth) (b + depth)
                = get 0%Z ws_markers (offset rch bi + a) (offset cch bj + b)).
  { rewrite direct_fl_blocks by done.
    rewrite direct_get_build_full_markers; [|done|unfold shape; congruence|lia|lia].
    rewrite Hcore. by rewrite (proj2 (Z.ltb_lt _ _) Hpos). }
  rewrite <- Hfl.
  apply (watershed_keeps_markers _ _ _ _ _ _ HwF (direct_sp_blocks bi bj Hbi Hbj)).
  rewrite Hfl. lia.
Qed.
End Run.

(** Seed precedence for DirectSharing. *)
Lemma direct_seed_kept out i j :
  DirectSharing.ws_final sequential hmax ws_markers chunks depth = Ok out ->
  i < nrows ws_markers -> j < ncols ws_markers ->
  (0 < get 0%Z ws_markers i j)%Z ->
  get 0%Z out i j = get 0%Z ws_markers i j.
Proof using Hshape Hwf_markers.
  intros Hfin Hi Hj Hpos.
  destruct (direct_stages out Hfin) as (H & M & FP & NB & FL & SP & HH & HM & HFP & HNB & HFL & HSP & ->).
  rewrite <- (sum_chunk_sizes (nrows ws_markers) (fst chunks)) in Hi.
  rewrite <- (sum_chunk_sizes (ncols ws_markers) (snd chunks)) in Hj.
  destruct (locate_spec _ _ Hi) as (Hbi & Ha & Hio).
  destruct (locate_spec _ _ Hj) as (Hbj & Hb & Hjo).
  fold rch in Hbi, Ha, Hio. fold cch in Hbj, Hb, Hjo.
  rewrite <- Hio, <- Hjo in Hpos |- *.
  rewrite (direct_final_cell H M FP NB FL SP) by done.
  by apply (direct_seed_kept_block H M FP NB FL SP).
Qed.
End DirectStages.

(** ** Values that travel through the pipeline *)

Lemma all_cells_get (P : Z -> Prop) a i j : P 0%Z -> all_cells P a -> P (get 0%Z a i j).
Proof.
  intros H0 Ha. destruct (get_elem_of 0%Z a i j) as [->|Hin]; [done|by apply Ha].
Qed.

Lemma all_cells_tabulate (P : Z -> Prop) r c f :
  (forall i j, i < r -> j < c -> P (f i j)) -> all_cells P (tabulate r c f).
Proof.
  intros Hf v Hv. simpl in Hv. apply list_elem_of_fmap in Hv as (k & -> & Hk).
  apply elem_of_seq in Hk. assert (c <> 0) by (intros ->; lia).
  apply Hf; [apply Nat.Div0.div_lt_upper_bound; lia|by apply Nat.mod_upper_bound].
Qed.

Lemma all_cells_watershed (P : Z -> Prop) elev m mask out :
  wf m -> P 0%Z -> all_cells P m -> watershed elev m mask = Ok out -> all_cells P out.
Proof.
  intros Hw H0 Hm Hws v Hv.
  destruct (watershed_values _ _ _ _ _ Hw Hws Hv) as [->|Hin]; [done|by apply Hm].
Qed.

Lemma all_cells_remove_label chunk label :
  label <> 0%Z ->
  all_cells (fun v => v <> label) (SentinelBasinSharing.remove_label chunk label).
Proof.
  intros Hne v Hv. simpl in Hv. apply list_elem_of_lookup in Hv as [k Hk].
  rewrite put_scalar_lookup in Hk by (by rewrite length_fmap).
  rewrite list_lookup_fmap in Hk.
  destruct (data chunk !! k) as [x|] eqn:Hx; simpl in Hk; [|done].
  destruct (x =? label)%Z eqn:Hxl; simplify_eq; [done|]. by apply Z.eqb_neq.
Qed.

Lemma all_cells_compute (P : Z -> Prop) rch cch (g : darray Z) :
  chunked rch cch g -> P 0%Z ->
  (forall bi bj, bi < length rch -> bj < length cch -> all_cells P (get_block g bi bj)) ->
  all_cells P (compute 0%Z g).
Proof.
  intros (_ & <- & <-) H0 Hg. apply all_cells_tabulate. intros i j Hi Hj.
  destruct (locate_spec _ _ Hi) as (Hbi & _ & _).
  destruct (locate_spec _ _ Hj) as (Hbj & _ & _).
  destruct (locate (rchunks g) i), (locate (cchunks g) j).
  apply all_cells_get; [done|]. by apply Hg.
Qed.

Lemma all_cells_trim (P : Z -> Prop) rch cch (g : darray Z) depth bi bj :
  chunked rch cch g -> P 0%Z ->
  (forall bi bj, bi < length rch -> bj < length cch -> all_cells P (get_block g bi bj)) ->
  bi < length rch -> bj < length cch ->
  all_cells P (get_block (trim_overlap 0%Z g depth) bi bj).
Proof.
  intros (Hg & <- & <-) H0 Hall Hbi Hbj. unfold trim_overlap.
  rewrite get_block_amap by done.
  apply all_cells_tabulate. intros i j _ _. apply all_cells_get; [done|]. by apply Hall.
Qed.

Lemma all_cells_overlap_nearest (P : Z -> Prop) (g y : darray Z) depth bi bj :
  overlap g depth Nearest = Ok y -> P 0%Z -> all_cells P (compute 0%Z g) ->
  bi < length (rchunks g) -> bj < length (cchunks g) ->
  all_cells P (get_block y bi bj).
Proof.
  intros Hov H0 Hg Hbi Hbj. rewrite (overlap_eq _ _ _ _ Hov).
  unfold get_block; cbn [grid]. rewrite get_tabulate by done.
  apply all_cells_tabulate. intros a b _ _. simpl. by apply all_cells_get.
Qed.

Lemma array_max_ge (a : ndarray Z) v : v ∈ data a -> (v <= array_max a)%Z.
Proof.
  unfold array_max. destruct (data a) as [|x l]; [intros H; by apply elem_of_nil in H|].
  assert (Hfold : forall l x, (x <= foldl Z.max x l)%Z
                    /\ forall v, v ∈ l -> (v <= foldl Z.max x l)%Z).
  { clear. induction l as [|y l IH]; intros x; simpl.
    - split; [lia|]. intros v Hv. by apply elem_of_nil in Hv.
    - destruct (IH (Z.max x y)) as [H1 H2]. split; [lia|].
      intros v Hv. apply elem_of_cons in Hv as [->|Hv]; [lia|by apply H2]. }
  destruct (Hfold l x) as [H1 H2].
  intros Hv. apply elem_of_cons in Hv as [->|Hv]; [done|by apply H2].
Qed.

Lemma array_max_nonneg (a : ndarray Z) :
  (forall v, v ∈ data a -> (0 <= v)%Z) -> (0 <= array_max a)%Z.
Proof.
  intros Hnn. unfold array_max. destruct (data a) as [|x l] eqn:Hd; [done|].
  assert (Hx : (0 <= x)%Z) by (apply Hnn; by left).
  clear Hd Hnn. revert x Hx. induction l as [|y l IH]; intros x Hx; simpl; [done|].
  apply IH. lia.
Qed.

(** ** The stages of the SentinelBasinSharing pipeline *)

Section SentinelStages.
Context (hmax ws_markers : ndarray Z) (chunks : nat * nat) (depth : nat).
Hypothesis Hwf_hmax : wf hmax.
Hypothesis Hwf_markers : wf ws_markers.
Hypothesis Hshape : shape hmax = shape ws_markers.

Let rch := chunk_sizes (nrows ws_markers) (fst chunks).
Let cch := chunk_sizes (ncols ws_markers) (snd chunks).
Let prch := (fun n => n + 2 * depth) <$> rch.
Let pcch := (fun n => n + 2 * depth) <$> cch.
Let bl := SentinelBasinSharing.boundary_label ws_markers.

Lemma sentinel_stages out :
  SentinelBasinSharing.ws_final sequential hmax ws_markers chunks depth = Ok out ->
  exists H M0 M FP RM MSP MK SP FIN,
    overlap (from_array 0%Z hmax chunks) depth Nearest = Ok H
    /\ overlap (from_array 0%Z ws_markers chunks) depth (Constant bl) = Ok M0
    /\ map_blocks sequential
         (fun x => Ok (SentinelBasinSharing.build_full_markers x depth bl)) M0 = Ok M
    /\ map_blocks2 sequential (fun x y => watershed x y None) H M = Ok FP
    /\ map_blocks sequential
         (fun x => Ok (SentinelBasinSharing.remove_label x bl)) FP = Ok RM
    /\ overlap (trim_overlap 0%Z RM depth) depth Nearest = Ok MSP
    /\ map_blocks sequential (fun x => Ok (eq_scalar x bl)) FP = Ok MK
    /\ map_blocks3 sequential (fun x y z => watershed x y (Some z)) H MSP MK = Ok SP
    /\ map_blocks3 sequential
         (fun x y z => Ok (SentinelBasinSharing.compose x y z)) FP SP MK = Ok FIN
    /\ out = compute 0%Z (trim_overlap 0%Z FIN depth).
Proof.
  unfold SentinelBasinSharing.ws_final, SentinelBasinSharing.ws_sp,
    SentinelBasinSharing.ws_mask, SentinelBasinSharing.ws_markers_sp,
    SentinelBasinSharing.ws_fp, SentinelBasinSharing.ws_markers_op,
    SentinelBasinSharing.hmax_op.
  fold bl.
  destruct (overlap (from_array 0%Z hmax chunks) depth Nearest) as [H|] eqn:HH; [|done].
  destruct (overlap (from_array 0%Z ws_markers chunks) depth (Constant bl))
    as [M0|] eqn:HM0; [|done].
  cbn [rbind].
  destruct (map_blocks sequential _ M0) as [M|] eqn:HM; [|done].
  cbn [rbind].
  destruct (map_blocks2 sequential _ H M) as [FP|] eqn:HFP; [|done].
  cbn [rbind].
  destruct (map_blocks sequential
              (fun x => Ok (SentinelBasinSharing.remove_label x bl)) FP)
    as [RM|] eqn:HRM; [|done].
  cbn [rbind].
  destruct (overlap (trim_overlap 0%Z RM depth) depth Nearest) as [MSP|] eqn:HMSP;
    [|done].
  cbn [rbind].
  destruct (map_blocks sequential (fun x => Ok (eq_scalar x bl)) FP) as [MK|] eqn:HMK;
    [|done].
  cbn [rbind].
  destruct (map_blocks3 sequential _ H MSP MK) as [SP|] eqn:HSP; [|done].
  cbn [rbind].
  destruct (map_blocks3 sequential _ FP SP MK) as [FIN|] eqn:HFIN; [|done].
  cbn [rbind]. intros [= <-]. by exists H, M0, M, FP, RM, MSP, MK, SP, FIN.
Qed.

Section Run.
Context (H M0 M FP RM MSP SP FIN : darray Z) (MK : darray bool).
Hypothesis HH : overlap (from_array 0%Z hmax chunks) depth Nearest = Ok H.
Hypothesis HM0 :
  overlap (from_array 0%Z ws_markers chunks) depth (Constant bl) = Ok M0.
Hypothesis HM : map_blocks sequential
       (fun x => Ok (SentinelBasinSharing.build_full_markers x depth bl)) M0 = Ok M.
Hypothesis HFP : map_blocks2 sequential (fun x y => watershed x y None) H M = Ok FP.
Hypothesis HRM : map_blocks sequential
       (fun x => Ok (SentinelBasinSharing.remove_label x bl)) FP = Ok RM.
Hypothesis HMSP : overlap (trim_overlap 0%Z RM depth) depth Nearest = Ok MSP.
Hypothesis HMK : map_blocks sequential (fun x => Ok (eq_scalar x bl)) FP = Ok MK.
Hypothesis HSP :
  map_blocks3 sequential (fun x y z => watershed x y (Some z)) H MSP MK = Ok SP.
Hypothesis HFIN : map_blocks3 sequential
       (fun x y z => Ok (SentinelBasinSharing.compose x y z)) FP SP MK = Ok FIN.

Lemma sentinel_hmax_chunked : chunked prch pcch H.
Proof using HH Hshape. by apply (direct_hmax_chunked hmax ws_markers chunks depth). Qed.

Lemma sentinel_m0_chunked : chunked prch pcch M0.
Proof using HM0. by apply overlap_chunked in HM0. Qed.

Lemma in_prch bi : bi < length rch -> bi < length prch.
Proof. unfold prch. by rewrite length_fmap. Qed.

Lemma in_pcch bj : bj < length cch -> bj < length pcch.
Proof. unfold pcch. by rewrite length_fmap. Qed.

Lemma sentinel_m_blocks bi bj :
  bi < length rch -> bj < length cch ->
  get_block M bi bj
  = SentinelBasinSharing.build_full_markers (get_block M0 bi bj) depth bl.
Proof using HM0 HM.
  intros Hbi Hbj.
  destruct (map_blocks_seq _ _ _ _ _ sentinel_m0_chunked HM) as (_ & _ & _ & _ & _ & Hblk).
  specialize (Hblk bi bj (in_prch _ Hbi) (in_pcch _ Hbj)). congruence.
Qed.

Lemma sentinel_m_chunked : chunked prch pcch M.
Proof using HM0 HM.
  destruct (map_blocks_seq _ _ _ _ _ sentinel_m0_chunked HM)
    as (Hr & Hc & Hw & Hnr & Hnc & _).
  apply chunked_intro; try done. intros bi bj Hbi Hbj.
  unfold prch, pcch in Hbi, Hbj. rewrite length_fmap in Hbi, Hbj.
  rewrite sentinel_m_blocks by done.
  destruct (sentinel_build_full_markers_shape (get_block M0 bi bj) depth bl)
    as (Hwb & Hrb & Hcb).
  destruct (chunked_block _ _ M0 bi bj sentinel_m0_chunked (in_prch _ Hbi) (in_pcch _ Hbj))
    as (_ & H1 & H2).
  split; [done|]. split; congruence.
Qed.

Lemma sentinel_fp_blocks bi bj :
  bi < length rch -> bj < length cch ->
  watershed (get_block H bi bj) (get_block M bi bj) None = Ok (get_block FP bi bj).
Proof using HH HM0 HM HFP Hshape.
  intros Hbi Hbj.
  destruct (map_blocks2_seq _ _ _ _ _ _ sentinel_hmax_chunked sentinel_m_chunked HFP)
    as (_ & _ & _ & _ & _ & Hblk).
  apply Hblk; [by apply in_prch|by apply in_pcch].
Qed.

Lemma sentinel_fp_chunked : chunked prch pcch FP.
Proof using HH HM0 HM HFP Hshape.
  destruct (map_blocks2_seq _ _ _ _ _ _ sentinel_hmax_chunked sentinel_m_chunked HFP)
    as (Hr & Hc & Hw & Hnr & Hnc & Hblk).
  apply (watershed_blocks_chunked prch pcch M FP (fun _ _ => None)); try done.
  - apply sentinel_m_chunked.
  - intros bi bj Hbi Hbj. eexists. by apply Hblk.
Qed.

Lemma sentinel_rm_blocks bi bj :
  bi < length rch -> bj < length cch ->
  get_block RM bi bj = SentinelBasinSharing.remove_label (get_block FP bi bj) bl.
Proof using HH HM0 HM HFP HRM Hshape.
  intros Hbi Hbj.
  destruct (map_blocks_seq _ _ _ _ _ sentinel_fp_chunked HRM) as (_ & _ & _ & _ & _ & Hblk).
  specialize (Hblk bi bj (in_prch _ Hbi) (in_pcch _ Hbj)). congruence.
Qed.

Lemma sentinel_rm_chunked : chunked prch pcch RM.
Proof using HH HM0 HM HFP HRM Hshape.
  destruct (map_blocks_seq _ _ _ _ _ sentinel_fp_chunked HRM)
    as (Hr & Hc & Hw & Hnr & Hnc & _).
  apply chunked_intro; try done. intros bi bj Hbi Hbj.
  unfold prch, pcch in Hbi, Hbj. rewrite length_fmap in Hbi, Hbj.
  rewrite sentinel_rm_blocks by done.
  destruct (chunked_block _ _ FP bi bj sentinel_fp_chunked (in_prch _ Hbi) (in_pcch _ Hbj))
    as (Hwf & H1 & H2).
  destruct (remove_label_shape (get_block FP bi bj) bl Hwf) as (Hwb & Hrb & Hcb).
  split; [done|]. split; congruence.
Qed.

Lemma sentinel_msp_chunked : chunked prch pcch MSP.
Proof using HH HM0 HM HFP HRM HMSP Hshape.
  pose proof (overlap_chunked _ _ _ _ HMSP) as Hc.
  pose proof (trim_chunked 0%Z _ _ _ depth sentinel_rm_chunked) as (_ & Hr & Hc').
  unfold prch, pcch in Hr, Hc'. rewrite fmap_sub_add in Hr, Hc'.
  by rewrite Hr, Hc' in Hc.
Qed.

Lemma sentinel_mk_blocks bi bj :
  bi < length rch -> bj < length cch ->
  get_block MK bi bj = eq_scalar (get_block FP bi bj) bl.
Proof using HH HM0 HM HFP HMK Hshape.
  intros Hbi Hbj.
  destruct (map_blocks_seq _ _ _ _ _ sentinel_fp_chunked HMK) as (_ & _ & _ & _ & _ & Hblk).
  specialize (Hblk bi bj (in_prch _ Hbi) (in_pcch _ Hbj)). congruence.
Qed.

Lemma sentinel_mk_chunked : chunked prch pcch MK.
Proof using HH HM0 HM HFP HMK Hshape.
  destruct (map_blocks_seq _ _ _ _ _ sentinel_fp_chunked HMK)
    as (Hr & Hc & Hw & Hnr & Hnc & _).
  apply chunked_intro; try done. intros bi bj Hbi Hbj.
  unfold prch, pcch in Hbi, Hbj. rewrite length_fmap in Hbi, Hbj.
  rewrite sentinel_mk_blocks by done.
  destruct (chunked_block _ _ FP bi bj sentinel_fp_chunked (in_prch _ Hbi) (in_pcch _ Hbj))
    as (Hwf & H1 & H2).
  split; [by apply eq_scalar_wf|]. done.
Qed.

Lemma sentinel_sp_blocks bi bj :
  bi < length rch -> bj < length cch ->
  watershed (get_block H bi bj) (get_block MSP bi bj) (Some (get_block MK bi bj))
  = Ok (get_block SP bi bj).
Proof using HH HM0 HM HFP HRM HMSP HMK HSP Hshape.
  intros Hbi Hbj.
  destruct (map_blocks3_seq _ _ _ _ _ _ _ sentinel_hmax_chunked sentinel_msp_chunked
              sentinel_mk_chunked HSP) as (_ & _ & _ & _ & _ & Hblk).
  apply Hblk; [by apply in_prch|by apply in_pcch].
Qed.

Lemma sentinel_sp_chunked : chunked prch pcch SP.
Proof using HH HM0 HM HFP HRM HMSP HMK HSP Hshape.
  destruct (map_blocks3_seq _ _ _ _ _ _ _ sentinel_hmax_chunked sentinel_msp_chunked
              sentinel_mk_chunked HSP) as (Hr & Hc & Hw & Hnr & Hnc & Hblk).
  apply (watershed_blocks_chunked prch pcch MSP SP (fun bi bj => Some (get_block MK bi bj)));
    try done.
  - apply sentinel_msp_chunked.
  - intros bi bj Hbi Hbj. eexists. by apply Hblk.
Qed.

Lemma sentinel_fin_blocks bi bj :
  bi < length rch -> bj < length cch ->
  get_block FIN bi bj
  = SentinelBasinSharing.compose (get_block FP bi bj) (get_block SP bi bj)
      (get_block MK bi bj).
Proof using HH HM0 HM HFP HRM HMSP HMK HSP HFIN Hshape.
  intros Hbi Hbj.
  destruct (map_blocks3_seq _ _ _ _ _ _ _ sentinel_fp_chunked sentinel_sp_chunked
              sentinel_mk_chunked HFIN) as (_ & _ & _ & _ & _ & Hblk).
  specialize (Hblk bi bj (in_prch _ Hbi) (in_pcch _ Hbj)). congruence.
Qed.

Lemma sentinel_fin_chunked : chunked prch pcch FIN.
Proof using HH HM0 HM HFP HRM HMSP HMK HSP HFIN Hshape.
  destruct (map_blocks3_seq _ _ _ _ _ _ _ sentinel_fp_chunked sentinel_sp_chunked
              sentinel_mk_chunked HFIN) as (Hr & Hc & Hw & Hnr & Hnc & _).
  apply chunked_intro; try done. intros bi bj Hbi Hbj.
  unfold prch, pcch in Hbi, Hbj. rewrite length_fmap in Hbi, Hbj.
  rewrite sentinel_fin_blocks by done.
  destruct (chunked_block _ _ FP bi bj sentinel_fp_chunked (in_prch _ Hbi) (in_pcch _ Hbj))
    as (Hwf & H1 & H2).
  destruct (compose_shape (get_block FP bi bj) (get_block SP bi bj) (get_block MK bi bj) Hwf)
    as (Hwb & Hrb & Hcb).
  split; [done|]. split; congruence.
Qed.

(** A cell of the composed block: the second pass where the first
    pass left the sentinel, the first pass elsewhere. *)
Lemma sentinel_fin_cell bi bj a b :
  bi < length rch -> bj < length cch ->
  a < nth bi rch 0 + 2 * depth -> b < nth bj cch 0 + 2 * depth ->
  get 0%Z (get_block FIN bi bj) a b
  = if (get 0%Z (get_block FP bi bj) a b =? bl)%Z
    then get 0%Z (get_block SP bi bj) a b
    else get 0%Z (get_block FP bi bj) a b.
Proof using HH HM0 HM HFP HRM HMSP HMK HSP HFIN Hshape.
  intros Hbi Hbj Ha Hb.
  destruct (chunked_block _ _ FP bi bj sentinel_fp_chunked (in_prch _ Hbi) (in_pcch _ Hbj))
    as (Hwf & Hr1 & Hc1).
  destruct (chunked_block _ _ SP bi bj sentinel_sp_chunked (in_prch _ Hbi) (in_pcch _ Hbj))
    as (Hws & Hr2 & Hc2).
  unfold prch in Hr1, Hr2. unfold pcch in Hc1, Hc2.
  rewrite (nth_fmap_lt _ _ _ 0) in Hr1, Hr2 by done.
  rewrite (nth_fmap_lt _ _ _ 0) in Hc1, Hc2 by done.
  rewrite sentinel_fin_blocks, sentinel_mk_blocks by done.
  rewrite get_compose; try done.
  - rewrite get_eq_scalar by (done || lia). done.
  - by apply eq_scalar_wf.
  - unfold shape. congruence.
  - lia.
  - lia.
Qed.

Lemma sentinel_final_cell bi bj a b :
  bi < length rch -> bj < length cch -> a < nth bi rch 0 -> b < nth bj cch 0 ->
  get 0%Z (compute 0%Z (trim_overlap 0%Z FIN depth)) (offset rch bi + a) (offset cch bj + b)
  = get 0%Z (get_block FIN bi bj) (a + depth) (b + depth).
Proof using HH HM0 HM HFP HRM HMSP HMK HSP HFIN Hshape.
  intros Hbi Hbj Ha Hb.
  pose proof sentinel_fin_chunked as HcS.
  pose proof (trim_chunked 0%Z _ _ _ depth HcS) as (Htw & Htr & Htc).
  unfold prch, pcch in Htr, Htc. rewrite fmap_sub_add in Htr, Htc.
  rewrite <- Htr at 1. rewrite <- Htc at 1.
  rewrite get_compute by (rewrite ?Htr, ?Htc; done).
  destruct HcS as (HSw & HSr & HSc).
  apply get_trim_overlap_block; try done.
  - rewrite HSr. by apply in_prch.
  - rewrite HSc. by apply in_pcch.
  - rewrite HSr. unfold prch. rewrite (nth_fmap_lt _ _ _ 0) by done. lia.
  - rewrite HSc. unfold pcch. rewrite (nth_fmap_lt _ _ _ 0) by done. lia.
Qed.

(** The first-pass marker image, cell by cell. *)
Lemma sentinel_m_cell bi bj a b :
  bi < length rch -> bj < length cch ->
  a < nth bi rch 0 + 2 * depth -> b < nth bj cch 0 + 2 * depth ->
  get 0%Z (get_block M bi bj) a b
  = let m := pad_source (Constant bl) depth ws_markers
               (offset rch bi + a) (offset cch bj + b) in
    if (0 <? m)%Z then m
    else if in_ring (nth bi rch 0 + 2 * depth) depth a
            || in_ring (nth bj cch 0 + 2 * depth) depth b
         then bl else 0%Z.
Proof using HM0 HM Hwf_markers.
  intros Hbi Hbj Ha Hb.
  destruct (chunked_block _ _ M0 bi bj sentinel_m0_chunked (in_prch _ Hbi) (in_pcch _ Hbj))
    as (Hw0 & Hr0 & Hc0).
  unfold prch in Hr0. unfold pcch in Hc0.
  rewrite (nth_fmap_lt _ _ _ 0) in Hr0 by done.
  rewrite (nth_fmap_lt _ _ _ 0) in Hc0 by done.
  rewrite sentinel_m_blocks by done.
  rewrite sentinel_get_build_full_markers by (done || lia).
  rewrite (get_overlap_block _ _ _ _ HM0) by done.
  rewrite compute_from_array by done. cbn zeta.
  unfold on_ring. by rewrite Hr0, Hc0.
Qed.

Lemma sentinel_seed_kept_block bi bj a b :
  bi < length rch -> bj < length cch -> a < nth bi rch 0 -> b < nth bj cch 0 ->
  (0 < get 0%Z ws_markers (offset rch bi + a) (offset cch bj + b))%Z ->
  get 0%Z (get_block FIN bi bj) (a + depth) (b + depth)
  = get 0%Z ws_markers (offset rch bi + a) (offset cch bj + b).
Proof using HH HM0 HM HFP HRM HMSP HMK HSP HFIN Hshape Hwf_markers.
  intros Hbi Hbj Ha Hb Hpos.
  set (mk := get 0%Z ws_markers (offset rch bi + a) (offset cch bj + b)) in *.
  pose proof (offset_lt _ _ _ Hbi Ha) as Hi.
  pose proof (offset_lt _ _ _ Hbj Hb) as Hj.
  pose proof (sum_chunk_sizes (nrows ws_markers) (fst chunks)) as Hsr.
  pose proof (sum_chunk_sizes (ncols ws_markers) (snd chunks)) as Hsc.
  fold rch in Hsr. fold cch in Hsc.
  assert (Hm : get 0%Z (get_block M bi bj) (a + depth) (b + depth) = mk).
  { rewrite sentinel_m_cell by (done || lia). cbn zeta.
    rewrite pad_source_inside by lia.
    replace (offset rch bi + (a + depth) - depth) with (offset rch bi + a) by lia.
    replace (offset cch bj + (b + depth) - depth) with (offset cch bj + b) by lia.
    fold mk. by rewrite (proj2 (Z.ltb_lt _ _) Hpos). }
  destruct (chunked_block _ _ M bi bj sentinel_m_chunked (in_prch _ Hbi) (in_pcch _ Hbj))
    as (HwM & _ & _).
  assert (Hfp : get 0%Z (get_block FP bi bj) (a + depth) (b + depth) = mk).
  { rewrite <- Hm.
    apply (watershed_keeps_markers _ _ _ _ _ _ HwM (sentinel_fp_blocks bi bj Hbi Hbj)).
    rewrite Hm. lia. }
  rewrite sentinel_fin_cell by (done || lia). rewrite Hfp.
  assert (Hlt : (mk < bl)%Z).
  { unfold bl, SentinelBasinSharing.boundary_label.
    assert (mk <= array_max ws_markers)%Z; [|lia].
    apply array_max_ge. unfold mk.
    eapply list_elem_of_lookup_2. apply (get_data 0%Z); [done|lia|lia]. }
  by rewrite (proj2 (Z.eqb_neq _ _)) by lia.
Qed.

(** No cell of the composed blocks holds the sentinel. *)
Lemma sentinel_no_leak_block bi bj a b :
  bl <> 0%Z ->
  bi < length rch -> bj < length cch ->
  a < nth bi rch 0 + 2 * depth -> b < nth bj cch 0 + 2 * depth ->
  get 0%Z (get_block FIN bi bj) a b <> bl.
Proof using HH HM0 HM HFP HRM HMSP HMK HSP HFIN Hshape.
  intros Hbl Hbi Hbj Ha Hb. rewrite sentinel_fin_cell by done.
  destruct (get 0%Z (get_block FP bi bj) a b =? bl)%Z eqn:Heq;
    [|by apply Z.eqb_neq].
  (* the second pass only hands out labels of its markers *)
  assert (Hrm : forall bi bj, bi < length prch -> bj < length pcch ->
            all_cells (fun v => v <> bl) (get_block RM bi bj)).
  { intros bi' bj' Hbi' Hbj'. unfold prch, pcch in Hbi', Hbj'.
    rewrite length_fmap in Hbi', Hbj'.
    rewrite sentinel_rm_blocks by done. by apply all_cells_remove_label. }
  assert (Htrim : all_cells (fun v => v <> bl) (compute 0%Z (trim_overlap 0%Z RM depth))).
  { pose proof (trim_chunked 0%Z _ _ _ depth sentinel_rm_chunked) as Hct.
    eapply all_cells_compute; [exact Hct|done|].
    intros bi' bj' Hbi' Hbj'. rewrite !length_fmap in Hbi', Hbj'.
    by apply (all_cells_trim _ prch pcch); [apply sentinel_rm_chunked| | | |]. }
  assert (Hmsp : all_cells (fun v => v <> bl) (get_block MSP bi bj)).
  { pose proof (trim_chunked 0%Z _ _ _ depth sentinel_rm_chunked) as (_ & Hr & Hc).
    apply (all_cells_overlap_nearest _ _ _ _ _ _ HMSP); try done.
    - rewrite Hr, length_fmap. by apply in_prch.
    - rewrite Hc, length_fmap. by apply in_pcch. }
  destruct (chunked_block _ _ MSP bi bj sentinel_msp_chunked (in_prch _ Hbi) (in_pcch _ Hbj))
    as (HwMSP & _ & _).
  apply (all_cells_get (fun v => v <> bl)); [done|].
  by apply (all_cells_watershed _ _ _ _ _ HwMSP (not_eq_sym Hbl) Hmsp
              (sentinel_sp_blocks bi bj Hbi Hbj)).
Qed.
End Run.

(** Seed precedence for SentinelBasinSharing. *)
Lemma sentinel_seed_kept out i j :
  SentinelBasinSharing.ws_final sequential hmax ws_markers chunks depth = Ok out ->
  i < nrows ws_markers -> j < ncols ws_markers ->
  (0 < get 0%Z ws_markers i j)%Z ->
  get 0%Z out i j = get 0%Z ws_markers i j.
Proof using Hshape Hwf_markers.
  intros Hfin Hi Hj Hpos.
  destruct (sentinel_stages out Hfin)
    as (H & M0 & M & FP & RM & MSP & MK & SP & FIN
        & HH & HM0 & HM & HFP & HRM & HMSP & HMK & HSP & HFIN & ->).
  rewrite <- (sum_chunk_sizes (nrows ws_markers) (fst chunks)) in Hi.
  rewrite <- (sum_chunk_sizes (ncols ws_markers) (snd chunks)) in Hj.
  destruct (locate_spec _ _ Hi) as (Hbi & Ha & Hio).
  destruct (locate_spec _ _ Hj) as (Hbj & Hb & Hjo).
  fold rch in Hbi, Ha, Hio. fold cch in Hbj, Hb, Hjo.
  rewrite <- Hio, <- Hjo in Hpos |- *.
  rewrite (sentinel_final_cell H M0 M FP RM MSP SP FIN MK) by done.
  by apply (sentinel_seed_kept_block H M0 M FP RM MSP SP FIN MK).
Qed.

(** The sentinel does not reach the reassembled output. *)
Lemma sentinel_no_leak out i j :
  bl <> 0%Z ->
  SentinelBasinSharing.ws_final sequential hmax ws_markers chunks depth = Ok out ->
  get 0%Z out i j <> bl.
Proof using Hshape.
  intros Hbl Hfin.
  destruct (sentinel_stages out Hfin)
    as (H & M0 & M & FP & RM & MSP & MK & SP & FIN
        & HH & HM0 & HM & HFP & HRM & HMSP & HMK & HSP & HFIN & ->).
  destruct (decide (i < sum_list rch /\ j < sum_list cch)) as [[Hi Hj]|Hout].
  - destruct (locate_spec _ _ Hi) as (Hbi & Ha & Hio).
    destruct (locate_spec _ _ Hj) as (Hbj & Hb & Hjo).
    rewrite <- Hio, <- Hjo.
    rewrite (sentinel_final_cell H M0 M FP RM MSP SP FIN MK) by done.
    apply (sentinel_no_leak_block H M0 M FP RM MSP SP FIN MK); (done || lia).
  - rewrite get_out_of_range; [by apply not_eq_sym|].
    pose proof (sentinel_fin_chunked H M0 M FP RM MSP SP FIN MK HH HM0 HM HFP HRM HMSP HMK HSP HFIN)
      as (_ & Hr & Hc).
    destruct (compute_shape 0%Z (trim_overlap 0%Z FIN depth)) as (_ & -> & ->).
    rewrite trim_overlap_rchunks, trim_overlap_cchunks, Hr, Hc.
    unfold prch, pcch. by rewrite !fmap_sub_add.
Qed.
End SentinelStages.

(** ** The reassembled outputs *)

Lemma elem_of_data_get {A} (d : A) (a : ndarray A) v :
  wf a -> v ∈ data a -> exists i j, i < nrows a /\ j < ncols a /\ v = get d a i j.
Proof.
  intros Hw Hv. apply list_elem_of_lookup in Hv as [k Hk].
  pose proof (lookup_lt_Some _ _ _ Hk) as Hlt. rewrite Hw in Hlt.
  assert (ncols a <> 0) by (intros Hz; rewrite Hz in Hlt; lia).
  exists (k / ncols a), (k mod ncols a).
  assert (Hi : k / ncols a < nrows a) by (apply Nat.Div0.div_lt_upper_bound; lia).
  assert (Hj : k mod ncols a < ncols a) by (by apply Nat.mod_upper_bound).
  do 2 (split; [done|]). rewrite get_in_range by done.
  replace (k / ncols a * ncols a + k mod ncols a) with k
    by (rewrite (Nat.div_mod_eq k (ncols a)) at 1; lia).
  by rewrite Hk.
Qed.

Lemma final_shape rch cch (g : darray Z) depth :
  chunked ((fun n => n + 2 * depth) <$> rch) ((fun n => n + 2 * depth) <$> cch) g ->
  wf (compute 0%Z (trim_overlap 0%Z g depth))
  /\ nrows (compute 0%Z (trim_overlap 0%Z g depth)) = sum_list rch
  /\ ncols (compute 0%Z (trim_overlap 0%Z g depth)) = sum_list cch.
Proof.
  intros (_ & Hr & Hc).
  destruct (compute_shape 0%Z (trim_overlap 0%Z g depth)) as (Hw & -> & ->).
  rewrite trim_overlap_rchunks, trim_overlap_cchunks, Hr, Hc, !fmap_sub_add. done.
Qed.

Lemma direct_final_shape hmax ws_markers chunks depth out :
  shape hmax = shape ws_markers ->
  DirectSharing.ws_final sequential hmax ws_markers chunks depth = Ok out ->
  wf out /\ nrows out = nrows ws_markers /\ ncols out = ncols ws_markers.
Proof.
  intros Hs Hfin.
  destruct (direct_stages _ _ _ _ out Hfin)
    as (H & M & FP & NB & FL & SP & HH & HM & HFP & HNB & HFL & HSP & ->).
  pose proof (direct_sp_chunked _ _ _ _ Hs _ _ _ _ _ _ HH HM HFP HNB HFL HSP) as Hc.
  destruct (final_shape _ _ _ _ Hc) as (Hw & Hr & Hcn).
  by rewrite sum_chunk_sizes in Hr, Hcn.
Qed.

Lemma sentinel_final_shape hmax ws_markers chunks depth out :
  shape hmax = shape ws_markers ->
  SentinelBasinSharing.ws_final sequential hmax ws_markers chunks depth = Ok out ->
  wf out /\ nrows out = nrows ws_markers /\ ncols out = ncols ws_markers.
Proof.
  intros Hs Hfin.
  destruct (sentinel_stages _ _ _ _ out Hfin)
    as (H & M0 & M & FP & RM & MSP & MK & SP & FIN
        & HH & HM0 & HM & HFP & HRM & HMSP & HMK & HSP & HFIN & ->).
  pose proof (sentinel_fin_chunked _ _ _ _ Hs _ _ _ _ _ _ _ _ _
                HH HM0 HM HFP HRM HMSP HMK HSP HFIN) as Hc.
  destruct (final_shape _ _ _ _ Hc) as (Hw & Hr & Hcn).
  by rewrite sum_chunk_sizes in Hr, Hcn.
Qed.

Lemma boundary_label_pos ws_markers :
  marker_map ws_markers -> (0 < SentinelBasinSharing.boundary_label ws_markers)%Z.
Proof.
  intros Hm. unfold SentinelBasinSharing.boundary_label.
  pose proof (array_max_nonneg ws_markers Hm). lia.
Qed.

Lemma marker_map_pos ws_markers i j :
  marker_map ws_markers -> get 0%Z ws_markers i j <> 0%Z -> (0 < get 0%Z ws_markers i j)%Z.
Proof.
  intros Hm Hnz.
  pose proof (all_cells_get (fun v => (0 <= v)%Z) ws_markers i j (Z.le_refl 0) Hm) as H.
  cbv beta in H. lia.
Qed.

Lemma marker_map_check (a : ndarray Z) :
  forallb (fun v => (0 <=? v)%Z) (data a) = true -> marker_map a.
Proof.
  unfold marker_map, all_cells. induction (data a) as [|x l IH]; simpl; intros Hall v Hv.
  - by apply elem_of_nil in Hv.
  - apply andb_true_iff in Hall as [Hx Hl]. apply Z.leb_le in Hx.
    apply elem_of_cons in Hv as [->|Hv]; [done|by apply IH].
Qed.

(** * The properties of the specification *)

(** C2 (Sentinel never leaks).  In the SentinelBasinSharing pipeline, with
    the sentinel chosen as [max(seed labels) + 1] over a marker map, no
    cell of the composed, trimmed and reassembled output holds the
    sentinel label. *)
Theorem sentinel_never_leaks (hmax ws_markers : ndarray Z) (chunks : nat * nat)
    (depth : nat) (out : ndarray Z) :
  wf hmax -> wf ws_markers -> shape hmax = shape ws_markers ->
  marker_map ws_markers -> 1 <= depth ->
  SentinelBasinSharing.ws_final sequential hmax ws_markers chunks depth = Ok out ->
  all_cells (fun v => v <> SentinelBasinSharing.boundary_label ws_markers) out.
Proof.
  intros Hwh Hwm Hs Hmm _ Hfin v Hv.
  destruct (sentinel_final_shape _ _ _ _ _ Hs Hfin) as (Hwo & _ & _).
  destruct (elem_of_data_get 0%Z out v Hwo Hv) as (i & j & _ & _ & ->).
  apply (sentinel_no_leak hmax ws_markers chunks depth Hs out i j); [|done].
  pose proof (boundary_label_pos ws_markers Hmm). lia.
Qed.

Lemma sentinel_never_leaks_witness :
  all_cells (fun v => v <> 3%Z) (NdArray 2 4 [1; 1; 2; 2; 1; 1; 2; 2]%Z).
Proof.
  apply (sentinel_never_leaks (NdArray 2 4 [0; 0; 0; 0; 0; 0; 0; 0]%Z)
           (NdArray 2 4 [1; 0; 0; 2; 0; 0; 0; 0]%Z) (2, 2) 1).
  - reflexivity.
  - reflexivity.
  - reflexivity.
  - by apply marker_map_check.
  - lia.
  - vm_compute. reflexivity.
Defined.

(** C3 (Seed precedence).  Under either strategy, every cell of the domain
    whose original marker is nonzero keeps that marker's label in the
    reassembled output. *)
Theorem seed_precedence (hmax ws_markers : ndarray Z) (chunks : nat * nat)
    (depth : nat) (out : ndarray Z) (i j : nat) :
  wf hmax -> wf ws_markers -> shape hmax = shape ws_markers ->
  marker_map ws_markers -> 1 <= depth ->
  DirectSharing.ws_final sequential hmax ws_markers chunks depth = Ok out
  \/ SentinelBasinSharing.ws_final sequential hmax ws_markers chunks depth = Ok out ->
  i < nrows ws_markers -> j < ncols ws_markers ->
  get 0%Z ws_markers i j <> 0%Z ->
  get 0%Z out i j = get 0%Z ws_markers i j.
Proof.
  intros Hwh Hwm Hs Hmm _ Hfin Hi Hj Hnz.
  pose proof (marker_map_pos _ _ _ Hmm Hnz) as Hpos.
  destruct Hfin as [Hfin|Hfin].
  - by apply (direct_seed_kept hmax ws_markers chunks depth Hwm Hs).
  - by apply (sentinel_seed_kept hmax ws_markers chunks depth Hwm Hs).
Qed.

Lemma seed_precedence_witness :
  get 0%Z (NdArray 2 4 [1; 1; 2; 2; 1; 2; 1; 2]%Z) 0 3 = 2%Z
  /\ get 0%Z (NdArray 2 4 [1; 1; 2; 2; 1; 1; 2; 2]%Z) 0 3 = 2%Z.
Proof.
  split.
  - apply (seed_precedence (NdArray 2 4 [0; 0; 0; 0; 0; 0; 0; 0]%Z)
             (NdArray 2 4 [1; 0; 0; 2; 0; 0; 0; 0]%Z) (2, 2) 1).
    + reflexivity.
    + reflexivity.
    + reflexivity.
    + by apply marker_map_check.
    + lia.
    + left. vm_compute. reflexivity.
    + simpl. lia.
    + simpl. lia.
    + vm_compute. discriminate.
  - apply (seed_precedence (NdArray 2 4 [0; 0; 0; 0; 0; 0; 0; 0]%Z)
             (NdArray 2 4 [1; 0; 0; 2; 0; 0; 0; 0]%Z) (2, 2) 1).
    + reflexivity.
    + reflexivity.
    + reflexivity.
    + by apply marker_map_check.
    + lia.
    + right. vm_compute. reflexivity.
    + simpl. lia.
    + simpl. lia.
    + vm_compute. discriminate.
Defined.

(** C1 (Boundary continuity), evaluated.  On this 2x4 domain cut into two
    2x2 chunks the cells (0,1) and (0,2) lie in adjacent chunks, share a
    face and have the elevations 2 and 1: they are mutually reachable.
    The plain watershed [ws] of the validation cell gives both of them the
    label 1; DirectSharing gives them the labels 1 and 2, and the
    validation cell counts one error, at (0,2). *)
Lemma boundary_continuity_divergence :
  let hmax := NdArray 2 4 [0; 2; 1; 3; 4; 5; 6; 0]%Z in
  let ws_markers := NdArray 2 4 [1; 0; 0; 0; 0; 0; 0; 2]%Z in
  let rch := chunk_sizes 2 2 in
  let cch := chunk_sizes 4 2 in
  let reference := NdArray 2 4 [1; 1; 1; 2; 1; 1; 2; 2]%Z in
  let out := NdArray 2 4 [1; 1; 2; 2; 1; 1; 2; 2]%Z in
  ws hmax ws_markers = Ok reference
  /\ DirectSharing.ws_final sequential hmax ws_markers (2, 2) 1 = Ok out
  /\ adjacent (chunk_of rch cch (0, 1)) (chunk_of rch cch (0, 2))
  /\ mutually_reachable hmax (0, 1) (0, 2)
  /\ get 0%Z reference 0 1 = get 0%Z reference 0 2
  /\ get 0%Z out 0 1 <> get 0%Z out 0 2
  /\ ~ boundary_continuity hmax rch cch out
  /\ Validation.error_count (Validation.error reference out) = 1.
Proof.
  intros hmax ws_markers rch cch reference out.
  assert (Hadj : adjacent (chunk_of rch cch (0, 1)) (chunk_of rch cch (0, 2))).
  { left. split; [reflexivity|right; reflexivity]. }
  assert (Hreach : mutually_reachable hmax (0, 1) (0, 2)).
  { unfold mutually_reachable.
    apply (level_path_step _ _ (0, 1) (0, 2)).
    - split; simpl; lia.
    - vm_compute. discriminate.
    - left. split; [reflexivity|right; reflexivity].
    - apply level_path_end; [split; simpl; lia|]. vm_compute. discriminate. }
  split; [vm_compute; reflexivity|]. split; [vm_compute; reflexivity|].
  split; [exact Hadj|]. split; [exact Hreach|].
  split; [vm_compute; reflexivity|]. split; [vm_compute; discriminate|].
  split; [|vm_compute; reflexivity].
  intros Hbc. specialize (Hbc (0, 1) (0, 2) Hadj Hreach).
  vm_compute in Hbc. discriminate.
Qed.

(** C4 (Single-chunk equivalence), evaluated.  With [chunk_len = 400] the
    3x3 domain is one chunk, and the SentinelBasinSharing output differs
    from the plain watershed [ws] of the validation cell at cell (1,2);
    DirectSharing differs from it on a 2x2 domain at cell (1,0). *)
Lemma single_chunk_divergence :
  let hmax := NdArray 3 3 [7; 5; 1; 4; 0; 6; 3; 8; 2]%Z in
  let ws_markers := NdArray 3 3 [0; 0; 0; 1; 0; 0; 0; 0; 2]%Z in
  let hmax' := NdArray 2 2 [0; 2; 3; 1]%Z in
  let ws_markers' := NdArray 2 2 [0; 1; 0; 2]%Z in
  chunk_sizes 3 400 = [3]
  /\ SentinelBasinSharing.ws_final sequential hmax ws_markers (400, 400) 1
     = Ok (NdArray 3 3 [1; 1; 1; 1; 1; 1; 1; 2; 2]%Z)
  /\ ws hmax ws_markers = Ok (NdArray 3 3 [1; 1; 1; 1; 1; 2; 1; 2; 2]%Z)
  /\ DirectSharing.ws_final sequential hmax' ws_markers' (400, 400) 1
     = Ok (NdArray 2 2 [1; 1; 1; 2]%Z)
  /\ ws hmax' ws_markers' = Ok (NdArray 2 2 [1; 1; 2; 2]%Z).
Proof. repeat split; vm_compute; reflexivity. Qed.

(** The scenario of the specification: a 4x4 grid rising from left to
    right, cut into two 4x2 chunks with halo depth 1, seeds 1 at (0,0) and
    2 at (3,3).  Both strategies return the label map of the plain
    watershed. *)
Example rising_grid_scenario :
  let hmax := NdArray 4 4 [0; 1; 2; 3; 0; 1; 2; 3; 0; 1; 2; 3; 0; 1; 2; 3]%Z in
  let ws_markers := NdArray 4 4 [1; 0; 0; 0; 0; 0; 0; 0; 0; 0; 0; 0; 0; 0; 0; 2]%Z in
  let labels := NdArray 4 4 [1; 1; 1; 1; 1; 1; 1; 1; 1; 1; 1; 1; 1; 1; 1; 2]%Z in
  ws hmax ws_markers = Ok labels
  /\ DirectSharing.ws_final sequential hmax ws_markers (4, 2) 1 = Ok labels
  /\ SentinelBasinSharing.ws_final sequential hmax ws_markers (4, 2) 1 = Ok labels.
Proof. repeat split; vm_compute; reflexivity. Qed.

(** C7 (first-pass markers of SentinelBasinSharing), as amended.  In the
    first-pass marker image, a cell of a padded chunk holds the exchanged
    marker when that is positive: its own marker in the core, the
    neighbour's marker in a halo cell across an interior face, the
    sentinel in a halo cell beyond a domain edge.  Where the exchanged
    marker is not positive, a halo cell holds the sentinel and a core
    cell 0. *)
Theorem sentinel_first_pass_markers (ws_markers : ndarray Z) (chunks : nat * nat)
    (depth : nat) (M : darray Z) (bi bj a b : nat) :
  let rch := chunk_sizes (nrows ws_markers) (fst chunks) in
  let cch := chunk_sizes (ncols ws_markers) (snd chunks) in
  let bl := SentinelBasinSharing.boundary_label ws_markers in
  wf ws_markers -> 1 <= depth ->
  SentinelBasinSharing.ws_markers_op sequential ws_markers chunks depth = Ok M ->
  bi < length rch -> bj < length cch ->
  a < nth bi rch 0 + 2 * depth -> b < nth bj cch 0 + 2 * depth ->
  get 0%Z (get_block M bi bj) a b
  = let m := pad_source (Constant bl) depth ws_markers
               (offset rch bi + a) (offset cch bj + b) in
    if (0 <? m)%Z then m
    else if in_ring (nth bi rch 0 + 2 * depth) depth a
            || in_ring (nth bj cch 0 + 2 * depth) depth b
         then bl else 0%Z.
Proof.
  intros rch cch bl Hwm _ HM Hbi Hbj Ha Hb.
  unfold SentinelBasinSharing.ws_markers_op in HM. fold bl in HM.
  destruct (overlap (from_array 0%Z ws_markers chunks) depth (Constant bl))
    as [M0|] eqn:HM0; [|done].
  cbn [rbind] in HM.
  by apply (sentinel_m_cell ws_markers chunks depth Hwm M0 M HM0 HM).
Qed.

Lemma sentinel_first_pass_markers_witness :
  exists M,
    SentinelBasinSharing.ws_markers_op sequential
      (NdArray 2 4 [0; 0; 1; 0; 0; 0; 0; 0]%Z) (2, 2) 1 = Ok M
    /\ get 0%Z (get_block M 0 0) 1 3 = 1%Z.
Proof.
  eexists. split; [vm_compute; reflexivity|].
  rewrite (sentinel_first_pass_markers (NdArray 2 4 [0; 0; 1; 0; 0; 0; 0; 0]%Z) (2, 2) 1
             _ 0 0 1 3).
  - vm_compute. reflexivity.
  - reflexivity.
  - lia.
  - vm_compute. reflexivity.
  - simpl. lia.
  - simpl. lia.
  - simpl. lia.
  - simpl. lia.
Defined.

(** C7 as the specification words it fails: with a seed 1 in the first
    column of the right chunk, the halo cell (1,3) of the left chunk holds
    1, not the sentinel 2, although it is no core cell. *)
Lemma sentinel_halo_counterexample :
  let ws_markers := NdArray 2 4 [0; 0; 1; 0; 0; 0; 0; 0]%Z in
  exists M,
    SentinelBasinSharing.ws_markers_op sequential ws_markers (2, 2) 1 = Ok M
    /\ on_ring (get_block M 0 0) 1 1 3 = true
    /\ SentinelBasinSharing.boundary_label ws_markers = 2%Z
    /\ get 0%Z (get_block M 0 0) 1 3 <> 2%Z.
Proof.
  eexists. split; [vm_compute; reflexivity|].
  split; [vm_compute; reflexivity|]. split; [vm_compute; reflexivity|].
  vm_compute. discriminate.
Qed.

(** The label map read at a global cell is the label its own chunk holds
    for it. *)
Lemma get_compute_locate (g : darray Z) i j :
  i < sum_list (rchunks g) -> j < sum_list (cchunks g) ->
  get 0%Z (compute 0%Z g) i j
  = get 0%Z (get_block g (fst (locate (rchunks g) i)) (fst (locate (cchunks g) j)))
      (snd (locate (rchunks g) i)) (snd (locate (cchunks g) j)).
Proof.
  intros Hi Hj. unfold compute. rewrite get_tabulate by done.
  by destruct (locate (rchunks g) i), (locate (cchunks g) j).
Qed.

(** C8 (DirectSharing merged markers).  In the second-pass marker image
    of DirectSharing, a cell of a padded chunk holds its original
    (exchanged) marker when that is nonzero; otherwise, in the halo ring,
    the trimmed first-pass label that the fresh exchange puts there;
    otherwise 0.  Across an interior face the exchanged label is the one
    the neighbouring chunk holds for that cell after trimming (and beyond
    a domain edge the nearest label of the domain). *)
Theorem direct_merged_markers (hmax ws_markers : ndarray Z) (chunks : nat * nat)
    (depth : nat) (M FP FL : darray Z) (bi bj a b : nat) :
  let rch := chunk_sizes (nrows ws_markers) (fst chunks) in
  let cch := chunk_sizes (ncols ws_markers) (snd chunks) in
  let trimmed := trim_overlap 0%Z FP depth in
  let p := offset rch bi + a in
  let q := offset cch bj + b in
  let exchanged := pad_source Nearest depth (compute 0%Z trimmed) p q in
  wf hmax -> wf ws_markers -> shape hmax = shape ws_markers ->
  marker_map ws_markers -> 1 <= depth ->
  DirectSharing.ws_markers_op ws_markers chunks depth = Ok M ->
  DirectSharing.ws_fp sequential hmax ws_markers chunks depth = Ok FP ->
  DirectSharing.full_labels_op sequential hmax ws_markers chunks depth = Ok FL ->
  bi < length rch -> bj < length cch ->
  a < nth bi rch 0 + 2 * depth -> b < nth bj cch 0 + 2 * depth ->
  get 0%Z (get_block FL bi bj) a b
  = (let original := get 0%Z (get_block M bi bj) a b in
     if (original =? 0)%Z then
       if in_ring (nth bi rch 0 + 2 * depth) depth a
          || in_ring (nth bj cch 0 + 2 * depth) depth b
       then exchanged
       else 0%Z
     else original)
  /\ (depth <= p -> p < nrows ws_markers + depth ->
      depth <= q -> q < ncols ws_markers + depth ->
      exchanged
      = get 0%Z (get_block trimmed (fst (locate rch (p - depth)))
                                   (fst (locate cch (q - depth))))
          (snd (locate rch (p - depth))) (snd (locate cch (q - depth)))).
Proof.
  cbv zeta. intros Hwh Hwm Hs Hmm _ HM HFP HFL Hbi Hbj Ha Hb.
  set (rch := chunk_sizes (nrows ws_markers) (fst chunks)) in *.
  set (cch := chunk_sizes (ncols ws_markers) (snd chunks)) in *.
  unfold DirectSharing.full_labels_op, DirectSharing.ws_neighbors in HFL.
  rewrite HM, HFP in HFL. cbn [rbind] in HFL.
  destruct (overlap (trim_overlap 0%Z FP depth) depth Nearest) as [NB|] eqn:HNB; [|done].
  cbn [rbind] in HFL.
  unfold DirectSharing.ws_fp, DirectSharing.hmax_op in HFP.
  destruct (overlap (from_array 0%Z hmax chunks) depth Nearest) as [H|] eqn:HH; [|done].
  rewrite HM in HFP. cbn [rbind] in HFP.
  unfold DirectSharing.ws_markers_op in HM.
  pose proof (direct_markers_chunked ws_markers chunks depth M HM) as HcM.
  pose proof (direct_nb_chunked hmax ws_markers chunks depth Hs H M FP NB HH HM HFP HNB) as HcN.
  pose proof (direct_trimmed_fp_chunked hmax ws_markers chunks depth Hs H M FP HH HM HFP)
    as (_ & Htr & Htc).
  fold rch cch in HcM, HcN, Htr, Htc.
  assert (Hbi' : bi < length ((fun n => n + 2 * depth) <$> rch)) by (by rewrite length_fmap).
  assert (Hbj' : bj < length ((fun n => n + 2 * depth) <$> cch)) by (by rewrite length_fmap).
  destruct (chunked_block _ _ M bi bj HcM Hbi' Hbj') as (HwM & HrM & HcM').
  destruct (chunked_block _ _ NB bi bj HcN Hbi' Hbj') as (HwN & HrN & HcN').
  rewrite (nth_fmap_lt _ _ _ 0) in HrM, HrN by done.
  rewrite (nth_fmap_lt _ _ _ 0) in HcM', HcN' by done.
  split.
  - rewrite (direct_fl_blocks hmax ws_markers chunks depth Hs H M FP NB FL HH HM HFP HNB HFL)
      by done.
    rewrite direct_get_build_full_markers; [|done|unfold shape; congruence|lia|lia].
    assert (Hnn : (0 <= get 0%Z (get_block M bi bj) a b)%Z).
    { rewrite (get_overlap_block _ _ _ _ HM) by done.
      rewrite compute_from_array by done. simpl.
      apply (all_cells_get (fun v => (0 <= v)%Z)); [done|exact Hmm]. }
    unfold on_ring. rewrite HrN, HcN'.
    rewrite (get_overlap_block _ _ _ _ HNB) by (rewrite ?Htr, ?Htc; done).
    rewrite Htr, Htc.
    destruct (get 0%Z (get_block M bi bj) a b =? 0)%Z eqn:Hz.
    + apply Z.eqb_eq in Hz. rewrite Hz. done.
    + apply Z.eqb_neq in Hz. by rewrite (proj2 (Z.ltb_lt _ _)) by lia.
  - intros Hp1 Hp2 Hq1 Hq2.
    pose proof (sum_chunk_sizes (nrows ws_markers) (fst chunks)) as Hsr.
    pose proof (sum_chunk_sizes (ncols ws_markers) (snd chunks)) as Hsc.
    fold rch in Hsr. fold cch in Hsc.
    destruct (compute_shape 0%Z (trim_overlap 0%Z FP depth)) as (_ & Hnr & Hnc).
    rewrite Htr in Hnr. rewrite Htc in Hnc.
    rewrite pad_source_inside by lia.
    rewrite get_compute_locate by (rewrite ?Htr, ?Htc; lia).
    by rewrite Htr, Htc.
Qed.

Lemma direct_merged_markers_witness :
  exists FP FL,
    DirectSharing.ws_fp sequential (NdArray 2 4 [0; 0; 0; 0; 0; 0; 0; 0]%Z)
      (NdArray 2 4 [1; 0; 0; 2; 0; 0; 0; 0]%Z) (2, 2) 1 = Ok FP
    /\ DirectSharing.full_labels_op sequential (NdArray 2 4 [0; 0; 0; 0; 0; 0; 0; 0]%Z)
         (NdArray 2 4 [1; 0; 0; 2; 0; 0; 0; 0]%Z) (2, 2) 1 = Ok FL
    /\ get 0%Z (get_block FL 0 0) 2 3 = 2%Z
    /\ get 0%Z (get_block (trim_overlap 0%Z FP 1) 0 1) 1 0 = 2%Z.
Proof.
  eexists. eexists.
  split; [vm_compute; reflexivity|]. split; [vm_compute; reflexivity|].
  edestruct (fun M FP FL =>
               direct_merged_markers (NdArray 2 4 [0; 0; 0; 0; 0; 0; 0; 0]%Z)
                 (NdArray 2 4 [1; 0; 0; 2; 0; 0; 0; 0]%Z) (2, 2) 1 M FP FL 0 0 2 3)
    as [Hcell Hnb].
  - reflexivity.
  - reflexivity.
  - reflexivity.
  - by apply marker_map_check.
  - lia.
  - vm_compute. reflexivity.
  - vm_compute. reflexivity.
  - vm_compute. reflexivity.
  - simpl. lia.
  - simpl. lia.
  - simpl. lia.
  - simpl. lia.
  - split.
    + etransitivity; [exact Hcell|]. vm_compute. reflexivity.
    + etransitivity; [symmetry; apply Hnb; simpl; lia|]. vm_compute. reflexivity.
Defined.

(** ** The order of the per-chunk tasks *)

Lemma rbind_ext {A B} (m : result A) (k1 k2 : A -> result B) :
  (forall x, k1 x = k2 x) -> rbind m k1 = rbind m k2.
Proof. intros Hk. destruct m; simpl; [apply Hk|done]. Qed.

Section Scheduled.
Context (sched : list nat -> list nat).
Hypothesis Hsched : valid_schedule sched.

Lemma map_blocks_scheduled {X Y} (f : ndarray X -> result (ndarray Y)) x :
  (forall a e, f a = Err e -> e = EmptyMarkers) ->
  map_blocks (scheduled sched) f x = map_blocks sequential f x.
Proof using Hsched.
  intros Hf. unfold map_blocks.
  by rewrite (scheduled_sequential sched f _ EmptyMarkers Hsched Hf).
Qed.

Lemma map_blocks2_scheduled {X1 X2 Y} (f : ndarray X1 -> ndarray X2 -> result (ndarray Y))
    x y :
  (forall a b e, f a b = Err e -> e = EmptyMarkers) ->
  map_blocks2 (scheduled sched) f x y = map_blocks2 sequential f x y.
Proof using Hsched.
  intros Hf. unfold map_blocks2.
  rewrite (scheduled_sequential sched _ _ EmptyMarkers Hsched); [done|].
  intros [a b] e. apply Hf.
Qed.

Lemma map_blocks3_scheduled {X1 X2 X3 Y}
    (f : ndarray X1 -> ndarray X2 -> ndarray X3 -> result (ndarray Y)) x y z :
  (forall a b c e, f a b c = Err e -> e = EmptyMarkers) ->
  map_blocks3 (scheduled sched) f x y z = map_blocks3 sequential f x y z.
Proof using Hsched.
  intros Hf. unfold map_blocks3.
  rewrite (scheduled_sequential sched _ _ EmptyMarkers Hsched); [done|].
  intros [[a b] c] e. apply Hf.
Qed.

Context (hmax ws_markers : ndarray Z) (chunks : nat * nat) (depth : nat).

Lemma direct_ws_fp_scheduled :
  DirectSharing.ws_fp (scheduled sched) hmax ws_markers chunks depth
  = DirectSharing.ws_fp sequential hmax ws_markers chunks depth.
Proof using Hsched.
  unfold DirectSharing.ws_fp. do 2 (apply rbind_ext; intros ?).
  apply map_blocks2_scheduled. intros a b e. apply watershed_err.
Qed.

Lemma direct_full_labels_scheduled :
  DirectSharing.full_labels_op (scheduled sched) hmax ws_markers chunks depth
  = DirectSharing.full_labels_op sequential hmax ws_markers chunks depth.
Proof using Hsched.
  unfold DirectSharing.full_labels_op, DirectSharing.ws_neighbors.
  rewrite direct_ws_fp_scheduled. do 2 (apply rbind_ext; intros ?).
  by apply map_blocks2_scheduled.
Qed.

Lemma direct_scheduled :
  DirectSharing.ws_final (scheduled sched) hmax ws_markers chunks depth
  = DirectSharing.ws_final sequential hmax ws_markers chunks depth.
Proof using Hsched.
  unfold DirectSharing.ws_final, DirectSharing.ws_sp_op.
  rewrite direct_full_labels_scheduled. f_equal.
  do 2 (apply rbind_ext; intros ?).
  apply map_blocks2_scheduled. intros a b e. apply watershed_err.
Qed.

Lemma sentinel_markers_scheduled :
  SentinelBasinSharing.ws_markers_op (scheduled sched) ws_markers chunks depth
  = SentinelBasinSharing.ws_markers_op sequential ws_markers chunks depth.
Proof using Hsched.
  unfold SentinelBasinSharing.ws_markers_op. apply rbind_ext; intros ?.
  by apply map_blocks_scheduled.
Qed.

Lemma sentinel_ws_fp_scheduled :
  SentinelBasinSharing.ws_fp (scheduled sched) hmax ws_markers chunks depth
  = SentinelBasinSharing.ws_fp sequential hmax ws_markers chunks depth.
Proof using Hsched.
  unfold SentinelBasinSharing.ws_fp. rewrite sentinel_markers_scheduled.
  do 2 (apply rbind_ext; intros ?).
  apply map_blocks2_scheduled. intros a b e. apply watershed_err.
Qed.

Lemma sentinel_markers_sp_scheduled :
  SentinelBasinSharing.ws_markers_sp (scheduled sched) hmax ws_markers chunks depth
  = SentinelBasinSharing.ws_markers_sp sequential hmax ws_markers chunks depth.
Proof using Hsched.
  unfold SentinelBasinSharing.ws_markers_sp. rewrite sentinel_ws_fp_scheduled.
  apply rbind_ext; intros ?. f_equal. by apply map_blocks_scheduled.
Qed.

Lemma sentinel_mask_scheduled :
  SentinelBasinSharing.ws_mask (scheduled sched) hmax ws_markers chunks depth
  = SentinelBasinSharing.ws_mask sequential hmax ws_markers chunks depth.
Proof using Hsched.
  unfold SentinelBasinSharing.ws_mask. rewrite sentinel_ws_fp_scheduled.
  apply rbind_ext; intros ?. by apply map_blocks_scheduled.
Qed.

Lemma sentinel_ws_sp_scheduled :
  SentinelBasinSharing.ws_sp (scheduled sched) hmax ws_markers chunks depth
  = SentinelBasinSharing.ws_sp sequential hmax ws_markers chunks depth.
Proof using Hsched.
  unfold SentinelBasinSharing.ws_sp.
  rewrite sentinel_markers_sp_scheduled, sentinel_mask_scheduled.
  do 3 (apply rbind_ext; intros ?).
  apply map_blocks3_scheduled. intros a b c e. apply watershed_err.
Qed.

Lemma sentinel_scheduled :
  SentinelBasinSharing.ws_final (scheduled sched) hmax ws_markers chunks depth
  = SentinelBasinSharing.ws_final sequential hmax ws_markers chunks depth.
Proof using Hsched.
  unfold SentinelBasinSharing.ws_final.
  rewrite sentinel_ws_fp_scheduled, sentinel_ws_sp_scheduled, sentinel_mask_scheduled.
  do 3 (apply rbind_ext; intros ?). f_equal.
  by apply map_blocks3_scheduled.
Qed.
End Scheduled.

(** C6 (Determinism).  The pipeline is a function of its inputs, and the
    order in which the per-chunk tasks of each stage are run does not show
    in the result: under either strategy, two runs on the same elevation,
    markers, chunk shape and halo depth with any two schedules give the
    same outcome, the same label map or the same failure. *)
Theorem determinism (sched1 sched2 : list nat -> list nat)
    (hmax ws_markers : ndarray Z) (chunks : nat * nat) (depth : nat) :
  valid_schedule sched1 -> valid_schedule sched2 ->
  DirectSharing.ws_final (scheduled sched1) hmax ws_markers chunks depth
  = DirectSharing.ws_final (scheduled sched2) hmax ws_markers chunks depth
  /\ SentinelBasinSharing.ws_final (scheduled sched1) hmax ws_markers chunks depth
     = SentinelBasinSharing.ws_final (scheduled sched2) hmax ws_markers chunks depth.
Proof.
  intros H1 H2. split.
  - by rewrite !direct_scheduled.
  - by rewrite !sentinel_scheduled.
Qed.

Lemma determinism_witness :
  let hmax := NdArray 2 4 [3; 1; 4; 1; 5; 9; 2; 6]%Z in
  let ws_markers := NdArray 2 4 [1; 0; 0; 2; 0; 0; 0; 0]%Z in
  DirectSharing.ws_final (scheduled reverse) hmax ws_markers (2, 2) 1
  = DirectSharing.ws_final (scheduled (fun l => l)) hmax ws_markers (2, 2) 1
  /\ SentinelBasinSharing.ws_final (scheduled reverse) hmax ws_markers (2, 2) 1
     = SentinelBasinSharing.ws_final (scheduled (fun l => l)) hmax ws_markers (2, 2) 1.
Proof.
  apply determinism.
  - intros l. apply reverse_Permutation.
  - intros l. reflexivity.
Defined.

(** ** The helpers on the store *)

Lemma fresh_lookup (h : gmap nat Store.value) : h !! fresh (dom h) = None.
Proof. apply not_elem_of_dom. apply is_fresh. Qed.

Lemma select_length {A} (m : list bool) (xs : list A) :
  length m <= length xs ->
  length (select m xs) = length (filter (fun b => b = true) m).
Proof.
  revert xs. induction m as [|b m IH]; intros [|x xs] Hl; simpl in *; try done; try lia.
  destruct b.
  - rewrite filter_cons_True by done. simpl. rewrite IH by lia. done.
  - rewrite filter_cons_False by done. apply IH. lia.
Qed.

Lemma same_shape_true {A B} (a : ndarray A) (b : ndarray B) :
  nrows a = nrows b -> ncols a = ncols b -> Store.same_shape a b = true.
Proof.
  intros Hr Hc. unfold Store.same_shape. by rewrite Hr, Hc, !Nat.eqb_refl.
Qed.

Lemma run_bind {A B} (m : Store.prog A) (k : A -> Store.prog B) h :
  Store.run (Store.bind m k) h
  = match Store.run m h with
    | (Some x, h') => Store.run (k x) h'
    | (None, h') => (None, h')
    end.
Proof. done. Qed.

Lemma run_load_int h x a :
  h !! x = Some (Store.VInt a) -> Store.run (Store.load_int x) h = (Some a, h).
Proof. intros Hx. unfold Store.load_int; simpl. by rewrite Hx. Qed.

Lemma run_load_bool h x m :
  h !! x = Some (Store.VBool m) -> Store.run (Store.load_bool x) h = (Some m, h).
Proof. intros Hx. unfold Store.load_bool; simpl. by rewrite Hx. Qed.

Lemma run_copy h x a :
  h !! x = Some (Store.VInt a) ->
  Store.run (Store.copy x) h = (Some (fresh (dom h)), <[fresh (dom h) := Store.VInt a]> h).
Proof. intros Hx. unfold Store.copy. by rewrite run_bind, (run_load_int h x a). Qed.

Lemma run_eq_op h x a v :
  h !! x = Some (Store.VInt a) ->
  Store.run (Store.eq_op x v) h
  = (Some (fresh (dom h)), <[fresh (dom h) := Store.VBool (eq_scalar a v)]> h).
Proof. intros Hx. unfold Store.eq_op. by rewrite run_bind, (run_load_int h x a). Qed.

Lemma run_getitem h x m a mk :
  h !! x = Some (Store.VInt a) -> h !! m = Some (Store.VBool mk) ->
  Store.same_shape a mk = true ->
  Store.run (Store.getitem x m) h
  = (Some (fresh (dom h)),
     <[fresh (dom h) := Store.VInt (NdArray 1 (length (getitem_mask a mk)) (getitem_mask a mk))]> h).
Proof.
  intros Hx Hm Hs. unfold Store.getitem.
  rewrite run_bind, (run_load_int h x a) by done.
  rewrite run_bind, (run_load_bool h m mk) by done. by rewrite Hs.
Qed.

Lemma run_setitem h x m vals a mk v :
  h !! x = Some (Store.VInt a) -> h !! m = Some (Store.VBool mk) ->
  h !! vals = Some (Store.VInt v) ->
  Store.same_shape a mk = true ->
  length (data v) = length (filter (fun b => b = true) (data mk)) ->
  Store.run (Store.setitem x m vals) h
  = (Some tt, <[x := Store.VInt (setitem_mask a mk (data v))]> h).
Proof.
  intros Hx Hm Hv Hs Hl. unfold Store.setitem.
  rewrite run_bind, (run_load_int h x a) by done.
  rewrite run_bind, (run_load_bool h m mk) by done.
  rewrite run_bind, (run_load_int h vals v) by done.
  by rewrite Hs, Hl, Nat.eqb_refl.
Qed.

Lemma run_setitem_scalar h x m a mk v :
  h !! x = Some (Store.VInt a) -> h !! m = Some (Store.VBool mk) ->
  Store.same_shape a mk = true ->
  Store.run (Store.setitem_scalar x m v) h
  = (Some tt, <[x := Store.VInt (setitem_mask_scalar a mk v)]> h).
Proof.
  intros Hx Hm Hs. unfold Store.setitem_scalar.
  rewrite run_bind, (run_load_int h x a) by done.
  rewrite run_bind, (run_load_bool h m mk) by done. by rewrite Hs.
Qed.

Lemma touches_load_int h x r h' :
  Store.run (Store.load_int x) h = (r, h') -> h' = h.
Proof. unfold Store.load_int; simpl. destruct (h !! x) as [[?|?]|]; congruence. Qed.

Lemma touches_load_bool h x r h' :
  Store.run (Store.load_bool x) h = (r, h') -> h' = h.
Proof. unfold Store.load_bool; simpl. destruct (h !! x) as [[?|?]|]; congruence. Qed.

Lemma touches_copy h x r h' :
  Store.run (Store.copy x) h = (r, h') ->
  (r = None /\ h' = h) \/ (r = Some (fresh (dom h)) /\ exists v, h' = <[fresh (dom h) := v]> h).
Proof.
  unfold Store.copy. rewrite run_bind.
  destruct (Store.run (Store.load_int x) h) as [[a|] h1] eqn:H1;
    apply touches_load_int in H1 as ->; simpl; intros [= <- <-]; eauto.
Qed.

Lemma touches_getitem h x m r h' :
  Store.run (Store.getitem x m) h = (r, h') -> touches None h h'.
Proof.
  unfold Store.getitem. rewrite run_bind.
  destruct (Store.run (Store.load_int x) h) as [[a|] h1] eqn:H1;
    apply touches_load_int in H1 as ->; [|intros [= _ <-]; by left].
  rewrite run_bind.
  destruct (Store.run (Store.load_bool m) h) as [[mk|] h1] eqn:H1;
    apply touches_load_bool in H1 as ->; [|intros [= _ <-]; by left].
  destruct (Store.same_shape a mk); simpl; intros [= _ <-]; [right; left; eauto|by left].
Qed.

Lemma touches_eq_op h x v r h' :
  Store.run (Store.eq_op x v) h = (r, h') -> touches None h h'.
Proof.
  unfold Store.eq_op. rewrite run_bind.
  destruct (Store.run (Store.load_int x) h) as [[a|] h1] eqn:H1;
    apply touches_load_int in H1 as ->; simpl; intros [= _ <-];
    [right; left; eauto|by left].
Qed.

Lemma touches_setitem h x m vals r h' :
  Store.run (Store.setitem x m vals) h = (r, h') -> touches (Some x) h h'.
Proof.
  unfold Store.setitem. rewrite run_bind.
  destruct (Store.run (Store.load_int x) h) as [[a|] h1] eqn:H1;
    apply touches_load_int in H1 as ->; [|intros [= _ <-]; by left].
  rewrite run_bind.
  destruct (Store.run (Store.load_bool m) h) as [[mk|] h1] eqn:H1;
    apply touches_load_bool in H1 as ->; [|intros [= _ <-]; by left].
  rewrite run_bind.
  destruct (Store.run (Store.load_int vals) h) as [[v|] h1] eqn:H1;
    apply touches_load_int in H1 as ->; [|intros [= _ <-]; by left].
  destruct (_ && _); simpl; intros [= _ <-]; [right; right; eauto|by left].
Qed.

Lemma touches_setitem_scalar h x m v r h' :
  Store.run (Store.setitem_scalar x m v) h = (r, h') -> touches (Some x) h h'.
Proof.
  unfold Store.setitem_scalar. rewrite run_bind.
  destruct (Store.run (Store.load_int x) h) as [[a|] h1] eqn:H1;
    apply touches_load_int in H1 as ->; [|intros [= _ <-]; by left].
  rewrite run_bind.
  destruct (Store.run (Store.load_bool m) h) as [[mk|] h1] eqn:H1;
    apply touches_load_bool in H1 as ->; [|intros [= _ <-]; by left].
  destruct (Store.same_shape a mk); simpl; intros [= _ <-]; [right; right; eauto|by left].
Qed.

Lemma keeps_refl h : keeps h h.
Proof. by intros l v Hl. Qed.

Lemma keeps_touches h0 x h h' :
  keeps h0 h -> touches x h h' ->
  (forall l, x = Some l -> h0 !! l = None) -> keeps h0 h'.
Proof.
  intros Hk [->|[[v ->]|(l & v & -> & ->)]] Hx; [done| |].
  - intros l w Hl. rewrite lookup_insert_ne; [by apply Hk|].
    intros <-. apply Hk in Hl. pose proof (fresh_lookup h). congruence.
  - intros l' w Hl. rewrite lookup_insert_ne; [by apply Hk|].
    intros <-. specialize (Hx l eq_refl). congruence.
Qed.

(** Neither helper writes to an array that was in the store before the
    call, whatever the arguments are and whether or not the call fails. *)
Lemma store_remove_label_frame (h h' : gmap nat Store.value) chunk label r :
  Store.run (Store.remove_label chunk label) h = (r, h') -> keeps h h'.
Proof.
  unfold Store.remove_label. rewrite run_bind.
  destruct (Store.run (Store.copy chunk) h) as [[out|] h1] eqn:H1; cbv beta iota.
  - apply touches_copy in H1 as [[? _]|[[= ->] [v ->]]]; [done|].
    assert (Hk1 : keeps h (<[fresh (dom h) := v]> h)).
    { apply (keeps_touches h None h); [apply keeps_refl|right; left; eauto|done]. }
    rewrite run_bind.
    destruct (Store.run (Store.eq_op _ _) _) as [[t|] h2] eqn:H2; cbv beta iota;
      apply touches_eq_op in H2;
      pose proof (keeps_touches h None _ h2 Hk1 H2 ltac:(done)) as Hk2.
    + rewrite run_bind.
      destruct (Store.run (Store.setitem_scalar _ t 0%Z) h2) as [[u|] h3] eqn:H3; cbv beta iota;
        apply touches_setitem_scalar in H3;
        assert (keeps h h3) as Hk3
          by (apply (keeps_touches h (Some (fresh (dom h))) h2 h3 Hk2 H3);
              intros l [= <-]; apply fresh_lookup);
        cbn [Store.run Store.ret]; by intros [= _ <-].
    + by intros [= _ <-].
  - apply touches_copy in H1 as [[_ ->]|[? _]]; [|done]. intros [= _ <-]. apply keeps_refl.
Qed.

Lemma store_compose_frame (h h' : gmap nat Store.value) fp sp mask r :
  Store.run (Store.compose fp sp mask) h = (r, h') -> keeps h h'.
Proof.
  unfold Store.compose. rewrite run_bind.
  destruct (Store.run (Store.copy fp) h) as [[out|] h1] eqn:H1; cbv beta iota.
  - apply touches_copy in H1 as [[? _]|[[= ->] [v ->]]]; [done|].
    assert (Hk1 : keeps h (<[fresh (dom h) := v]> h)).
    { apply (keeps_touches h None h); [apply keeps_refl|right; left; eauto|done]. }
    rewrite run_bind.
    destruct (Store.run (Store.getitem _ _) _) as [[t|] h2] eqn:H2; cbv beta iota;
      apply touches_getitem in H2;
      pose proof (keeps_touches h None _ h2 Hk1 H2 ltac:(done)) as Hk2.
    + rewrite run_bind.
      destruct (Store.run (Store.setitem _ mask t) h2) as [[u|] h3] eqn:H3; cbv beta iota;
        apply touches_setitem in H3;
        assert (keeps h h3) as Hk3
          by (apply (keeps_touches h (Some (fresh (dom h))) h2 h3 Hk2 H3);
              intros l [= <-]; apply fresh_lookup);
        cbn [Store.run Store.ret]; by intros [= _ <-].
    + by intros [= _ <-].
  - apply touches_copy in H1 as [[_ ->]|[? _]]; [|done]. intros [= _ <-]. apply keeps_refl.
Qed.

(** Running [remove_label] on an integer array. *)
Lemma store_remove_label_run (h : gmap nat Store.value) chunk label a :
  h !! chunk = Some (Store.VInt a) ->
  exists h',
    Store.run (Store.remove_label chunk label) h = (Some (fresh (dom h)), h')
    /\ h' !! fresh (dom h)
       = Some (Store.VInt (SentinelBasinSharing.remove_label a label)).
Proof.
  intros Hc. unfold Store.remove_label.
  rewrite run_bind, (run_copy h chunk a) by done. cbv beta iota.
  remember (fresh (dom h)) as out eqn:Eout.
  remember (<[out := Store.VInt a]> h) as h1 eqn:Eh1.
  assert (Ho1 : h1 !! out = Some (Store.VInt a)) by (subst h1; apply lookup_insert_eq).
  rewrite run_bind, (run_eq_op h1 out a) by done. cbv beta iota.
  pose proof (fresh_lookup h1) as Ht.
  remember (fresh (dom h1)) as t eqn:Et.
  assert (Hne : t <> out) by congruence.
  remember (<[t := Store.VBool (eq_scalar a label)]> h1) as h2 eqn:Eh2.
  assert (Ho2 : h2 !! out = Some (Store.VInt a)) by (subst h2; by rewrite lookup_insert_ne).
  assert (Ht2 : h2 !! t = Some (Store.VBool (eq_scalar a label)))
    by (subst h2; apply lookup_insert_eq).
  rewrite run_bind, (run_setitem_scalar h2 out t a (eq_scalar a label))
    by (done || by apply same_shape_true).
  cbv beta iota. eexists. split; [reflexivity|]. by rewrite lookup_insert_eq.
Qed.

(** Running [compose] on arrays of one shape. *)
Lemma store_compose_run (h : gmap nat Store.value) fp sp mask a b m :
  h !! fp = Some (Store.VInt a) -> h !! sp = Some (Store.VInt b) ->
  h !! mask = Some (Store.VBool m) ->
  wf b -> wf m -> shape b = shape a -> shape m = shape a ->
  exists h',
    Store.run (Store.compose fp sp mask) h = (Some (fresh (dom h)), h')
    /\ h' !! fresh (dom h)
       = Some (Store.VInt (SentinelBasinSharing.compose a b m)).
Proof.
  intros Hfp Hsp Hmk Hwb Hwm Hsb Hsm.
  injection Hsb as Hbr Hbc. injection Hsm as Hmr Hmc.
  unfold Store.compose.
  rewrite run_bind, (run_copy h fp a) by done. cbv beta iota.
  pose proof (fresh_lookup h) as Hout.
  remember (fresh (dom h)) as out eqn:Eout.
  remember (<[out := Store.VInt a]> h) as h1 eqn:Eh1.
  assert (Ho1 : h1 !! out = Some (Store.VInt a)) by (subst h1; apply lookup_insert_eq).
  assert (Hsp1 : h1 !! sp = Some (Store.VInt b)).
  { subst h1. rewrite lookup_insert_ne; [done|]. intros <-. congruence. }
  assert (Hmk1 : h1 !! mask = Some (Store.VBool m)).
  { subst h1. rewrite lookup_insert_ne; [done|]. intros <-. congruence. }
  rewrite run_bind, (run_getitem h1 sp mask b m) by (done || apply same_shape_true; congruence).
  cbv beta iota.
  pose proof (fresh_lookup h1) as Ht.
  remember (fresh (dom h1)) as t eqn:Et.
  remember (Store.VInt (NdArray 1 (length (getitem_mask b m)) (getitem_mask b m))) as sel
    eqn:Esel.
  remember (<[t := sel]> h1) as h2 eqn:Eh2.
  assert (Ho2 : h2 !! out = Some (Store.VInt a)).
  { subst h2. rewrite lookup_insert_ne; [done|]. congruence. }
  assert (Hmk2 : h2 !! mask = Some (Store.VBool m)).
  { subst h2. rewrite lookup_insert_ne; [done|]. congruence. }
  assert (Ht2 : h2 !! t = Some sel) by (subst h2; apply lookup_insert_eq).
  subst sel.
  rewrite run_bind.
  rewrite (run_setitem h2 out mask t a m _ Ho2 Hmk2 Ht2).
  - cbv beta iota. eexists. split; [reflexivity|]. by rewrite lookup_insert_eq.
  - apply same_shape_true; congruence.
  - simpl. unfold getitem_mask. apply select_length. unfold wf in *. nia.
Qed.

(** C10 (the per-chunk helpers do not mutate their arguments).  Whatever
    the store and the arguments are, and whether the call returns or
    fails, every array that was in the store before a call of
    [remove_label] or [compose] holds the same values after it.  On an
    integer array [remove_label] returns a freshly allocated array, and on
    arrays of one shape so does [compose]; the fresh arrays hold the
    values the pipeline uses, and the output of [compose] is [fp_chunk]
    wherever [mask_chunk] is false. *)
Theorem helpers_do_not_mutate (h : gmap nat Store.value) (x y z : nat) (label : Z) :
  (forall r h', Store.run (Store.remove_label x label) h = (r, h') -> keeps h h')
  /\ (forall r h', Store.run (Store.compose x y z) h = (r, h') -> keeps h h')
  /\ (forall a,
        h !! x = Some (Store.VInt a) ->
        exists out h',
          Store.run (Store.remove_label x label) h = (Some out, h')
          /\ h !! out = None
          /\ h' !! out = Some (Store.VInt (SentinelBasinSharing.remove_label a label)))
  /\ (forall a b m,
        h !! x = Some (Store.VInt a) -> h !! y = Some (Store.VInt b) ->
        h !! z = Some (Store.VBool m) ->
        wf a -> wf b -> wf m -> shape b = shape a -> shape m = shape a ->
        exists out h',
          Store.run (Store.compose x y z) h = (Some out, h')
          /\ h !! out = None
          /\ h' !! out = Some (Store.VInt (SentinelBasinSharing.compose a b m))
          /\ forall i j, get false m i j = false ->
               get 0%Z (SentinelBasinSharing.compose a b m) i j = get 0%Z a i j).
Proof.
  split; [intros r h'; apply store_remove_label_frame|].
  split; [intros r h'; apply store_compose_frame|].
  split.
  - intros a Hx.
    destruct (store_remove_label_run h x label a Hx) as (h' & Hrun & Hout).
    exists (fresh (dom h)), h'. split; [done|]. split; [apply fresh_lookup|done].
  - intros a b m Hx Hy Hz Hwa Hwb Hwm Hsb Hsm.
    destruct (store_compose_run h x y z a b m) as (h' & Hrun & Hout); try done.
    exists (fresh (dom h)), h'. split; [done|]. split; [apply fresh_lookup|].
    split; [done|]. intros i j Hm.
    destruct (decide (i < nrows a /\ j < ncols a)) as [[Hi Hj]|Hnr].
    + rewrite get_compose by done. by rewrite Hm.
    + rewrite !get_out_of_range; done.
Qed.

Lemma helpers_do_not_mutate_witness :
  let fp := NdArray 2 2 [1; 5; 5; 2]%Z in
  let sp := NdArray 2 2 [7; 8; 9; 10]%Z in
  let mask := NdArray 2 2 [true; false; false; true] in
  let h : gmap nat Store.value :=
    <[0 := Store.VInt fp]> (<[1 := Store.VInt sp]> (<[2 := Store.VBool mask]> ∅)) in
  (exists out h',
     Store.run (Store.remove_label 0 5%Z) h = (Some out, h')
     /\ h !! out = None
     /\ h' !! out = Some (Store.VInt (NdArray 2 2 [1; 0; 0; 2]%Z))
     /\ keeps h h')
  /\ (exists out h',
        Store.run (Store.compose 0 1 2) h = (Some out, h')
        /\ h !! out = None
        /\ h' !! out = Some (Store.VInt (NdArray 2 2 [7; 5; 5; 10]%Z))
        /\ keeps h h').
Proof.
  intros fp sp mask h.
  destruct (helpers_do_not_mutate h 0 1 2 5%Z) as (Hf1 & Hf2 & Hrun1 & Hrun2).
  split.
  - destruct (Hrun1 fp) as (out & h' & Hrun & Hfresh & Hout); [reflexivity|].
    exists out, h'. split; [done|]. split; [done|]. split; [exact Hout|].
    by apply (Hf1 (Some out)).
  - destruct (Hrun2 fp sp mask) as (out & h' & Hrun & Hfresh & Hout & _);
      try reflexivity.
    exists out, h'. split; [done|]. split; [done|]. split; [exact Hout|].
    by apply (Hf2 (Some out)).
Defined.

(** ** The ring helpers, cell by cell *)

Lemma grab_overlap_shape chunk depth :
  wf (DirectSharing.grab_overlap chunk depth)
  /\ nrows (DirectSharing.grab_overlap chunk depth) = nrows chunk
  /\ ncols (DirectSharing.grab_overlap chunk depth) = ncols chunk.
Proof.
  unfold DirectSharing.grab_overlap.
  destruct (ring_fill_shape chunk depth (get 0%Z chunk)) as [Hwf Hs].
  split; [exact Hwf|done].
Qed.

Lemma get_grab_overlap chunk depth i j :
  i < nrows chunk -> j < ncols chunk ->
  get 0%Z (DirectSharing.grab_overlap chunk depth) i j
  = if on_ring chunk depth i j then get 0%Z chunk i j else 0%Z.
Proof. intros Hi Hj. unfold DirectSharing.grab_overlap. by rewrite get_ring_fill. Qed.

Lemma mask_overlap_shape chunk depth label :
  wf (SentinelBasinSharing.mask_overlap chunk depth label)
  /\ nrows (SentinelBasinSharing.mask_overlap chunk depth label) = nrows chunk
  /\ ncols (SentinelBasinSharing.mask_overlap chunk depth label) = ncols chunk.
Proof.
  unfold SentinelBasinSharing.mask_overlap.
  destruct (ring_fill_shape chunk depth (fun _ _ => label)) as [Hwf Hs].
  split; [exact Hwf|done].
Qed.

Lemma get_mask_overlap chunk depth label i j :
  i < nrows chunk -> j < ncols chunk ->
  get 0%Z (SentinelBasinSharing.mask_overlap chunk depth label) i j
  = if on_ring chunk depth i j then label else 0%Z.
Proof. intros Hi Hj. unfold SentinelBasinSharing.mask_overlap. by rewrite get_ring_fill. Qed.

Lemma on_ring_shape {A B} (a : ndarray A) (b : ndarray B) depth i j :
  nrows a = nrows b -> ncols a = ncols b -> on_ring a depth i j = on_ring b depth i j.
Proof. intros Hr Hc. unfold on_ring. by rewrite Hr, Hc. Qed.

Lemma in_ring_thin n depth i : n <= 2 * depth -> i < n -> in_ring n depth i = true.
Proof.
  intros Hn Hi. unfold in_ring. apply orb_true_iff.
  destruct (decide (i < depth)) as [Hlt|Hge].
  - left. by apply Nat.ltb_lt.
  - right. apply Nat.leb_le. lia.
Qed.

Lemma all_cells_lookup (P : Z -> Prop) a i j :
  wf a -> all_cells P a -> i < nrows a -> j < ncols a -> P (get 0%Z a i j).
Proof.
  intros Hwf Ha Hi Hj. apply Ha.
  eapply list_elem_of_lookup_2. by apply (get_data 0%Z).
Qed.

(** * Further properties of the code *)

(** ** The helper functions *)

(** X1 (grab_overlap, cell by cell).  [grab_overlap(chunk, depth)] has the
    shape of [chunk]; a cell within [depth] of a face keeps the value of
    [chunk], every other cell is [0]. *)
Theorem grab_overlap_cells (chunk : ndarray Z) (depth i j : nat) :
  1 <= depth -> i < nrows chunk -> j < ncols chunk ->
  shape (DirectSharing.grab_overlap chunk depth) = shape chunk
  /\ get 0%Z (DirectSharing.grab_overlap chunk depth) i j
     = if (i <? depth) || (nrows chunk - depth <=? i)
          || ((j <? depth) || (ncols chunk - depth <=? j))
       then get 0%Z chunk i j else 0%Z.
Proof.
  intros _ Hi Hj. split.
  - destruct (grab_overlap_shape chunk depth) as (_ & Hr & Hc). unfold shape. by rewrite Hr, Hc.
  - by rewrite get_grab_overlap.
Qed.

Lemma grab_overlap_cells_witness :
  shape (DirectSharing.grab_overlap (NdArray 3 3 [1; 2; 3; 4; 5; 6; 7; 8; 9]%Z) 1) = (3, 3)
  /\ get 0%Z (DirectSharing.grab_overlap (NdArray 3 3 [1; 2; 3; 4; 5; 6; 7; 8; 9]%Z) 1) 1 1
     = 0%Z.
Proof.
  apply (grab_overlap_cells (NdArray 3 3 [1; 2; 3; 4; 5; 6; 7; 8; 9]%Z) 1 1 1); simpl; lia.
Defined.

(** X2 (grab_overlap is idempotent).  Taking the ring of a ring changes
    nothing: [grab_overlap(grab_overlap(chunk, depth), depth)] is
    [grab_overlap(chunk, depth)]. *)
Theorem grab_overlap_idempotent (chunk : ndarray Z) (depth : nat) :
  1 <= depth -> 0 < nrows chunk -> 0 < ncols chunk ->
  DirectSharing.grab_overlap (DirectSharing.grab_overlap chunk depth) depth
  = DirectSharing.grab_overlap chunk depth.
Proof.
  intros _ _ _.
  destruct (grab_overlap_shape chunk depth) as (Hwf & Hr & Hc).
  destruct (grab_overlap_shape (DirectSharing.grab_overlap chunk depth) depth)
    as (Hwf' & Hr' & Hc').
  apply (ndarray_ext 0%Z); [done|done|unfold shape; congruence|].
  intros i j Hi Hj. rewrite Hr', Hr in Hi. rewrite Hc', Hc in Hj.
  rewrite get_grab_overlap by lia.
  rewrite (on_ring_shape _ chunk) by done.
  rewrite get_grab_overlap by done.
  by destruct (on_ring chunk depth i j).
Qed.

Lemma grab_overlap_idempotent_witness :
  DirectSharing.grab_overlap
    (DirectSharing.grab_overlap (NdArray 3 3 [1; 2; 3; 4; 5; 6; 7; 8; 9]%Z) 1) 1
  = DirectSharing.grab_overlap (NdArray 3 3 [1; 2; 3; 4; 5; 6; 7; 8; 9]%Z) 1.
Proof. apply grab_overlap_idempotent; simpl; lia. Defined.

(** X3 (a thin chunk is all ring).  When an extent of [chunk] is at most
    [2 * depth], the two index ranges of that axis cover it, and
    [grab_overlap] returns a copy of [chunk]. *)
Theorem grab_overlap_thin (chunk : ndarray Z) (depth : nat) :
  wf chunk -> 1 <= depth -> 0 < nrows chunk -> 0 < ncols chunk ->
  nrows chunk <= 2 * depth \/ ncols chunk <= 2 * depth ->
  DirectSharing.grab_overlap chunk depth = chunk.
Proof.
  intros Hwf _ _ _ Hthin.
  destruct (grab_overlap_shape chunk depth) as (Hwf' & Hr & Hc).
  apply (ndarray_ext 0%Z); [done|done|unfold shape; congruence|].
  intros i j Hi Hj. rewrite Hr in Hi. rewrite Hc in Hj.
  rewrite get_grab_overlap by done.
  unfold on_ring. destruct Hthin as [Hn|Hn].
  - by rewrite (in_ring_thin _ _ _ Hn Hi).
  - rewrite (in_ring_thin _ _ _ Hn Hj). by rewrite orb_true_r.
Qed.

Lemma grab_overlap_thin_witness :
  DirectSharing.grab_overlap (NdArray 2 3 [1; 2; 3; 4; 5; 6]%Z) 1
  = NdArray 2 3 [1; 2; 3; 4; 5; 6]%Z.
Proof. apply grab_overlap_thin; [reflexivity|simpl; lia..]. Defined.

(** X4 (mask_overlap, cell by cell).  [mask_overlap(chunk, depth, label)]
    has the shape of [chunk]; a cell within [depth] of a face holds
    [label], every other cell is [0], whatever [chunk] holds. *)
Theorem mask_overlap_cells (chunk : ndarray Z) (depth : nat) (label : Z) (i j : nat) :
  1 <= depth -> i < nrows chunk -> j < ncols chunk ->
  shape (SentinelBasinSharing.mask_overlap chunk depth label) = shape chunk
  /\ get 0%Z (SentinelBasinSharing.mask_overlap chunk depth label) i j
     = if (i <? depth) || (nrows chunk - depth <=? i)
          || ((j <? depth) || (ncols chunk - depth <=? j))
       then label else 0%Z.
Proof.
  intros _ Hi Hj. split.
  - destruct (mask_overlap_shape chunk depth label) as (_ & Hr & Hc).
    unfold shape. by rewrite Hr, Hc.
  - by rewrite get_mask_overlap.
Qed.

Lemma mask_overlap_cells_witness :
  shape (SentinelBasinSharing.mask_overlap (NdArray 3 3 [1; 2; 3; 4; 5; 6; 7; 8; 9]%Z) 1 7%Z)
  = (3, 3)
  /\ get 0%Z (SentinelBasinSharing.mask_overlap
                (NdArray 3 3 [1; 2; 3; 4; 5; 6; 7; 8; 9]%Z) 1 7%Z) 2 1
     = 7%Z.
Proof.
  apply (mask_overlap_cells (NdArray 3 3 [1; 2; 3; 4; 5; 6; 7; 8; 9]%Z) 1 7%Z 2 1); simpl; lia.
Defined.

(** X5 (DirectSharing markers at the two extremes).  With no positive
    label, [build_full_markers(labels, ws, depth)] is the ring of [ws];
    with every label positive it is [labels], and [ws] plays no part. *)
Theorem direct_build_full_markers_extremes (labels ws : ndarray Z) (depth : nat) :
  wf labels -> shape labels = shape ws -> 1 <= depth ->
  0 < nrows ws -> 0 < ncols ws ->
  (all_cells (fun v => (v <= 0)%Z) labels ->
   DirectSharing.build_full_markers labels ws depth = DirectSharing.grab_overlap ws depth)
  /\ (all_cells (fun v => (0 < v)%Z) labels ->
      DirectSharing.build_full_markers labels ws depth = labels).
Proof.
  intros Hwf Hs _ _ _.
  destruct (direct_build_full_markers_shape labels ws depth) as (Hwf' & Hr & Hc).
  destruct (grab_overlap_shape ws depth) as (Hwg & Hrg & Hcg).
  assert (Hs' := Hs). unfold shape in Hs'. injection Hs' as Hnr Hnc.
  split; intros Hall.
  - apply (ndarray_ext 0%Z); [done|done|unfold shape; congruence|].
    intros i j Hi Hj. rewrite Hr in Hi. rewrite Hc in Hj.
    rewrite direct_get_build_full_markers, get_grab_overlap by done.
    assert (Hv : (get 0%Z labels i j <= 0)%Z)
      by (apply (all_cells_lookup (fun v => (v <= 0)%Z)); (done || lia)).
    by destruct (Z.ltb_spec 0 (get 0%Z labels i j)); [lia|].
  - apply (ndarray_ext 0%Z); [done|done|unfold shape; congruence|].
    intros i j Hi Hj. rewrite Hr in Hi. rewrite Hc in Hj.
    rewrite direct_get_build_full_markers by done.
    assert (Hv : (0 < get 0%Z labels i j)%Z)
      by (apply (all_cells_lookup (fun v => (0 < v)%Z)); (done || lia)).
    by destruct (Z.ltb_spec 0 (get 0%Z labels i j)); [|lia].
Qed.

Lemma direct_build_full_markers_extremes_witness :
  DirectSharing.build_full_markers (NdArray 2 2 [1; 2; 3; 4]%Z) (NdArray 2 2 [5; 6; 7; 8]%Z) 1
  = NdArray 2 2 [1; 2; 3; 4]%Z.
Proof.
  apply (direct_build_full_markers_extremes (NdArray 2 2 [1; 2; 3; 4]%Z)
           (NdArray 2 2 [5; 6; 7; 8]%Z) 1);
    [reflexivity|reflexivity|lia|simpl; lia|simpl; lia|].
  intros v Hv. simpl in Hv.
  repeat (apply elem_of_cons in Hv as [->|Hv]; [done|]). by apply elem_of_nil in Hv.
Defined.

(** X6 (SentinelBasinSharing markers are built once).  Building the
    markers of an image that already went through [build_full_markers]
    with the same depth and label changes nothing. *)
Theorem sentinel_build_full_markers_idempotent (labels : ndarray Z) (depth : nat)
    (label : Z) :
  wf labels -> 1 <= depth -> 0 < nrows labels -> 0 < ncols labels ->
  SentinelBasinSharing.build_full_markers
    (SentinelBasinSharing.build_full_markers labels depth label) depth label
  = SentinelBasinSharing.build_full_markers labels depth label.
Proof.
  intros Hwf _ _ _.
  destruct (sentinel_build_full_markers_shape labels depth label) as (Hw1 & Hr1 & Hc1).
  destruct (sentinel_build_full_markers_shape
              (SentinelBasinSharing.build_full_markers labels depth label) depth label)
    as (Hw2 & Hr2 & Hc2).
  apply (ndarray_ext 0%Z); [done|done|unfold shape; congruence|].
  intros i j Hi Hj. rewrite Hr2, Hr1 in Hi. rewrite Hc2, Hc1 in Hj.
  rewrite (sentinel_get_build_full_markers _ depth label i j) by (done || lia).
  rewrite (on_ring_shape _ labels) by done.
  rewrite sentinel_get_build_full_markers by done.
  destruct (Z.ltb_spec 0 (get 0%Z labels i j)) as [Hpos|Hnpos].
  - by destruct (Z.ltb_spec 0 (get 0%Z labels i j)); [|lia].
  - destruct (on_ring labels depth i j); [|done].
    by destruct (Z.ltb_spec 0 label).
Qed.

Lemma sentinel_build_full_markers_idempotent_witness :
  SentinelBasinSharing.build_full_markers
    (SentinelBasinSharing.build_full_markers
       (NdArray 3 3 [0; 2; 0; 0; 0; 0; 0; 0; 1]%Z) 1 3%Z) 1 3%Z
  = SentinelBasinSharing.build_full_markers (NdArray 3 3 [0; 2; 0; 0; 0; 0; 0; 0; 1]%Z) 1 3%Z.
Proof. apply sentinel_build_full_markers_idempotent; [reflexivity|simpl; lia..]. Defined.

(** X7 (only positive labels are seeds).  [build_full_markers] copies a
    label only where [labels > 0]: with a label that is not negative, the
    markers it returns hold no negative value, whatever [labels] holds. *)
Theorem sentinel_build_full_markers_marker_map (labels : ndarray Z) (depth : nat)
    (label : Z) :
  wf labels -> 1 <= depth -> 0 < nrows labels -> 0 < ncols labels -> (0 <= label)%Z ->
  marker_map (SentinelBasinSharing.build_full_markers labels depth label).
Proof.
  intros Hwf _ _ _ Hl v Hv.
  destruct (sentinel_build_full_markers_shape labels depth label) as (Hw & Hr & Hc).
  apply (elem_of_data_get 0%Z) in Hv as (i & j & Hi & Hj & ->); [|done].
  rewrite Hr in Hi. rewrite Hc in Hj.
  rewrite sentinel_get_build_full_markers by done.
  destruct (Z.ltb_spec 0 (get 0%Z labels i j)); [lia|].
  destruct (on_ring labels depth i j); lia.
Qed.

Lemma sentinel_build_full_markers_marker_map_witness :
  marker_map (SentinelBasinSharing.build_full_markers
                (NdArray 3 3 [0; 2; 0; 0; (-4); 0; (-1); 0; 1]%Z) 1 3%Z).
Proof.
  apply sentinel_build_full_markers_marker_map; [reflexivity|simpl; lia..].
Defined.

Lemma sentinel_markers_ring_pos labels depth label i j :
  wf labels -> (0 < label)%Z -> i < nrows labels -> j < ncols labels ->
  on_ring labels depth i j = true ->
  (0 < get 0%Z (SentinelBasinSharing.build_full_markers labels depth label) i j)%Z.
Proof.
  intros Hwf Hl Hi Hj Hon. rewrite sentinel_get_build_full_markers by done.
  destruct (Z.ltb_spec 0 (get 0%Z labels i j)); [done|]. by rewrite Hon.
Qed.

Lemma sentinel_markers_watershed_ok elev labels depth label mask :
  wf labels -> 1 <= depth -> (0 < label)%Z -> 0 < nrows labels -> 0 < ncols labels ->
  exists out,
    watershed elev (SentinelBasinSharing.build_full_markers labels depth label) mask = Ok out.
Proof.
  intros Hwf Hd Hl Hr Hc.
  destruct (sentinel_build_full_markers_shape labels depth label) as (Hw & Hr' & Hc').
  apply (watershed_seeded _ _ _ 0 0); [lia|lia|].
  assert (Hon : on_ring labels depth 0 0 = true).
  { unfold on_ring, in_ring. destruct depth; [lia|done]. }
  pose proof (sentinel_markers_ring_pos labels depth label 0 0 Hwf Hl Hr Hc Hon). lia.
Qed.

(** X8 (the ring is always seeded).  With a positive label, every cell
    within [depth] of a face of the markers [build_full_markers] returns
    holds a positive value (the label, or the positive marker that was
    there); so the markers of a chunk that is not empty are never empty,
    and the watershed of the chunk does not fail for lack of a seed. *)
Theorem sentinel_ring_seeded (elev labels : ndarray Z) (depth : nat) (label : Z)
    (mask : option (ndarray bool)) :
  wf labels -> 1 <= depth -> (0 < label)%Z ->
  0 < nrows labels -> 0 < ncols labels ->
  (forall i j, i < nrows labels -> j < ncols labels ->
     (i <? depth) || (nrows labels - depth <=? i)
     || ((j <? depth) || (ncols labels - depth <=? j)) = true ->
     (0 < get 0%Z (SentinelBasinSharing.build_full_markers labels depth label) i j)%Z)
  /\ exists out,
       watershed elev (SentinelBasinSharing.build_full_markers labels depth label) mask
       = Ok out.
Proof.
  intros Hwf Hd Hl Hr Hc. split.
  - intros i j Hi Hj Hon. by apply sentinel_markers_ring_pos.
  - by apply sentinel_markers_watershed_ok.
Qed.

Lemma sentinel_ring_seeded_witness :
  exists out,
    watershed (NdArray 2 2 [4; 3; 2; 1]%Z)
      (SentinelBasinSharing.build_full_markers (NdArray 2 2 [0; 0; 0; 0]%Z) 1 1%Z) None
    = Ok out.
Proof.
  apply (sentinel_ring_seeded (NdArray 2 2 [4; 3; 2; 1]%Z) (NdArray 2 2 [0; 0; 0; 0]%Z) 1 1%Z
           None); [reflexivity|simpl; lia..].
Defined.

(** X9 (remove_label when there is nothing to remove).  Removing the label
    [0], or a label that no cell holds, returns a copy of the chunk. *)
Theorem remove_label_absent (chunk : ndarray Z) (label : Z) :
  wf chunk -> label = 0%Z \/ label ∉ data chunk ->
  SentinelBasinSharing.remove_label chunk label = chunk.
Proof.
  intros Hwf Hl.
  destruct (remove_label_shape chunk label Hwf) as (Hw & Hr & Hc).
  apply (ndarray_ext 0%Z); [done|done|unfold shape; congruence|].
  intros i j Hi Hj. rewrite Hr in Hi. rewrite Hc in Hj.
  rewrite get_remove_label by done.
  destruct (Z.eqb_spec (get 0%Z chunk i j) label) as [Heq|]; [|done].
  destruct Hl as [->|Hnot]; [done|].
  exfalso. apply Hnot. rewrite <- Heq.
  eapply list_elem_of_lookup_2. by apply (get_data 0%Z).
Qed.

Lemma remove_label_absent_witness :
  SentinelBasinSharing.remove_label (NdArray 2 2 [1; 0; 0; 2]%Z) 0%Z
  = NdArray 2 2 [1; 0; 0; 2]%Z.
Proof. apply remove_label_absent; [reflexivity|by left]. Defined.

(** X10 (remove_label is idempotent and removals commute).  Removing a
    label twice is removing it once, and two labels can be removed in
    either order. *)
Theorem remove_label_twice (chunk : ndarray Z) (label label' : Z) :
  wf chunk ->
  SentinelBasinSharing.remove_label (SentinelBasinSharing.remove_label chunk label) label
  = SentinelBasinSharing.remove_label chunk label
  /\ SentinelBasinSharing.remove_label (SentinelBasinSharing.remove_label chunk label) label'
     = SentinelBasinSharing.remove_label (SentinelBasinSharing.remove_label chunk label')
         label.
Proof.
  intros Hwf.
  destruct (remove_label_shape chunk label Hwf) as (Hw & Hr & Hc).
  destruct (remove_label_shape chunk label' Hwf) as (Hw' & Hr' & Hc').
  destruct (remove_label_shape _ label Hw) as (Hw1 & Hr1 & Hc1).
  destruct (remove_label_shape _ label' Hw) as (Hw2 & Hr2 & Hc2).
  destruct (remove_label_shape _ label Hw') as (Hw3 & Hr3 & Hc3).
  split.
  - apply (ndarray_ext 0%Z); [done|done|unfold shape; congruence|].
    intros i j Hi Hj. rewrite Hr1, Hr in Hi. rewrite Hc1, Hc in Hj.
    rewrite (get_remove_label _ label i j) by (done || lia).
    rewrite get_remove_label by done.
    destruct (Z.eqb_spec (get 0%Z chunk i j) label) as [Heq|Hne].
    + by destruct (Z.eqb_spec 0 label).
    + by destruct (Z.eqb_spec (get 0%Z chunk i j) label).
  - apply (ndarray_ext 0%Z); [done|done|unfold shape; congruence|].
    intros i j Hi Hj. rewrite Hr2, Hr in Hi. rewrite Hc2, Hc in Hj.
    rewrite (get_remove_label _ label' i j) by (done || lia).
    rewrite (get_remove_label _ label i j) by (done || lia).
    rewrite !get_remove_label by done.
    destruct (Z.eqb_spec (get 0%Z chunk i j) label) as [Heq|Hne];
      destruct (Z.eqb_spec (get 0%Z chunk i j) label') as [Heq'|Hne']; cbv iota;
      repeat (match goal with
              | |- context [(?a =? ?b)%Z] => destruct (Z.eqb_spec a b); cbv iota
              end); congruence.
Qed.

Lemma remove_label_twice_witness :
  SentinelBasinSharing.remove_label
    (SentinelBasinSharing.remove_label (NdArray 2 2 [1; 5; 5; 2]%Z) 5%Z) 5%Z
  = SentinelBasinSharing.remove_label (NdArray 2 2 [1; 5; 5; 2]%Z) 5%Z
  /\ SentinelBasinSharing.remove_label
       (SentinelBasinSharing.remove_label (NdArray 2 2 [1; 5; 5; 2]%Z) 5%Z) 2%Z
     = SentinelBasinSharing.remove_label
         (SentinelBasinSharing.remove_label (NdArray 2 2 [1; 5; 5; 2]%Z) 2%Z) 5%Z.
Proof. apply remove_label_twice. reflexivity. Defined.

(** X11 (compose undoes remove_label).  The chunk with a label removed,
    composed with the chunk itself under the mask [chunk == label], is the
    chunk again: the marker image and the mask that the second pass is
    given keep, together, all of the first pass. *)
Theorem compose_restores_removed (chunk : ndarray Z) (label : Z) :
  wf chunk ->
  SentinelBasinSharing.compose (SentinelBasinSharing.remove_label chunk label) chunk
    (eq_scalar chunk label)
  = chunk.
Proof.
  intros Hwf.
  destruct (remove_label_shape chunk label Hwf) as (Hw & Hr & Hc).
  destruct (compose_shape (SentinelBasinSharing.remove_label chunk label) chunk
              (eq_scalar chunk label) Hw) as (Hw' & Hr' & Hc').
  apply (ndarray_ext 0%Z); [done|done|unfold shape; congruence|].
  intros i j Hi Hj. rewrite Hr', Hr in Hi. rewrite Hc', Hc in Hj.
  rewrite get_compose
    by first [done | by apply eq_scalar_wf | unfold shape; simpl; congruence | lia].
  rewrite get_eq_scalar, get_remove_label by done.
  by destruct (Z.eqb_spec (get 0%Z chunk i j) label).
Qed.

Lemma compose_restores_removed_witness :
  SentinelBasinSharing.compose
    (SentinelBasinSharing.remove_label (NdArray 2 2 [1; 5; 5; 2]%Z) 5%Z)
    (NdArray 2 2 [1; 5; 5; 2]%Z) (eq_scalar (NdArray 2 2 [1; 5; 5; 2]%Z) 5%Z)
  = NdArray 2 2 [1; 5; 5; 2]%Z.
Proof. apply compose_restores_removed. reflexivity. Defined.

(** X12 (compose under the two constant masks, and with itself).  Under a
    mask that is false everywhere [compose] returns the first-pass chunk;
    under a mask that is true everywhere it returns the second-pass chunk;
    and composing a chunk with itself returns it, whatever the mask. *)
Theorem compose_extremes (fp_chunk sp_chunk : ndarray Z) (mask_chunk : ndarray bool) :
  wf fp_chunk -> wf sp_chunk -> wf mask_chunk ->
  shape sp_chunk = shape fp_chunk -> shape mask_chunk = shape fp_chunk ->
  ((forall b, b ∈ data mask_chunk -> b = false) ->
   SentinelBasinSharing.compose fp_chunk sp_chunk mask_chunk = fp_chunk)
  /\ ((forall b, b ∈ data mask_chunk -> b = true) ->
      SentinelBasinSharing.compose fp_chunk sp_chunk mask_chunk = sp_chunk)
  /\ SentinelBasinSharing.compose fp_chunk fp_chunk mask_chunk = fp_chunk.
Proof.
  intros Hf Hs Hm Hss Hsm.
  assert (Hss' := Hss). assert (Hsm' := Hsm). unfold shape in Hss', Hsm'.
  injection Hss' as Hsr Hsc. injection Hsm' as Hmr Hmc.
  assert (Hmask : forall i j, i < nrows fp_chunk -> j < ncols fp_chunk ->
            get false mask_chunk i j ∈ data mask_chunk).
  { intros i j Hi Hj. eapply list_elem_of_lookup_2. apply (get_data false); (done || lia). }
  split; [|split].
  - intros Hall.
    destruct (compose_shape fp_chunk sp_chunk mask_chunk Hf) as (Hw & Hr & Hc).
    apply (ndarray_ext 0%Z); [done|done|unfold shape; congruence|].
    intros i j Hi Hj. rewrite Hr in Hi. rewrite Hc in Hj.
    rewrite get_compose by done. by rewrite (Hall _ (Hmask i j Hi Hj)).
  - intros Hall.
    destruct (compose_shape fp_chunk sp_chunk mask_chunk Hf) as (Hw & Hr & Hc).
    apply (ndarray_ext 0%Z); [done|done|unfold shape; congruence|].
    intros i j Hi Hj. rewrite Hr in Hi. rewrite Hc in Hj.
    rewrite get_compose by done. by rewrite (Hall _ (Hmask i j Hi Hj)).
  - destruct (compose_shape fp_chunk fp_chunk mask_chunk Hf) as (Hw & Hr & Hc).
    apply (ndarray_ext 0%Z); [done|done|unfold shape; congruence|].
    intros i j Hi Hj. rewrite Hr in Hi. rewrite Hc in Hj.
    rewrite get_compose by done. by destruct (get false mask_chunk i j).
Qed.

Lemma compose_extremes_witness :
  SentinelBasinSharing.compose (NdArray 2 2 [1; 5; 5; 2]%Z) (NdArray 2 2 [1; 5; 5; 2]%Z)
    (NdArray 2 2 [true; false; false; true])
  = NdArray 2 2 [1; 5; 5; 2]%Z.
Proof.
  apply (compose_extremes (NdArray 2 2 [1; 5; 5; 2]%Z) (NdArray 2 2 [1; 5; 5; 2]%Z)
           (NdArray 2 2 [true; false; false; true])); reflexivity.
Defined.

(** X13 (compose rejects a mask of another shape).  When the mask does not
    have the shape of the second-pass chunk or of the first-pass chunk,
    the boolean index is rejected: [compose] returns no array, and every
    array of the store is as it was. *)
Theorem store_compose_shape_mismatch (h : gmap nat Store.value) (fp sp mask : nat)
    (a b : ndarray Z) (m : ndarray bool) :
  h !! fp = Some (Store.VInt a) -> h !! sp = Some (Store.VInt b) ->
  h !! mask = Some (Store.VBool m) ->
  Store.same_shape b m = false \/ Store.same_shape a m = false ->
  exists h', Store.run (Store.compose fp sp mask) h = (None, h') /\ keeps h h'.
Proof.
  intros Hfp Hsp Hmk Hbad.
  assert (Hrun : exists h', Store.run (Store.compose fp sp mask) h = (None, h')).
  { unfold Store.compose.
    rewrite run_bind, (run_copy h fp a) by done. cbv beta iota.
    pose proof (fresh_lookup h) as Hout.
    remember (fresh (dom h)) as out eqn:Eout.
    remember (<[out := Store.VInt a]> h) as h1 eqn:Eh1.
    assert (Ho1 : h1 !! out = Some (Store.VInt a)) by (subst h1; apply lookup_insert_eq).
    assert (Hsp1 : h1 !! sp = Some (Store.VInt b)).
    { subst h1. rewrite lookup_insert_ne; [done|]. intros <-. congruence. }
    assert (Hmk1 : h1 !! mask = Some (Store.VBool m)).
    { subst h1. rewrite lookup_insert_ne; [done|]. intros <-. congruence. }
    rewrite run_bind.
    destruct (Store.same_shape b m) eqn:Hbm.
    - destruct Hbad as [Hbad|Ham]; [done|].
      rewrite (run_getitem h1 sp mask b m) by done. cbv beta iota.
      pose proof (fresh_lookup h1) as Ht.
      remember (fresh (dom h1)) as t eqn:Et.
      remember (Store.VInt (NdArray 1 (length (getitem_mask b m)) (getitem_mask b m))) as sel
        eqn:Esel.
      remember (<[t := sel]> h1) as h2 eqn:Eh2.
      assert (Ho2 : h2 !! out = Some (Store.VInt a)).
      { subst h2. rewrite lookup_insert_ne; [done|]. congruence. }
      assert (Hmk2 : h2 !! mask = Some (Store.VBool m)).
      { subst h2. rewrite lookup_insert_ne; [done|]. congruence. }
      assert (Ht2 : h2 !! t = Some sel) by (subst h2; apply lookup_insert_eq).
      subst sel.
      rewrite run_bind. unfold Store.setitem.
      rewrite run_bind, (run_load_int h2 out a) by done.
      rewrite run_bind, (run_load_bool h2 mask m) by done.
      rewrite run_bind, (run_load_int h2 t _ Ht2).
      rewrite Ham. simpl. eauto.
    - unfold Store.getitem.
      rewrite run_bind, (run_load_int h1 sp b) by done.
      rewrite run_bind, (run_load_bool h1 mask m) by done.
      rewrite Hbm. simpl. eauto. }
  destruct Hrun as [h' Hrun]. exists h'. split; [done|].
  by apply (store_compose_frame h h' fp sp mask None).
Qed.

Lemma store_compose_shape_mismatch_witness :
  let h : gmap nat Store.value :=
    <[0 := Store.VInt (NdArray 2 2 [1; 5; 5; 2]%Z)]>
      (<[1 := Store.VInt (NdArray 2 2 [7; 8; 9; 10]%Z)]>
         (<[2 := Store.VBool (NdArray 1 2 [true; false])]> ∅)) in
  exists h', Store.run (Store.compose 0 1 2) h = (None, h') /\ keeps h h'.
Proof.
  intros h.
  apply (store_compose_shape_mismatch h 0 1 2 (NdArray 2 2 [1; 5; 5; 2]%Z)
           (NdArray 2 2 [7; 8; 9; 10]%Z) (NdArray 1 2 [true; false]));
    [reflexivity|reflexivity|reflexivity|by left].
Defined.

(** ** Values that reach the output *)

Lemma all_cells_direct_build_full_markers (P : Z -> Prop) labels ws depth :
  wf labels -> shape labels = shape ws -> P 0%Z ->
  all_cells P labels -> all_cells P ws ->
  all_cells P (DirectSharing.build_full_markers labels ws depth).
Proof.
  intros Hl Hs H0 Hal Haw v Hv.
  destruct (direct_build_full_markers_shape labels ws depth) as (Hwf & Hr & Hc).
  apply (elem_of_data_get 0%Z) in Hv as (i & j & Hi & Hj & ->); [|done].
  rewrite Hr in Hi. rewrite Hc in Hj.
  rewrite direct_get_build_full_markers by done.
  destruct (0 <? get 0%Z labels i j)%Z; [by apply all_cells_get|].
  destruct (on_ring ws depth i j); [by apply all_cells_get|done].
Qed.

Lemma all_cells_sentinel_build_full_markers (P : Z -> Prop) labels depth label :
  wf labels -> P 0%Z -> P label -> all_cells P labels ->
  all_cells P (SentinelBasinSharing.build_full_markers labels depth label).
Proof.
  intros Hl H0 Hlab Hal v Hv.
  destruct (sentinel_build_full_markers_shape labels depth label) as (Hwf & Hr & Hc).
  apply (elem_of_data_get 0%Z) in Hv as (i & j & Hi & Hj & ->); [|done].
  rewrite Hr in Hi. rewrite Hc in Hj.
  rewrite sentinel_get_build_full_markers by done.
  destruct (0 <? get 0%Z labels i j)%Z; [by apply all_cells_get|].
  by destruct (on_ring labels depth i j).
Qed.

Lemma all_cells_overlap_constant (P : Z -> Prop) (g y : darray Z) depth v bi bj :
  overlap g depth (Constant v) = Ok y -> P 0%Z -> P v -> all_cells P (compute 0%Z g) ->
  bi < length (rchunks g) -> bj < length (cchunks g) ->
  all_cells P (get_block y bi bj).
Proof.
  intros Hov H0 Hv Hg Hbi Hbj. rewrite (overlap_eq _ _ _ _ Hov).
  unfold get_block; cbn [grid]. rewrite get_tabulate by done.
  apply all_cells_tabulate. intros a b _ _. unfold pad_source.
  match goal with |- P (if ?c then _ else _) => destruct c end; [|done].
  by apply all_cells_get.
Qed.

Lemma all_cells_removed (P Q : Z -> Prop) chunk label :
  wf chunk -> Q 0%Z -> all_cells P chunk ->
  (forall v, P v -> v <> label -> Q v) ->
  all_cells Q (SentinelBasinSharing.remove_label chunk label).
Proof.
  intros Hwf H0 Hal HPQ v Hv.
  destruct (remove_label_shape chunk label Hwf) as (Hw & Hr & Hc).
  apply (elem_of_data_get 0%Z) in Hv as (i & j & Hi & Hj & ->); [|done].
  rewrite Hr in Hi. rewrite Hc in Hj.
  rewrite get_remove_label by done.
  destruct (Z.eqb_spec (get 0%Z chunk i j) label) as [|Hne]; [done|].
  apply HPQ; [|done]. by apply all_cells_lookup.
Qed.

Lemma trimmed_chunked rch cch (g : darray Z) depth :
  chunked ((fun n => n + 2 * depth) <$> rch) ((fun n => n + 2 * depth) <$> cch) g ->
  chunked rch cch (trim_overlap 0%Z g depth).
Proof.
  intros Hc. pose proof (trim_chunked 0%Z _ _ g depth Hc) as Ht.
  by rewrite !fmap_sub_add in Ht.
Qed.

Lemma all_cells_trimmed (P : Z -> Prop) rch cch (g : darray Z) depth :
  chunked ((fun n => n + 2 * depth) <$> rch) ((fun n => n + 2 * depth) <$> cch) g ->
  P 0%Z ->
  (forall bi bj, bi < length rch -> bj < length cch -> all_cells P (get_block g bi bj)) ->
  all_cells P (compute 0%Z (trim_overlap 0%Z g depth)).
Proof.
  intros Hc H0 Hall.
  apply (all_cells_compute P rch cch); [by apply trimmed_chunked|done|].
  intros bi bj Hbi Hbj.
  by apply (all_cells_trim P _ _ g depth bi bj Hc H0); rewrite ?length_fmap.
Qed.

Section DirectValues.
Context (hmax ws_markers : ndarray Z) (chunks : nat * nat) (depth : nat).
Context (P : Z -> Prop).
Hypothesis Hwf_markers : wf ws_markers.
Hypothesis Hshape : shape hmax = shape ws_markers.
Hypothesis HP0 : P 0%Z.
Hypothesis HPm : all_cells P ws_markers.

Let rch := chunk_sizes (nrows ws_markers) (fst chunks).
Let cch := chunk_sizes (ncols ws_markers) (snd chunks).

Lemma direct_values out :
  DirectSharing.ws_final sequential hmax ws_markers chunks depth = Ok out ->
  all_cells P out.
Proof using Hwf_markers Hshape HP0 HPm.
  intros Hfin.
  destruct (direct_stages _ _ _ _ out Hfin)
    as (H & M & FP & NB & FL & SP & HH & HM & HFP & HNB & HFL & HSP & ->).
  pose proof (direct_markers_chunked ws_markers chunks depth M HM) as HcM.
  pose proof (direct_fp_chunked hmax ws_markers chunks depth Hshape H M FP HH HM HFP) as HcFP.
  pose proof (direct_nb_chunked hmax ws_markers chunks depth Hshape H M FP NB HH HM HFP HNB)
    as HcNB.
  pose proof (direct_fl_chunked hmax ws_markers chunks depth Hshape H M FP NB FL
                HH HM HFP HNB HFL) as HcFL.
  pose proof (direct_sp_chunked hmax ws_markers chunks depth Hshape H M FP NB FL SP
                HH HM HFP HNB HFL HSP) as HcSP.
  pose proof (direct_hmax_chunked hmax ws_markers chunks depth Hshape H HH) as HcH.
  fold rch cch in HcM, HcFP, HcNB, HcFL, HcSP, HcH.
  assert (Hpad : forall (l : list nat) k, k < length l ->
            k < length ((fun n => n + 2 * depth) <$> l))
    by (intros l k Hk; by rewrite length_fmap).
  assert (HM' : forall bi bj, bi < length rch -> bj < length cch ->
            all_cells P (get_block M bi bj)).
  { intros bi bj Hbi Hbj.
    apply (all_cells_overlap_nearest P _ _ _ _ _ HM); try done.
    by rewrite compute_from_array. }
  assert (HFP' : forall bi bj, bi < length rch -> bj < length cch ->
            all_cells P (get_block FP bi bj)).
  { intros bi bj Hbi Hbj.
    destruct (map_blocks2_seq _ _ _ _ _ _ HcH HcM HFP) as (_ & _ & _ & _ & _ & Hb).
    destruct (chunked_block _ _ M bi bj HcM (Hpad _ _ Hbi) (Hpad _ _ Hbj)) as (HwM & _ & _).
    apply (all_cells_watershed P _ _ _ _ HwM HP0 (HM' bi bj Hbi Hbj)
             (Hb bi bj (Hpad _ _ Hbi) (Hpad _ _ Hbj))). }
  assert (HNB' : forall bi bj, bi < length rch -> bj < length cch ->
            all_cells P (get_block NB bi bj)).
  { intros bi bj Hbi Hbj.
    pose proof (trimmed_chunked rch cch FP depth HcFP) as (_ & Htr & Htc).
    apply (all_cells_overlap_nearest P _ _ _ _ _ HNB); rewrite ?Htr, ?Htc; try done.
    by apply (all_cells_trimmed P rch cch). }
  assert (HFL' : forall bi bj, bi < length rch -> bj < length cch ->
            all_cells P (get_block FL bi bj)).
  { intros bi bj Hbi Hbj.
    rewrite (direct_fl_blocks hmax ws_markers chunks depth Hshape H M FP NB FL
               HH HM HFP HNB HFL) by done.
    destruct (chunked_block _ _ M bi bj HcM (Hpad _ _ Hbi) (Hpad _ _ Hbj)) as (HwM & HrM & HcM').
    destruct (chunked_block _ _ NB bi bj HcNB (Hpad _ _ Hbi) (Hpad _ _ Hbj))
      as (HwN & HrN & HcN').
    apply all_cells_direct_build_full_markers; try done; [|by apply HM'|by apply HNB'].
    unfold shape. congruence. }
  apply (all_cells_trimmed P rch cch); [done|done|].
  intros bi bj Hbi Hbj.
  destruct (chunked_block _ _ FL bi bj HcFL (Hpad _ _ Hbi) (Hpad _ _ Hbj)) as (HwF & _ & _).
  apply (all_cells_watershed P (get_block H bi bj) (get_block FL bi bj) None _
           HwF HP0 (HFL' bi bj Hbi Hbj)).
  by apply (direct_sp_blocks hmax ws_markers chunks depth Hshape H M FP NB FL SP
              HH HM HFP HNB HFL HSP).
Qed.

End DirectValues.

Section SentinelValues.
Context (hmax ws_markers : ndarray Z) (chunks : nat * nat) (depth : nat).
Context (P : Z -> Prop).
Hypothesis Hwf_markers : wf ws_markers.
Hypothesis Hshape : shape hmax = shape ws_markers.
Hypothesis HP0 : P 0%Z.
Hypothesis HPm : all_cells P ws_markers.

Let rch := chunk_sizes (nrows ws_markers) (fst chunks).
Let cch := chunk_sizes (ncols ws_markers) (snd chunks).
Let bl := SentinelBasinSharing.boundary_label ws_markers.

Lemma sentinel_values out :
  SentinelBasinSharing.ws_final sequential hmax ws_markers chunks depth = Ok out ->
  all_cells P out.
Proof using Hwf_markers Hshape HP0 HPm.
  intros Hfin.
  destruct (sentinel_stages _ _ _ _ out Hfin)
    as (H & M0 & M & FP & RM & MSP & MK & SP & FIN
        & HH & HM0 & HM & HFP & HRM & HMSP & HMK & HSP & HFIN & ->).
  fold bl in HM0, HM, HRM, HMK.
  pose proof (sentinel_m0_chunked ws_markers chunks depth M0 HM0) as HcM0.
  pose proof (sentinel_m_chunked ws_markers chunks depth M0 M HM0 HM) as HcM.
  pose proof (sentinel_fp_chunked hmax ws_markers chunks depth Hshape H M0 M FP
                HH HM0 HM HFP) as HcFP.
  pose proof (sentinel_rm_chunked hmax ws_markers chunks depth Hshape H M0 M FP RM
                HH HM0 HM HFP HRM) as HcRM.
  pose proof (sentinel_msp_chunked hmax ws_markers chunks depth Hshape H M0 M FP RM MSP
                HH HM0 HM HFP HRM HMSP) as HcMSP.
  pose proof (sentinel_fin_chunked hmax ws_markers chunks depth Hshape H M0 M FP RM MSP SP FIN
                MK HH HM0 HM HFP HRM HMSP HMK HSP HFIN) as HcFIN.
  fold rch cch in HcM0, HcM, HcFP, HcRM, HcMSP, HcFIN.
  assert (Hpad : forall (l : list nat) k, k < length l ->
            k < length ((fun n => n + 2 * depth) <$> l))
    by (intros l k Hk; by rewrite length_fmap).
  set (P' := fun v => P v \/ v = bl).
  assert (HM0' : forall bi bj, bi < length rch -> bj < length cch ->
            all_cells P' (get_block M0 bi bj)).
  { intros bi bj Hbi Hbj.
    apply (all_cells_overlap_constant P' _ _ _ _ _ _ HM0); try done.
    - by left.
    - by right.
    - rewrite compute_from_array by done. intros v Hv. left. by apply HPm. }
  assert (HFP' : forall bi bj, bi < length rch -> bj < length cch ->
            all_cells P' (get_block FP bi bj)).
  { intros bi bj Hbi Hbj.
    destruct (chunked_block _ _ M bi bj HcM (Hpad _ _ Hbi) (Hpad _ _ Hbj)) as (HwM & _ & _).
    destruct (chunked_block _ _ M0 bi bj HcM0 (Hpad _ _ Hbi) (Hpad _ _ Hbj)) as (HwM0 & _ & _).
    apply (all_cells_watershed P' (get_block H bi bj) (get_block M bi bj) None); try done.
    - by left.
    - rewrite (sentinel_m_blocks ws_markers chunks depth M0 M HM0 HM) by done.
      apply all_cells_sentinel_build_full_markers; try done; [by left|by right|by apply HM0'].
    - by apply (sentinel_fp_blocks hmax ws_markers chunks depth Hshape H M0 M FP HH HM0 HM HFP). }
  assert (HRM' : forall bi bj, bi < length rch -> bj < length cch ->
            all_cells P (get_block RM bi bj)).
  { intros bi bj Hbi Hbj.
    destruct (chunked_block _ _ FP bi bj HcFP (Hpad _ _ Hbi) (Hpad _ _ Hbj)) as (HwFP & _ & _).
    rewrite (sentinel_rm_blocks hmax ws_markers chunks depth Hshape H M0 M FP RM
               HH HM0 HM HFP HRM) by done.
    apply (all_cells_removed P' P); try done; [by apply HFP'|].
    intros v [Hv|Hv] Hne; done. }
  assert (HSP' : forall bi bj, bi < length rch -> bj < length cch ->
            all_cells P (get_block SP bi bj)).
  { intros bi bj Hbi Hbj.
    destruct (chunked_block _ _ MSP bi bj HcMSP (Hpad _ _ Hbi) (Hpad _ _ Hbj))
      as (HwMSP & _ & _).
    apply (all_cells_watershed P (get_block H bi bj) (get_block MSP bi bj)
             (Some (get_block MK bi bj))); try done.
    - pose proof (trimmed_chunked rch cch RM depth HcRM) as (_ & Htr & Htc).
      apply (all_cells_overlap_nearest P _ _ _ _ _ HMSP); rewrite ?Htr, ?Htc; try done.
      by apply (all_cells_trimmed P rch cch).
    - by apply (sentinel_sp_blocks hmax ws_markers chunks depth Hshape H M0 M FP RM MSP SP MK
                  HH HM0 HM HFP HRM HMSP HMK HSP). }
  apply (all_cells_trimmed P rch cch); [done|done|].
  intros bi bj Hbi Hbj v Hv.
  destruct (chunked_block _ _ FIN bi bj HcFIN (Hpad _ _ Hbi) (Hpad _ _ Hbj))
    as (HwF & HrF & HcF).
  rewrite (nth_fmap_lt _ _ _ 0) in HrF by done.
  rewrite (nth_fmap_lt _ _ _ 0) in HcF by done.
  apply (elem_of_data_get 0%Z) in Hv as (a & b & Ha & Hb & ->); [|done].
  rewrite HrF in Ha. rewrite HcF in Hb.
  rewrite (sentinel_fin_cell hmax ws_markers chunks depth Hshape H M0 M FP RM MSP SP FIN MK
             HH HM0 HM HFP HRM HMSP HMK HSP HFIN) by done.
  fold bl.
  destruct (Z.eqb_spec (get 0%Z (get_block FP bi bj) a b) bl) as [Heq|Hne].
  - apply all_cells_get; [done|by apply HSP'].
  - destruct (all_cells_get P' (get_block FP bi bj) a b) as [Hv|Hv]; try done.
    + by left.
    + by apply HFP'.
Qed.

End SentinelValues.

(** ** The pipelines as a whole *)

(** X14 (the output has the shape of the input).  When a pipeline returns,
    the label map it returns has the shape of the marker image, one cell
    for each cell of the domain, whatever the chunks. *)
Theorem final_labels_shape (hmax ws_markers : ndarray Z) (chunks : nat * nat)
    (depth : nat) (out : ndarray Z) :
  shape hmax = shape ws_markers ->
  DirectSharing.ws_final sequential hmax ws_markers chunks depth = Ok out
  \/ SentinelBasinSharing.ws_final sequential hmax ws_markers chunks depth = Ok out ->
  wf out /\ shape out = shape ws_markers.
Proof.
  intros Hs [Hfin|Hfin].
  - destruct (direct_final_shape _ _ _ _ _ Hs Hfin) as (Hw & Hr & Hc).
    split; [done|]. unfold shape. by rewrite Hr, Hc.
  - destruct (sentinel_final_shape _ _ _ _ _ Hs Hfin) as (Hw & Hr & Hc).
    split; [done|]. unfold shape. by rewrite Hr, Hc.
Qed.

Lemma final_labels_shape_witness :
  wf (NdArray 2 4 [1; 1; 2; 2; 1; 1; 2; 2]%Z)
  /\ shape (NdArray 2 4 [1; 1; 2; 2; 1; 1; 2; 2]%Z)
     = shape (NdArray 2 4 [1; 0; 0; 2; 0; 0; 0; 0]%Z).
Proof.
  apply (final_labels_shape (NdArray 2 4 [0; 0; 0; 0; 0; 0; 0; 0]%Z)
           (NdArray 2 4 [1; 0; 0; 2; 0; 0; 0; 0]%Z) (2, 2) 1).
  - reflexivity.
  - right. vm_compute. reflexivity.
Defined.

(** X15 (no label is invented).  Every label of the output of either
    pipeline is [0] or a label of the marker image: the labels of the
    first pass that travel across the halo, and the sentinel, are never
    new labels of the result. *)
Theorem labels_come_from_markers (hmax ws_markers : ndarray Z) (chunks : nat * nat)
    (depth : nat) (out : ndarray Z) :
  wf ws_markers -> shape hmax = shape ws_markers ->
  DirectSharing.ws_final sequential hmax ws_markers chunks depth = Ok out
  \/ SentinelBasinSharing.ws_final sequential hmax ws_markers chunks depth = Ok out ->
  all_cells (fun v => v = 0%Z \/ v ∈ data ws_markers) out.
Proof.
  intros Hwf Hs [Hfin|Hfin].
  - apply (direct_values hmax ws_markers chunks depth _ Hwf Hs); [by left| |done].
    intros v Hv. by right.
  - apply (sentinel_values hmax ws_markers chunks depth _ Hwf Hs); [by left| |done].
    intros v Hv. by right.
Qed.

Lemma labels_come_from_markers_witness :
  all_cells (fun v => v = 0%Z \/ v ∈ [1; 0; 0; 2; 0; 0; 0; 0]%Z)
    (NdArray 2 4 [1; 1; 2; 2; 1; 1; 2; 2]%Z).
Proof.
  apply (labels_come_from_markers (NdArray 2 4 [0; 0; 0; 0; 0; 0; 0; 0]%Z)
           (NdArray 2 4 [1; 0; 0; 2; 0; 0; 0; 0]%Z) (2, 2) 1).
  - reflexivity.
  - reflexivity.
  - right. vm_compute. reflexivity.
Defined.

Lemma array_max_elem (a : ndarray Z) :
  data a = [] /\ array_max a = 0%Z \/ array_max a ∈ data a.
Proof.
  unfold array_max. destruct (data a) as [|x l]; [by left|]. right.
  revert x. induction l as [|y l IH]; intros x; simpl; [by left|].
  specialize (IH (Z.max x y)). apply elem_of_cons in IH as [Heq|Hin].
  - rewrite Heq. destruct (Z.max_spec x y) as [[_ ->]|[_ ->]]; [right; by left|by left].
  - right. by right.
Qed.

(** X16 (the sentinel is above every marker).  For a marker image that is
    not empty and whose labels are [int64] values below the largest one,
    [ws_markers.max() + 1] does not wrap: [boundary_label] is the integer
    that numpy computes, and it is greater than every label of the marker
    image, so that the sentinel is never the label of a seed. *)
Theorem boundary_label_above_markers (ws_markers : ndarray Z) :
  data ws_markers <> [] ->
  all_cells (fun v => (- 2 ^ 63 <= v < 2 ^ 63 - 1)%Z) ws_markers ->
  wrap_int64 (array_max ws_markers + 1) = SentinelBasinSharing.boundary_label ws_markers
  /\ all_cells (fun v => (v < SentinelBasinSharing.boundary_label ws_markers)%Z) ws_markers.
Proof.
  intros Hne Hrange. unfold SentinelBasinSharing.boundary_label. split.
  - assert (Hmax : (- 2 ^ 63 <= array_max ws_markers < 2 ^ 63 - 1)%Z).
    { destruct (array_max_elem ws_markers) as [[He _]|Hin]; [done|by apply Hrange]. }
    unfold wrap_int64. rewrite Z.mod_small; lia.
  - intros v Hv. pose proof (array_max_ge ws_markers v Hv). lia.
Qed.

Lemma boundary_label_above_markers_witness :
  wrap_int64 (array_max (NdArray 2 2 [0; 3; 1; 0]%Z) + 1)
  = SentinelBasinSharing.boundary_label (NdArray 2 2 [0; 3; 1; 0]%Z)
  /\ all_cells (fun v => (v < SentinelBasinSharing.boundary_label
                                 (NdArray 2 2 [0; 3; 1; 0]%Z))%Z)
       (NdArray 2 2 [0; 3; 1; 0]%Z).
Proof.
  apply boundary_label_above_markers; [done|].
  intros v Hv. simpl in Hv.
  repeat (apply elem_of_cons in Hv as [->|Hv]; [lia|]). by apply elem_of_nil in Hv.
Defined.

(** X17 (what the compositor keeps).  In the SentinelBasinSharing pipeline
    a cell of the output holds the first-pass label of the cell, unless
    that label is the sentinel: then it holds the second-pass label. *)
Theorem sentinel_final_labels (hmax ws_markers : ndarray Z) (chunks : nat * nat)
    (depth : nat) (FP SP : darray Z) (out : ndarray Z) (bi bj a b : nat) :
  let rch := chunk_sizes (nrows ws_markers) (fst chunks) in
  let cch := chunk_sizes (ncols ws_markers) (snd chunks) in
  let first := get 0%Z (get_block FP bi bj) (a + depth) (b + depth) in
  let second := get 0%Z (get_block SP bi bj) (a + depth) (b + depth) in
  shape hmax = shape ws_markers ->
  SentinelBasinSharing.ws_fp sequential hmax ws_markers chunks depth = Ok FP ->
  SentinelBasinSharing.ws_sp sequential hmax ws_markers chunks depth = Ok SP ->
  SentinelBasinSharing.ws_final sequential hmax ws_markers chunks depth = Ok out ->
  bi < length rch -> bj < length cch -> a < nth bi rch 0 -> b < nth bj cch 0 ->
  get 0%Z out (offset rch bi + a) (offset cch bj + b)
  = if (first =? SentinelBasinSharing.boundary_label ws_markers)%Z then second else first.
Proof.
  cbv zeta. intros Hs HFPs HSPs Hfin Hbi Hbj Ha Hb.
  destruct (sentinel_stages _ _ _ _ out Hfin)
    as (H & M0 & M & FP' & RM & MSP & MK & SP' & FIN
        & HH & HM0 & HM & HFP & HRM & HMSP & HMK & HSP & HFIN & ->).
  assert (HFPeq : SentinelBasinSharing.ws_fp sequential hmax ws_markers chunks depth = Ok FP').
  { unfold SentinelBasinSharing.ws_fp, SentinelBasinSharing.hmax_op,
      SentinelBasinSharing.ws_markers_op.
    rewrite HH, HM0. cbn [rbind]. rewrite HM. cbn [rbind]. exact HFP. }
  assert (FP' = FP) as -> by congruence.
  assert (SP' = SP) as ->.
  { unfold SentinelBasinSharing.ws_sp, SentinelBasinSharing.ws_markers_sp,
      SentinelBasinSharing.ws_mask, SentinelBasinSharing.hmax_op in HSPs.
    rewrite HFPs, HH in HSPs. cbn [rbind] in HSPs.
    rewrite HRM in HSPs. cbn [rbind] in HSPs. rewrite HMSP in HSPs. cbn [rbind] in HSPs.
    rewrite HMK in HSPs. cbn [rbind] in HSPs. congruence. }
  rewrite (sentinel_final_cell hmax ws_markers chunks depth Hs H M0 M FP RM MSP SP FIN MK
             HH HM0 HM HFP HRM HMSP HMK HSP HFIN) by done.
  by rewrite (sentinel_fin_cell hmax ws_markers chunks depth Hs H M0 M FP RM MSP SP FIN MK
                HH HM0 HM HFP HRM HMSP HMK HSP HFIN) by (done || lia).
Qed.

Lemma sentinel_final_labels_witness :
  exists FP SP,
    SentinelBasinSharing.ws_fp sequential (NdArray 2 4 [0; 0; 0; 0; 0; 0; 0; 0]%Z)
      (NdArray 2 4 [1; 0; 0; 2; 0; 0; 0; 0]%Z) (2, 2) 1 = Ok FP
    /\ SentinelBasinSharing.ws_sp sequential (NdArray 2 4 [0; 0; 0; 0; 0; 0; 0; 0]%Z)
         (NdArray 2 4 [1; 0; 0; 2; 0; 0; 0; 0]%Z) (2, 2) 1 = Ok SP
    /\ get 0%Z (NdArray 2 4 [1; 1; 2; 2; 1; 1; 2; 2]%Z) 1 2
       = if (get 0%Z (get_block FP 0 1) 2 1 =? 3)%Z
         then get 0%Z (get_block SP 0 1) 2 1
         else get 0%Z (get_block FP 0 1) 2 1.
Proof.
  eexists. eexists. split; [vm_compute; reflexivity|]. split; [vm_compute; reflexivity|].
  eapply (sentinel_final_labels (NdArray 2 4 [0; 0; 0; 0; 0; 0; 0; 0]%Z)
            (NdArray 2 4 [1; 0; 0; 2; 0; 0; 0; 0]%Z) (2, 2) 1 _ _ _ 0 1 1 0).
  - reflexivity.
  - vm_compute. reflexivity.
  - vm_compute. reflexivity.
  - vm_compute. reflexivity.
  - simpl. lia.
  - simpl. lia.
  - simpl. lia.
  - simpl. lia.
Defined.

(** X18 (the markers of the second pass).  In the SentinelBasinSharing
    pipeline the second-pass marker image holds, at every cell of the core
    of a chunk, the first-pass label of that cell, or [0] where the first
    pass left the sentinel; and over a marker map no cell of it, halo
    included, holds the sentinel. *)
Theorem sentinel_second_pass_markers (hmax ws_markers : ndarray Z) (chunks : nat * nat)
    (depth : nat) (FP MSP : darray Z) (bi bj a b : nat) :
  let rch := chunk_sizes (nrows ws_markers) (fst chunks) in
  let cch := chunk_sizes (ncols ws_markers) (snd chunks) in
  let bl := SentinelBasinSharing.boundary_label ws_markers in
  let first := get 0%Z (get_block FP bi bj) (a + depth) (b + depth) in
  shape hmax = shape ws_markers -> marker_map ws_markers ->
  SentinelBasinSharing.ws_fp sequential hmax ws_markers chunks depth = Ok FP ->
  SentinelBasinSharing.ws_markers_sp sequential hmax ws_markers chunks depth = Ok MSP ->
  bi < length rch -> bj < length cch -> a < nth bi rch 0 -> b < nth bj cch 0 ->
  get 0%Z (get_block MSP bi bj) (a + depth) (b + depth)
  = (if (first =? bl)%Z then 0%Z else first)
  /\ all_cells (fun v => v <> bl) (get_block MSP bi bj).
Proof.
  cbv zeta. intros Hs Hmm HFPs HMSPs Hbi Hbj Ha Hb.
  set (rch := chunk_sizes (nrows ws_markers) (fst chunks)) in *.
  set (cch := chunk_sizes (ncols ws_markers) (snd chunks)) in *.
  pose proof (boundary_label_pos ws_markers Hmm) as Hbl.
  unfold SentinelBasinSharing.ws_markers_sp in HMSPs.
  rewrite HFPs in HMSPs. cbn [rbind] in HMSPs.
  destruct (map_blocks sequential
              (fun x => Ok (SentinelBasinSharing.remove_label x
                              (SentinelBasinSharing.boundary_label ws_markers))) FP)
    as [RM|] eqn:HRM; [|done].
  cbn [rbind] in HMSPs.
  unfold SentinelBasinSharing.ws_fp, SentinelBasinSharing.hmax_op,
    SentinelBasinSharing.ws_markers_op in HFPs.
  destruct (overlap (from_array 0%Z hmax chunks) depth Nearest) as [H|] eqn:HH; [|done].
  cbn [rbind] in HFPs.
  destruct (overlap (from_array 0%Z ws_markers chunks) depth
              (Constant (SentinelBasinSharing.boundary_label ws_markers)))
    as [M0|] eqn:HM0; [|done].
  cbn [rbind] in HFPs.
  destruct (map_blocks sequential
              (fun x => Ok (SentinelBasinSharing.build_full_markers x depth
                              (SentinelBasinSharing.boundary_label ws_markers))) M0)
    as [M|] eqn:HM; [|done].
  cbn [rbind] in HFPs.
  pose proof (sentinel_fp_chunked hmax ws_markers chunks depth Hs H M0 M FP HH HM0 HM HFPs)
    as HcFP.
  pose proof (sentinel_rm_chunked hmax ws_markers chunks depth Hs H M0 M FP RM
                HH HM0 HM HFPs HRM) as HcRM.
  pose proof (sentinel_rm_blocks hmax ws_markers chunks depth Hs H M0 M FP RM
                HH HM0 HM HFPs HRM) as Hrm.
  fold rch cch in HcFP, HcRM, Hrm.
  pose proof (trimmed_chunked rch cch RM depth HcRM) as Htrim.
  assert (Htrim' := Htrim). destruct Htrim' as (Hdt & Htr & Htc).
  destruct (chunked_block _ _ FP bi bj HcFP) as (HwFP & HrFP & HcFP');
    [by rewrite length_fmap..|].
  rewrite (nth_fmap_lt _ _ _ 0) in HrFP by done.
  rewrite (nth_fmap_lt _ _ _ 0) in HcFP' by done.
  split.
  - rewrite (get_overlap_core _ _ _ _ HMSPs) by (rewrite ?Htr, ?Htc; done).
    rewrite Htr, Htc.
    rewrite <- Htr at 1. rewrite <- Htc at 1.
    rewrite get_compute by (rewrite ?Htr, ?Htc; done).
    destruct HcRM as (HdRM & HrRM & HcRM).
    rewrite get_trim_overlap_block;
      [|done|by rewrite HrRM, length_fmap|by rewrite HcRM, length_fmap| |].
    + rewrite Hrm by done. by rewrite get_remove_label by (done || lia).
    + rewrite HrRM, (nth_fmap_lt _ _ _ 0) by done. lia.
    + rewrite HcRM, (nth_fmap_lt _ _ _ 0) by done. lia.
  - apply (all_cells_overlap_nearest _ _ _ _ _ _ HMSPs); rewrite ?Htr, ?Htc; try done.
    + lia.
    + apply (all_cells_trimmed _ rch cch); [done|lia|].
      intros bi' bj' Hbi' Hbj'. rewrite Hrm by done.
      apply all_cells_remove_label. lia.
Qed.

Lemma sentinel_second_pass_markers_witness :
  exists FP MSP,
    SentinelBasinSharing.ws_fp sequential (NdArray 2 4 [0; 0; 0; 0; 0; 0; 0; 0]%Z)
      (NdArray 2 4 [1; 0; 0; 2; 0; 0; 0; 0]%Z) (2, 2) 1 = Ok FP
    /\ SentinelBasinSharing.ws_markers_sp sequential (NdArray 2 4 [0; 0; 0; 0; 0; 0; 0; 0]%Z)
         (NdArray 2 4 [1; 0; 0; 2; 0; 0; 0; 0]%Z) (2, 2) 1 = Ok MSP
    /\ get 0%Z (get_block MSP 0 1) 2 1
       = if (get 0%Z (get_block FP 0 1) 2 1 =? 3)%Z then 0%Z
         else get 0%Z (get_block FP 0 1) 2 1.
Proof.
  eexists. eexists. split; [vm_compute; reflexivity|]. split; [vm_compute; reflexivity|].
  eapply (sentinel_second_pass_markers (NdArray 2 4 [0; 0; 0; 0; 0; 0; 0; 0]%Z)
            (NdArray 2 4 [1; 0; 0; 2; 0; 0; 0; 0]%Z) (2, 2) 1 _ _ 0 1 1 0).
  - reflexivity.
  - by apply marker_map_check.
  - vm_compute. reflexivity.
  - vm_compute. reflexivity.
  - simpl. lia.
  - simpl. lia.
  - simpl. lia.
  - simpl. lia.
Defined.

(** X19 (the first pass of SentinelBasinSharing always has seeds).  Over a
    marker map, with a halo of depth at least [1] within the geometry
    invariant, every chunk of the first-pass marker image carries the
    sentinel on its ring: the first pass returns a label image for every
    chunk, also for a chunk without any marker of its own. *)
Theorem sentinel_first_pass_succeeds (hmax ws_markers : ndarray Z) (chunks : nat * nat)
    (depth : nat) :
  shape hmax = shape ws_markers -> marker_map ws_markers -> 1 <= depth ->
  geometry_ok (from_array 0%Z ws_markers chunks) depth = true ->
  exists FP, SentinelBasinSharing.ws_fp sequential hmax ws_markers chunks depth = Ok FP.
Proof.
  intros Hs Hmm Hd Hgeo.
  assert (Hs' := Hs). unfold shape in Hs'. injection Hs' as Hnr Hnc.
  assert (Hgeo' : geometry_ok (from_array 0%Z hmax chunks) depth = true).
  { unfold geometry_ok, from_array in *. cbn [rchunks cchunks] in *. by rewrite Hnr, Hnc. }
  destruct (overlap_ok _ _ Nearest Hgeo') as [H HH].
  destruct (overlap_ok _ _ (Constant (SentinelBasinSharing.boundary_label ws_markers)) Hgeo)
    as [M0 HM0].
  pose proof (boundary_label_pos ws_markers Hmm) as Hbl.
  pose proof (sentinel_m0_chunked ws_markers chunks depth M0 HM0) as HcM0.
  unfold SentinelBasinSharing.ws_fp, SentinelBasinSharing.hmax_op,
    SentinelBasinSharing.ws_markers_op.
  rewrite HH, HM0. cbn [rbind].
  unfold map_blocks at 1. unfold sequential at 1. rewrite rmapM_pure. cbn [rbind].
  unfold map_blocks2, sequential. cbn [grid rchunks cchunks].
  match goal with |- context [rmapM ?f ?l] => destruct (rmapM f l) as [bs|e] eqn:Hrun end.
  - cbn [rbind]. eauto.
  - exfalso. apply rmapM_err in Hrun as (k & [h m] & Hk & Hfx). cbn [fst snd] in Hfx.
    apply lookup_zip_with_Some in Hk as (h' & m' & [= <- <-] & _ & Hm).
    cbn [data] in Hm. rewrite list_lookup_fmap in Hm.
    destruct (data (grid M0) !! k) as [m0|] eqn:Hm0; [|done].
    cbn in Hm. injection Hm as <-.
    destruct HcM0 as ((Hwg & Hgr & Hgc & Hblk) & Hrc & Hcc).
    apply list_elem_of_lookup_2 in Hm0.
    apply (elem_of_data_get empty_block) in Hm0 as (bi & bj & Hbi & Hbj & ->); [|done].
    rewrite Hgr in Hbi. rewrite Hgc in Hbj.
    destruct (Hblk bi bj Hbi Hbj) as (Hwb & Hrb & Hcb).
    rewrite Hrc in Hbi, Hrb. rewrite Hcc in Hbj, Hcb.
    rewrite length_fmap in Hbi, Hbj.
    rewrite (nth_fmap_lt _ _ _ 0) in Hrb by done.
    rewrite (nth_fmap_lt _ _ _ 0) in Hcb by done.
    unfold get_block in Hwb, Hrb, Hcb.
    destruct (sentinel_markers_watershed_ok h (get empty_block (grid M0) bi bj) depth
                (SentinelBasinSharing.boundary_label ws_markers) None) as [out Hout];
      [done|done|done|lia|lia|].
    congruence.
Qed.

Lemma sentinel_first_pass_succeeds_witness :
  exists FP,
    SentinelBasinSharing.ws_fp sequential (NdArray 2 4 [0; 0; 0; 0; 0; 0; 0; 0]%Z)
      (NdArray 2 4 [1; 0; 0; 0; 0; 0; 0; 0]%Z) (2, 2) 1 = Ok FP.
Proof.
  apply sentinel_first_pass_succeeds; [reflexivity|by apply marker_map_check|lia|reflexivity].
Defined.

(** ** The validation cell *)

Lemma error_wf (ws ws_final : ndarray Z) :
  wf ws -> wf ws_final -> shape ws_final = shape ws -> wf (Validation.error ws ws_final).
Proof.
  intros Hw Hf Hs. injection Hs as Hr Hc. unfold wf, Validation.error in *. cbn [data nrows ncols].
  rewrite length_zip_with. rewrite Hf, Hw, Hr, Hc. lia.
Qed.

Lemma get_error (ws ws_final : ndarray Z) i j :
  wf ws -> wf ws_final -> shape ws_final = shape ws -> i < nrows ws -> j < ncols ws ->
  get false (Validation.error ws ws_final) i j
  = negb (get 0%Z ws i j =? get 0%Z ws_final i j)%Z.
Proof.
  intros Hw Hf Hs Hi Hj. assert (Hs' := Hs). injection Hs' as Hr Hc.
  rewrite (get_in_range false) by done. cbn [Validation.error data ncols].
  rewrite lookup_zip_with.
  rewrite (get_data 0%Z ws i j) by done. cbn.
  rewrite <- Hc. rewrite (get_data 0%Z ws_final i j) by (done || lia). done.
Qed.

Lemma count_true_le (e : list bool) (m : list Z) :
  length e = length m ->
  (forall k, e !! k = Some true -> m !! k = Some 0%Z) ->
  length (filter (fun b => b = true) e) <= length (filter (fun v => v = 0%Z) m).
Proof.
  revert m. induction e as [|b e IH]; intros [|v m] Hlen Hk; simpl in *; try lia.
  assert (IH' := IH m ltac:(lia) (fun k => Hk (S k))).
  rewrite !filter_cons. destruct b.
  - specialize (Hk 0 eq_refl). simpl in Hk. injection Hk as ->.
    rewrite decide_True by done. rewrite decide_True by done. simpl. lia.
  - rewrite decide_False by done. destruct (decide (v = 0%Z)); simpl; lia.
Qed.

Lemma count_true_zero (e : list bool) :
  length (filter (fun b => b = true) e) = 0 <-> forall k, e !! k <> Some true.
Proof.
  induction e as [|b e IH]; simpl.
  - split; [intros _ k; by rewrite lookup_nil|done].
  - rewrite filter_cons. destruct b.
    + rewrite decide_True by done. simpl. split; [lia|]. intros Hk. by specialize (Hk 0).
    + rewrite decide_False by done. rewrite IH. split.
      * intros Hk [|k]; [done|apply Hk].
      * intros Hk k. apply (Hk (S k)).
Qed.

Lemma error_lookup (ws ws_final : ndarray Z) k :
  wf ws -> wf ws_final -> shape ws_final = shape ws ->
  data (Validation.error ws ws_final) !! k = Some true ->
  k / ncols ws < nrows ws /\ k mod ncols ws < ncols ws
  /\ get false (Validation.error ws ws_final) (k / ncols ws) (k mod ncols ws) = true.
Proof.
  intros Hw Hf Hs Hk.
  pose proof (error_wf ws ws_final Hw Hf Hs) as He.
  assert (Hlt : k < nrows ws * ncols ws).
  { apply lookup_lt_Some in Hk. unfold wf in He. cbn [nrows ncols Validation.error] in He.
    by rewrite He in Hk. }
  assert (Hc : ncols ws <> 0) by (intros Hz; rewrite Hz in Hlt; lia).
  assert (Hi : k / ncols ws < nrows ws) by (apply Nat.Div0.div_lt_upper_bound; lia).
  assert (Hj : k mod ncols ws < ncols ws) by (by apply Nat.mod_upper_bound).
  split; [done|]. split; [done|].
  rewrite (get_in_range false) by done. cbn [ncols Validation.error].
  replace (k / ncols ws * ncols ws + k mod ncols ws) with k; [by rewrite Hk|].
  pose proof (Nat.div_mod_eq k (ncols ws)). lia.
Qed.

(** X20 (an empty error image means equal label maps).  For two label maps
    of one shape, [error_count] is [0] exactly when the two maps are
    equal. *)
Theorem error_count_zero (ws ws_final : ndarray Z) :
  wf ws -> wf ws_final -> shape ws_final = shape ws ->
  Validation.error_count (Validation.error ws ws_final) = 0 <-> ws_final = ws.
Proof.
  intros Hw Hf Hs. unfold Validation.error_count. rewrite count_true_zero. split.
  - intros Hall. apply (ndarray_ext 0%Z); [done|done|done|].
    intros i j Hi Hj. assert (Hs' := Hs). injection Hs' as Hr Hc.
    rewrite Hr in Hi. rewrite Hc in Hj.
    pose proof (get_error ws ws_final i j Hw Hf Hs Hi Hj) as Hg.
    rewrite (get_in_range false) in Hg by done. cbn [ncols Validation.error] in Hg.
    specialize (Hall (i * ncols ws + j)).
    destruct (Z.eqb_spec (get 0%Z ws i j) (get 0%Z ws_final i j)) as [|Hne]; [done|].
    exfalso. apply Hall. cbn [negb] in Hg.
    pose proof (error_wf ws ws_final Hw Hf Hs) as He.
    destruct (data (Validation.error ws ws_final) !! (i * ncols ws + j)) as [x|] eqn:Hx.
    + cbn in Hg. by rewrite Hg.
    + apply lookup_ge_None in Hx. unfold wf in He. rewrite He in Hx.
      cbn [nrows ncols Validation.error] in Hx.
      pose proof (cell_lt (nrows ws) (ncols ws) i j Hi Hj). lia.
  - intros -> k Hk.
    destruct (error_lookup ws ws k Hw Hw eq_refl Hk) as (Hi & Hj & Hg).
    rewrite get_error in Hg by done. by rewrite Z.eqb_refl in Hg.
Qed.

Lemma error_count_zero_witness :
  Validation.error_count
    (Validation.error (NdArray 2 2 [1; 1; 2; 2]%Z) (NdArray 2 2 [1; 1; 2; 2]%Z)) = 0
  <-> NdArray 2 2 [1; 1; 2; 2]%Z = NdArray 2 2 [1; 1; 2; 2]%Z.
Proof. apply error_count_zero; reflexivity. Defined.

Section ValidationOfPipelines.
Context (hmax ws_markers : ndarray Z) (chunks : nat * nat) (depth : nat).
Context (reference out : ndarray Z).
Hypothesis Hwf_hmax : wf hmax.
Hypothesis Hwf_markers : wf ws_markers.
Hypothesis Hshape : shape hmax = shape ws_markers.
Hypothesis Hmap : marker_map ws_markers.
Hypothesis Href : ws hmax ws_markers = Ok reference.
Hypothesis Hout :
  DirectSharing.ws_final sequential hmax ws_markers chunks depth = Ok out
  \/ SentinelBasinSharing.ws_final sequential hmax ws_markers chunks depth = Ok out.

Lemma validation_shapes :
  wf reference /\ wf out /\ shape out = shape reference
  /\ nrows reference = nrows ws_markers /\ ncols reference = ncols ws_markers.
Proof using Hwf_markers Hshape Href Hout.
  destruct (watershed_shape _ _ _ _ Hwf_markers Href) as (Hwr & Hsr).
  assert (Hsr' := Hsr). injection Hsr' as Hrr Hrc.
  assert (Ho : wf out /\ nrows out = nrows ws_markers /\ ncols out = ncols ws_markers).
  { destruct Hout as [Hfin|Hfin].
    - by apply (direct_final_shape hmax ws_markers chunks depth).
    - by apply (sentinel_final_shape hmax ws_markers chunks depth). }
  destruct Ho as (Hwo & Hor & Hoc).
  repeat split; try done. unfold shape. congruence.
Qed.

Lemma validation_seed i j :
  i < nrows ws_markers -> j < ncols ws_markers ->
  get 0%Z ws_markers i j <> 0%Z ->
  get false (Validation.error reference out) i j = false.
Proof using Hwf_hmax Hwf_markers Hshape Hmap Href Hout.
  intros Hi Hj Hseed.
  destruct validation_shapes as (Hwr & Hwo & Hso & Hrr & Hrc).
  rewrite get_error by (done || lia).
  rewrite (watershed_keeps_markers _ _ _ _ i j Hwf_markers Href Hseed).
  pose proof (marker_map_pos ws_markers i j Hmap Hseed) as Hpos.
  assert (Hkept : get 0%Z out i j = get 0%Z ws_markers i j).
  { destruct Hout as [Hfin|Hfin].
    - by apply (direct_seed_kept hmax ws_markers chunks depth Hwf_markers Hshape).
    - by apply (sentinel_seed_kept hmax ws_markers chunks depth Hwf_markers Hshape). }
  by rewrite Hkept, Z.eqb_refl.
Qed.

End ValidationOfPipelines.

(** X21 (no error at a seed).  Where the marker image holds a seed, the
    reference watershed and either pipeline both return the label of the
    seed, and the error image of the validation cell is false. *)
Theorem no_error_at_seeds (hmax ws_markers : ndarray Z) (chunks : nat * nat) (depth : nat)
    (reference out : ndarray Z) (i j : nat) :
  wf hmax -> wf ws_markers -> shape hmax = shape ws_markers ->
  marker_map ws_markers -> 1 <= depth ->
  ws hmax ws_markers = Ok reference ->
  DirectSharing.ws_final sequential hmax ws_markers chunks depth = Ok out
  \/ SentinelBasinSharing.ws_final sequential hmax ws_markers chunks depth = Ok out ->
  i < nrows ws_markers -> j < ncols ws_markers ->
  get 0%Z ws_markers i j <> 0%Z ->
  get false (Validation.error reference out) i j = false.
Proof.
  intros Hwh Hwm Hs Hmm _ Href Hout Hi Hj Hseed.
  by apply (validation_seed hmax ws_markers chunks depth).
Qed.

Lemma no_error_at_seeds_witness :
  get false (Validation.error (NdArray 2 2 [1; 1; 2; 2]%Z) (NdArray 2 2 [1; 1; 1; 2]%Z)) 1 1
  = false.
Proof.
  apply (no_error_at_seeds (NdArray 2 2 [0; 2; 3; 1]%Z) (NdArray 2 2 [0; 1; 0; 2]%Z)
           (400, 400) 1).
  - reflexivity.
  - reflexivity.
  - reflexivity.
  - by apply marker_map_check.
  - lia.
  - vm_compute. reflexivity.
  - left. vm_compute. reflexivity.
  - simpl. lia.
  - simpl. lia.
  - vm_compute. discriminate.
Defined.

(** X22 (the error count is bounded by the unseeded cells).  The number of
    cells where either pipeline differs from the reference watershed is at
    most the number of cells of the marker image that hold no seed. *)
Theorem error_count_bound (hmax ws_markers : ndarray Z) (chunks : nat * nat) (depth : nat)
    (reference out : ndarray Z) :
  wf hmax -> wf ws_markers -> shape hmax = shape ws_markers ->
  marker_map ws_markers -> 1 <= depth ->
  ws hmax ws_markers = Ok reference ->
  DirectSharing.ws_final sequential hmax ws_markers chunks depth = Ok out
  \/ SentinelBasinSharing.ws_final sequential hmax ws_markers chunks depth = Ok out ->
  Validation.error_count (Validation.error reference out)
  <= length (filter (fun v => v = 0%Z) (data ws_markers)).
Proof.
  intros Hwh Hwm Hs Hmm _ Href Hout.
  destruct (validation_shapes hmax ws_markers chunks depth reference out Hwm Hs Href Hout)
    as (Hwr & Hwo & Hso & Hrr & Hrc).
  pose proof (error_wf reference out Hwr Hwo Hso) as He.
  apply count_true_le.
  - unfold wf in He, Hwm. cbn [nrows ncols Validation.error] in He. congruence.
  - intros k Hk.
    destruct (error_lookup reference out k Hwr Hwo Hso Hk) as (Hi & Hj & Hg).
    rewrite Hrr, Hrc in Hi. rewrite Hrc in Hj, Hg.
    destruct (Z.eq_dec (get 0%Z ws_markers (k / ncols ws_markers) (k mod ncols ws_markers)) 0)
      as [Hz|Hnz].
    + rewrite <- Hz. rewrite <- (get_data 0%Z ws_markers) by done.
      f_equal. pose proof (Nat.div_mod_eq k (ncols ws_markers)). lia.
    + rewrite (validation_seed hmax ws_markers chunks depth reference out
                 Hwh Hwm Hs Hmm Href Hout _ _ Hi Hj Hnz) in Hg. done.
Qed.

Lemma error_count_bound_witness :
  Validation.error_count
    (Validation.error (NdArray 2 2 [1; 1; 2; 2]%Z) (NdArray 2 2 [1; 1; 1; 2]%Z))
  <= length (filter (fun v => v = 0%Z) [0; 1; 0; 2]%Z).
Proof.
  apply (error_count_bound (NdArray 2 2 [0; 2; 3; 1]%Z) (NdArray 2 2 [0; 1; 0; 2]%Z)
           (400, 400) 1).
  - reflexivity.
  - reflexivity.
  - reflexivity.
  - by apply marker_map_check.
  - lia.
  - vm_compute. reflexivity.
  - left. vm_compute. reflexivity.
Defined.

(** ** Chunking, reassembling and the memory estimate *)

Lemma tabulate_data_S {A} r c (f : nat -> nat -> A) :
  data (tabulate (S r) c f) = data (tabulate r c f) ++ (f r <$> seq 0 c).
Proof.
  unfold tabulate. cbn [data].
  replace (S r * c) with (r * c + c) by lia.
  rewrite seq_app, fmap_app. f_equal. cbn.
  apply list_eq. intros k. rewrite !list_lookup_fmap.
  destruct (decide (k < c)) as [Hk|Hk].
  - rewrite !lookup_seq_lt by done. cbn.
    destruct (divmod_cell c r k Hk) as [-> ->]. done.
  - rewrite !lookup_seq_ge by lia. done.
Qed.

Lemma sum_list_scale n (l : list nat) : sum_list ((fun c => n * c) <$> l) = n * sum_list l.
Proof.
  induction l as [|c l IH]; [simpl; lia|].
  rewrite fmap_cons. cbn [sum_list_with]. rewrite IH. unfold id. lia.
Qed.

Lemma nth_seq_fmap (l : list nat) : (fun j => nth j l 0) <$> seq 0 (length l) = l.
Proof.
  apply list_eq. intros k. rewrite list_lookup_fmap.
  destruct (decide (k < length l)) as [Hk|Hk].
  - rewrite lookup_seq_lt by done. cbn.
    destruct (lookup_lt_is_Some_2 l k Hk) as [x Hx]. rewrite Hx.
    f_equal. by apply nth_lookup_Some with (d := 0) in Hx.
  - rewrite lookup_seq_ge by lia. cbn. symmetry. apply lookup_ge_None. lia.
Qed.

Lemma offset_succ ch b : b < length ch -> offset ch (S b) = offset ch b + nth b ch 0.
Proof.
  intros Hb. unfold offset.
  destruct (lookup_lt_is_Some_2 ch b Hb) as [x Hx].
  rewrite (take_S_r _ _ _ Hx), sum_list_with_app. simpl.
  apply nth_lookup_Some with (d := 0) in Hx. lia.
Qed.

Lemma blocks_cell_count {A} rch cch (F : nat -> nat -> ndarray A) R :
  R <= length rch ->
  (forall bi bj, nrows (F bi bj) = nth bi rch 0 /\ ncols (F bi bj) = nth bj cch 0) ->
  sum_list ((fun b => nrows b * ncols b) <$> data (tabulate R (length cch) F))
  = offset rch R * sum_list cch.
Proof.
  intros HR HF. induction R as [|R IH].
  - done.
  - rewrite tabulate_data_S, fmap_app, sum_list_with_app, IH by lia.
    rewrite offset_succ by lia.
    rewrite <- list_fmap_compose.
    rewrite (list_fmap_ext _ (fun j => nth R rch 0 * nth j cch 0)).
    + rewrite (list_fmap_compose (fun j => nth j cch 0) (fun c => nth R rch 0 * c)).
      rewrite nth_seq_fmap, sum_list_scale. lia.
    + intros k j _. cbn. by destruct (HF R j) as [-> ->].
Qed.

Lemma from_array_cell_count {A} (d : A) (x : ndarray A) chunks :
  sum_list ((fun b => nrows b * ncols b) <$> data (grid (from_array d x chunks)))
  = nrows x * ncols x.
Proof.
  unfold from_array. cbn [grid].
  rewrite (blocks_cell_count (chunk_sizes (nrows x) (fst chunks))
             (chunk_sizes (ncols x) (snd chunks))); [|done|done].
  unfold offset. by rewrite firstn_all, !sum_chunk_sizes.
Qed.

Lemma compute_mem_mb_cells {A} (a : ndarray A) :
  compute_mem_mb (shape_list a)
  = QArith_base.Qdiv (QArith_base.inject_Z (Z.of_nat (nrows a * ncols a) * 8))
      (QArith_base.inject_Z (1024 ^ 2)).
Proof. unfold compute_mem_mb, shape_list. cbn [foldl]. do 3 f_equal. lia. Qed.

Lemma compute_mem_mb_add (p q : Z) :
  QArith_base.Qeq
    (QArith_base.Qplus
       (QArith_base.Qdiv (QArith_base.inject_Z (p * 8)) (QArith_base.inject_Z (1024 ^ 2)))
       (QArith_base.Qdiv (QArith_base.inject_Z (q * 8)) (QArith_base.inject_Z (1024 ^ 2))))
    (QArith_base.Qdiv (QArith_base.inject_Z ((p + q) * 8)) (QArith_base.inject_Z (1024 ^ 2))).
Proof.
  change (1024 ^ 2)%Z with 1048576%Z.
  unfold QArith_base.Qeq, QArith_base.Qdiv, QArith_base.Qmult, QArith_base.Qplus,
    QArith_base.Qinv, QArith_base.inject_Z.
  cbn -[Z.mul Z.add]. lia.
Qed.

Lemma qsum_cells {A} (l : list (ndarray A)) :
  QArith_base.Qeq
    (qsum ((fun b => compute_mem_mb (shape_list b)) <$> l))
    (QArith_base.Qdiv
       (QArith_base.inject_Z (Z.of_nat (sum_list ((fun b => nrows b * ncols b) <$> l)) * 8))
       (QArith_base.inject_Z (1024 ^ 2))).
Proof.
  induction l as [|b l IH].
  - reflexivity.
  - rewrite !fmap_cons. cbn [qsum foldr sum_list_with].
    fold (qsum ((fun b => compute_mem_mb (shape_list b)) <$> l)).
    eapply QArith_base.Qeq_trans; [apply QArith_base.Qplus_comp; [reflexivity|exact IH]|].
    rewrite compute_mem_mb_cells, Nat2Z.inj_add. apply compute_mem_mb_add.
Qed.

(** X23 (chunking loses nothing).  Cutting an array into chunks with
    [da.from_array] and putting the blocks side by side again with
    [compute()] gives back the array, for every chunk shape. *)
Theorem from_array_compute {A} (d : A) (x : ndarray A) (chunks : nat * nat) :
  wf x -> 0 < fst chunks -> 0 < snd chunks ->
  compute d (from_array d x chunks) = x.
Proof. intros Hwf _ _. by apply compute_from_array. Qed.

Lemma from_array_compute_witness :
  compute 0%Z (from_array 0%Z (NdArray 3 5 [1; 2; 3; 4; 5; 6; 7; 8; 9; 10; 11; 12; 13; 14; 15]%Z)
                 (2, 2))
  = NdArray 3 5 [1; 2; 3; 4; 5; 6; 7; 8; 9; 10; 11; 12; 13; 14; 15]%Z.
Proof. apply from_array_compute; [reflexivity|simpl; lia|simpl; lia]. Defined.

(** X24 (the memory of the chunks adds up).  For an array small enough
    that the quotient of [compute_mem_mb] is an exact double
    ([count * 8 < 2 ^ 53]), the estimates that [compute_mem_mb] gives for
    the shapes of the blocks of the chunked array add up to its estimate
    for the shape of the whole array. *)
Theorem chunk_memory_adds_up {A} (d : A) (x : ndarray A) (chunks : nat * nat) :
  0 < fst chunks -> 0 < snd chunks ->
  (Z.of_nat (nrows x * ncols x) * 8 < 2 ^ 53)%Z ->
  QArith_base.Qeq
    (qsum ((fun b => compute_mem_mb (shape_list b)) <$> data (grid (from_array d x chunks))))
    (compute_mem_mb (shape_list x)).
Proof.
  intros _ _ _.
  eapply QArith_base.Qeq_trans; [apply qsum_cells|].
  rewrite from_array_cell_count, compute_mem_mb_cells. reflexivity.
Qed.

Lemma chunk_memory_adds_up_witness :
  QArith_base.Qeq
    (qsum ((fun b => compute_mem_mb (shape_list b))
             <$> data (grid (from_array 0%Z (NdArray 2 3 [1; 2; 3; 4; 5; 6]%Z) (2, 2)))))
    (compute_mem_mb (shape_list (NdArray 2 3 [1; 2; 3; 4; 5; 6]%Z))).
Proof. apply chunk_memory_adds_up; [simpl; lia|simpl; lia|vm_compute; reflexivity]. Defined.
